(** * The inode layer of the Pintos file system (src/filesys/inode.c)

    A shallow embedding of [inode.c]: the on-disk inode, the list of open
    inodes, reference counting with deferred deletion, and the sector
    granularity read and write paths with their bounce buffer.

    C integers are represented by [Z].  Unsigned 32-bit arithmetic
    ([disk_sector_t], [size_t]) wraps and the wrap is written out with
    [uint32]; signed 32-bit arithmetic ([off_t], [int]) that leaves the
    representable range is undefined behaviour and yields [Undef].  Pointers
    to [struct inode] are addresses into a heap of allocated objects, with
    [NULL] as [None].  Every function of the module is a function from a
    [world] to an [outcome]. *)

From Stdlib Require Import ZArith Lia Strings.Byte.
From stdpp Require Import base tactics option list functions gmap.

Local Open Scope Z_scope.

(** ** Outcomes of running C code *)

Inductive outcome (A : Type) : Type :=
| Ok (a : A)      (* normal return *)
| Panic           (* an ASSERT of the source failed: kernel panic *)
| Undef           (* undefined behaviour: null or dangling dereference,
                     access outside an object, signed overflow, misuse of
                     a lock *)
| OutOfFuel.      (* the loop bound of the embedding was too small *)
Arguments Ok {A} a.
Arguments Panic {A}.
Arguments Undef {A}.
Arguments OutOfFuel {A}.

#[global] Instance outcome_ret : MRet outcome := fun _ a => Ok a.
#[global] Instance outcome_bind : MBind outcome := fun _ _ f m =>
  match m with
  | Ok a => f a
  | Panic => Panic
  | Undef => Undef
  | OutOfFuel => OutOfFuel
  end.

(** [ASSERT (c)] of <debug.h>. *)
Definition ASSERT (c : bool) : outcome unit := if c then Ok tt else Panic.

(** ** Machine integers *)

(** Conversion to an unsigned 32-bit type ([disk_sector_t], [size_t],
    [unsigned]). *)
Definition uint32 (z : Z) : Z := z mod 2 ^ 32.

(** The result of signed 32-bit arithmetic ([off_t], [int]); overflow is
    undefined. *)
Definition int32 (z : Z) : outcome Z :=
  if (- 2 ^ 31 <=? z) && (z <? 2 ^ 31) then Ok z else Undef.

(** Reading an unsigned 32-bit pattern as a signed value. *)
Definition to_signed (z : Z) : Z := if z <? 2 ^ 31 then z else z - 2 ^ 32.

(** ** Bytes and little-endian words *)

Definition byte_of_Z (z : Z) : byte :=
  default x00 (Byte.of_N (Z.to_N (z mod 256))).
Definition Z_of_byte (b : byte) : Z := Z.of_N (Byte.to_N b).

(** The four bytes of a 32-bit word as the x86 stores them. *)
Definition le32 (z : Z) : list byte :=
  [byte_of_Z z; byte_of_Z (z / 2 ^ 8); byte_of_Z (z / 2 ^ 16);
   byte_of_Z (z / 2 ^ 24)].

Definition byte_at (l : list byte) (i : nat) : Z := Z_of_byte (nth i l x00).

Definition le32_at (l : list byte) (i : nat) : Z :=
  byte_at l i + 2 ^ 8 * byte_at l (i + 1) + 2 ^ 16 * byte_at l (i + 2)
  + 2 ^ 24 * byte_at l (i + 3).

(** ** Memory objects: caller buffers and the bounce buffer *)

(** [memcpy (dst, obj + pos, len)]: the [len] bytes of [obj] from [pos]. *)
Definition mem_load (obj : list byte) (pos len : Z) : outcome (list byte) :=
  if (0 <=? pos) && (0 <=? len) && (pos + len <=? Z.of_nat (length obj))
  then Ok (take (Z.to_nat len) (drop (Z.to_nat pos) obj))
  else Undef.

(** [memcpy (obj + pos, src, length src)]: [obj] with [src] copied in at
    [pos]. *)
Definition mem_store (obj : list byte) (pos : Z) (src : list byte)
  : outcome (list byte) :=
  if (0 <=? pos) && (pos + Z.of_nat (length src) <=? Z.of_nat (length obj))
  then Ok (take (Z.to_nat pos) obj ++ src
           ++ drop (Z.to_nat pos + length src)%nat obj)
  else Undef.

(** ** Constants *)

(** DISK_SECTOR_SIZE of devices/disk.h; [inode_create] asserts that
    [struct inode_disk], which is 4 + 4 + 4 + 125 * 4 bytes, has this size. *)
Definition DISK_SECTOR_SIZE : Z := 512.

Definition INODE_MAGIC : Z := 0x494e4f44.

(** Modelled from the spec: DIV_ROUND_UP of <round.h>, which is not among the
    sources; X / STEP rounded up. *)
Definition DIV_ROUND_UP (x step : Z) : Z := (x + step - 1) / step.

Definition sector_data := list byte.

Definition zeros : sector_data := replicate (Z.to_nat DISK_SECTOR_SIZE) x00.

(** ** The on-disk inode *)

Module inode_disk.
Record t := mk {
  start : Z;              (* disk_sector_t: first data sector *)
  length : Z;             (* off_t: file size in bytes *)
  magic : Z;              (* unsigned: magic number *)
  unused : list Z;        (* uint32_t [125]: not used *)
}.

(** [calloc (1, sizeof *disk_inode)]. *)
Definition zeroed : t := mk 0 0 0 (replicate 125%nat 0).

Definition set_start (v : Z) (d : t) := mk v (length d) (magic d) (unused d).
Definition set_length (v : Z) (d : t) := mk (start d) v (magic d) (unused d).
Definition set_magic (v : Z) (d : t) := mk (start d) (length d) v (unused d).

(** The sector image of the structure, as [disk_write] sees it. *)
Definition encode (d : t) : sector_data :=
  le32 (start d) ++ le32 (length d) ++ le32 (magic d)
  ++ concat (map le32 (unused d)).

(** The structure that [disk_read] leaves in [inode->data]. *)
Definition decode (s : sector_data) : t :=
  mk (le32_at s 0) (to_signed (le32_at s 4)) (le32_at s 8)
     (map (fun i => le32_at s (12 + 4 * i)) (seq 0 125)).
End inode_disk.

(** Returns the number of sectors to allocate for an inode SIZE bytes long. *)
Definition bytes_to_sectors (size : Z) : Z :=
  uint32 (DIV_ROUND_UP size DISK_SECTOR_SIZE).

(** ** Locks *)

(** Modelled from the spec: [struct lock] with [lock_init], [lock_acquire]
    and [lock_release] of threads/synch.h, which is not among the sources.
    The embedding is sequential: a lock is uninitialised storage, free, or
    held by the one running thread, and using it in any other order leaves
    the model. *)
Inductive lock := LockUninit | LockFree | LockHeld.

Definition lock_init (l : lock) : lock := LockFree.
Definition lock_acquire (l : lock) : outcome lock :=
  match l with LockFree => Ok LockHeld | _ => Undef end.
Definition lock_release (l : lock) : outcome lock :=
  match l with LockHeld => Ok LockFree | _ => Undef end.

(** ** The in-memory inode *)

Module inode.
Record t := mk {
  sector : Z;                 (* disk_sector_t: sector of disk location *)
  open_cnt : Z;               (* int: number of openers *)
  removed : bool;             (* true if deleted *)
  data : inode_disk.t;        (* inode content *)
  inode_lock : lock;
  dir_lock : lock;
}.

Definition set_sector v i :=
  mk v (open_cnt i) (removed i) (data i) (inode_lock i) (dir_lock i).
Definition set_open_cnt v i :=
  mk (sector i) v (removed i) (data i) (inode_lock i) (dir_lock i).
Definition set_removed v i :=
  mk (sector i) (open_cnt i) v (data i) (inode_lock i) (dir_lock i).
Definition set_data v i :=
  mk (sector i) (open_cnt i) (removed i) v (inode_lock i) (dir_lock i).
Definition set_inode_lock v i :=
  mk (sector i) (open_cnt i) (removed i) (data i) v (dir_lock i).
Definition set_dir_lock v i :=
  mk (sector i) (open_cnt i) (removed i) (data i) (inode_lock i) v.

(** What [malloc (sizeof *inode)] returns: storage whose fields hold no
    meaningful value yet; in particular neither lock is initialised. *)
Definition fresh : t := mk 0 0 false inode_disk.zeroed LockUninit LockUninit.
End inode.

Definition addr := positive.

(** A [struct inode *]; [None] is the null pointer. *)
Definition inode_ptr := option addr.
Definition NULL : inode_ptr := None.


(** ** The collaborators of the module *)

(** Calls that leave the module, in the order they are made. *)
Inductive event :=
| EvDiskRead (sec_no : Z)
| EvDiskWrite (sec_no : Z) (buf : sector_data)
| EvAllocate (cnt : Z)
| EvRelease (first cnt : Z).

(** Modelled from the spec: the Space Allocator, [free_map_allocate] and
    [free_map_release] of filesys/free-map.h, which is not among the sources.
    It is an opaque service with a state of its own: a request for [cnt]
    sectors is refused or answered with the first sector of the range. *)
Class Allocator (FM : Type) := {
  free_map_allocate : Z -> FM -> option (Z * FM);
  free_map_release : Z -> Z -> FM -> FM;
}.

(** ** The loops of reading and writing *)

(** The variables of the loops of [inode_read_at] and [inode_write_at]. *)
Record rw_state := mkRw {
  rw_buffer : list byte;     (* the object BUFFER points into *)
  rw_size : Z;               (* off_t size *)
  rw_offset : Z;             (* off_t offset *)
  rw_bytes : Z;              (* off_t bytes_read, bytes_written *)
  rw_bounce : bool;          (* bounce != NULL *)
}.

Inductive flow (A : Type) : Type :=
| Continue (a : A)
| Break (a : A).
Arguments Continue {A} a.
Arguments Break {A} a.

Section Inode.
Context {FM : Type} `{!Allocator FM}.

(** The state the module works on: the file system disk, the allocator, the
    objects obtained from [malloc], and the module's two static variables
    [open_inodes] and [inode_list_lock]. *)
Record world := mkWorld {
  filesys_disk : Z -> sector_data;
  free_map : FM;
  io_log : list event;
  heap : gmap addr inode.t;
  open_inodes : list addr;
  inode_list_lock : lock;
}.

Definition set_disk (d : Z -> sector_data) (w : world) : world :=
  mkWorld d (free_map w) (io_log w) (heap w) (open_inodes w)
    (inode_list_lock w).
Definition set_free_map (fm : FM) (w : world) : world :=
  mkWorld (filesys_disk w) fm (io_log w) (heap w) (open_inodes w)
    (inode_list_lock w).
Definition log (e : event) (w : world) : world :=
  mkWorld (filesys_disk w) (free_map w) (io_log w ++ [e]) (heap w)
    (open_inodes w) (inode_list_lock w).
Definition set_heap (h : gmap addr inode.t) (w : world) : world :=
  mkWorld (filesys_disk w) (free_map w) (io_log w) h (open_inodes w)
    (inode_list_lock w).
Definition set_open_inodes (l : list addr) (w : world) : world :=
  mkWorld (filesys_disk w) (free_map w) (io_log w) (heap w) l
    (inode_list_lock w).
Definition set_inode_list_lock (l : lock) (w : world) : world :=
  mkWorld (filesys_disk w) (free_map w) (io_log w) (heap w) (open_inodes w) l.

(** Modelled from the spec: the Sector Store, [disk_read] and [disk_write]
    of devices/disk.h, which is not among the sources; both transfer one
    whole sector. *)
Definition disk_read (sec_no : Z) (w : world) : sector_data * world :=
  (filesys_disk w sec_no, log (EvDiskRead sec_no) w).

Definition disk_write (sec_no : Z) (buf : sector_data) (w : world) : world :=
  log (EvDiskWrite sec_no buf) (set_disk (<[sec_no := buf]> (filesys_disk w)) w).

Definition allocate (cnt : Z) (w : world) : option Z * world :=
  match free_map_allocate cnt (free_map w) with
  | Some (first, fm) => (Some first, log (EvAllocate cnt) (set_free_map fm w))
  | None => (None, log (EvAllocate cnt) w)
  end.

Definition release (first cnt : Z) (w : world) : world :=
  log (EvRelease first cnt)
    (set_free_map (free_map_release first cnt (free_map w)) w).

(** ** Access to inodes through pointers *)

(** [*inode] *)
Definition load (inode : inode_ptr) (w : world) : outcome inode.t :=
  match inode with
  | None => Undef
  | Some a => match heap w !! a with Some i => Ok i | None => Undef end
  end.

(** [*inode = f ( *inode )] *)
Definition update (inode : inode_ptr) (f : inode.t -> outcome inode.t)
    (w : world) : outcome world :=
  i ← load inode w;
  i' ← f i;
  match inode with
  | Some a => Ok (set_heap (<[a := i']> (heap w)) w)
  | None => Undef
  end.

Definition acquire_inode_lock (inode : inode_ptr) : world -> outcome world :=
  update inode (fun i =>
    l ← lock_acquire (inode.inode_lock i); Ok (inode.set_inode_lock l i)).

Definition release_inode_lock (inode : inode_ptr) : world -> outcome world :=
  update inode (fun i =>
    l ← lock_release (inode.inode_lock i); Ok (inode.set_inode_lock l i)).

Definition acquire_list_lock (w : world) : outcome world :=
  l ← lock_acquire (inode_list_lock w); Ok (set_inode_list_lock l w).

Definition release_list_lock (w : world) : outcome world :=
  l ← lock_release (inode_list_lock w); Ok (set_inode_list_lock l w).

(** ** The functions of inode.c *)

(** Returns the disk sector that contains byte offset POS within INODE.
    Returns -1 if INODE does not contain data for a byte at offset POS. *)
Definition byte_to_sector (inode : inode_ptr) (pos : Z) (w : world)
  : outcome Z :=
  _ ← ASSERT (bool_decide (inode ≠ NULL));
  i ← load inode w;
  if pos <? inode_disk.length (inode.data i)
  then Ok (uint32 (inode_disk.start (inode.data i)
                   + Z.quot pos DISK_SECTOR_SIZE))
  else Ok (uint32 (-1)).

(** Initializes the inode module. *)
Definition inode_init (w : world) : world :=
  set_inode_list_lock (lock_init (inode_list_lock w)) (set_open_inodes [] w).

(** Initializes an inode with LENGTH bytes of data and writes the new inode
    to sector SECTOR on the file system disk.  Returns true if successful.
    Returns false if memory or disk allocation fails.  [calloc_ok] tells
    whether [calloc] finds memory. *)
Definition inode_create (calloc_ok : bool) (sector length : Z) (w : world)
  : outcome (bool * world) :=
  _ ← ASSERT (0 <=? length);
  if calloc_ok then
    let disk_inode := inode_disk.zeroed in
    let sectors := bytes_to_sectors length in
    let disk_inode := inode_disk.set_length length disk_inode in
    let disk_inode := inode_disk.set_magic INODE_MAGIC disk_inode in
    match allocate sectors w with
    | (Some first, w) =>
        let disk_inode := inode_disk.set_start (uint32 first) disk_inode in
        let w := disk_write sector (inode_disk.encode disk_inode) w in
        let w :=
          if 0 <? sectors then
            foldl (fun w i =>
                     disk_write (uint32 (inode_disk.start disk_inode + i))
                       zeros w)
                  w (seqZ 0 sectors)
          else w in
        Ok (true, w)
    | (None, w) => Ok (false, w)
    end
  else Ok (false, w).

(** Reopens and returns INODE. *)
Definition inode_reopen (inode : inode_ptr) (w : world)
  : outcome (inode_ptr * world) :=
  match inode with
  | Some _ =>
      w ← acquire_inode_lock inode w;
      w ← update inode (fun i =>
             c ← int32 (inode.open_cnt i + 1); Ok (inode.set_open_cnt c i)) w;
      w ← release_inode_lock inode w;
      Ok (inode, w)
  | None => Ok (inode, w)
  end.

(** The loop of [inode_open] over the list of open inodes: checks whether
    the inode of SECTOR is already open, and reopens it if so. *)
Fixpoint inode_open_scan (l : list addr) (sector : Z) (w : world)
  : outcome (inode_ptr * world) :=
  match l with
  | [] => Ok (NULL, w)
  | e :: l' =>
      let inode := Some e in
      w ← acquire_inode_lock inode w;
      i ← load inode w;
      let tmp := inode.sector i =? sector in
      w ← release_inode_lock inode w;
      if tmp then inode_reopen inode w
      else inode_open_scan l' sector w
  end.

(** Reads an inode from SECTOR and returns a `struct inode' that contains
    it.  Returns a null pointer if memory allocation fails.  [malloc_ok]
    tells whether [malloc] finds memory. *)
Definition inode_open (malloc_ok : bool) (sector : Z) (w : world)
  : outcome (inode_ptr * world) :=
  w ← acquire_list_lock w;
  '(found, w) ← inode_open_scan (open_inodes w) sector w;
  match found with
  | Some _ =>
      w ← release_list_lock w;
      Ok (found, w)
  | None =>
      if malloc_ok then
        let a := fresh (dom (heap w)) in
        let inode := Some a in
        let w := set_heap (<[a := inode.fresh]> (heap w)) w in
        let w := set_open_inodes (a :: open_inodes w) w in
        w ← release_list_lock w;
        w ← update inode (fun i => Ok (inode.set_sector sector i)) w;
        w ← update inode (fun i => Ok (inode.set_open_cnt 1 i)) w;
        w ← update inode (fun i => Ok (inode.set_removed false i)) w;
        i ← load inode w;
        let '(buf, w) := disk_read (inode.sector i) w in
        w ← update inode (fun i =>
               Ok (inode.set_data (inode_disk.decode buf) i)) w;
        w ← update inode (fun i =>
               Ok (inode.set_inode_lock (lock_init (inode.inode_lock i)) i)) w;
        Ok (inode, w)
      else
        w ← release_list_lock w;
        Ok (NULL, w)
  end.

(** Returns INODE's inode number. *)
Definition inode_get_inumber (inode : inode_ptr) (w : world) : outcome Z :=
  i ← load inode w; Ok (inode.sector i).

(** Closes INODE and writes it to disk.  If this was the last reference to
    INODE, frees its memory.  If INODE was also a removed inode, frees its
    blocks. *)
Definition inode_close (inode : inode_ptr) (w : world) : outcome world :=
  match inode with
  | None => Ok w
  | Some a =>
      w ← acquire_inode_lock inode w;
      w ← update inode (fun i =>
             c ← int32 (inode.open_cnt i - 1); Ok (inode.set_open_cnt c i)) w;
      i ← load inode w;
      if inode.open_cnt i =? 0 then
        w ← acquire_list_lock w;
        let w := set_open_inodes (filter (fun e => e ≠ a) (open_inodes w)) w in
        w ← release_list_lock w;
        let w :=
          if inode.removed i then
            release (inode_disk.start (inode.data i))
              (bytes_to_sectors (inode_disk.length (inode.data i)))
              (release (inode.sector i) 1 w)
          else w in
        w ← release_inode_lock inode w;
        Ok (set_heap (delete a (heap w)) w)
      else
        release_inode_lock inode w
  end.

(** Marks INODE to be deleted when it is closed by the last caller who has
    it open. *)
Definition inode_remove (inode : inode_ptr) (w : world) : outcome world :=
  _ ← ASSERT (bool_decide (inode ≠ NULL));
  update inode (fun i => Ok (inode.set_removed true i)) w.

(** Returns the length, in bytes, of INODE's data. *)
Definition inode_length (inode : inode_ptr) (w : world) : outcome Z :=
  i ← load inode w; Ok (inode_disk.length (inode.data i)).

Definition inode_dir_lock (i : inode_ptr) (w : world) : outcome world :=
  match i with
  | Some _ =>
      update i (fun x =>
        l ← lock_acquire (inode.dir_lock x); Ok (inode.set_dir_lock l x)) w
  | None => Ok w
  end.

Definition inode_dir_unlock (i : inode_ptr) (w : world) : outcome world :=
  match i with
  | Some _ =>
      update i (fun x =>
        l ← lock_release (inode.dir_lock x); Ok (inode.set_dir_lock l x)) w
  | None => Ok w
  end.

Definition inode_dir_init (i : inode_ptr) (w : world) : outcome world :=
  match i with
  | Some _ =>
      update i (fun x =>
        Ok (inode.set_dir_lock (lock_init (inode.dir_lock x)) x)) w
  | None => Ok w
  end.

(** ** Reading and writing *)

(** "Advance." *)
Definition advance (buffer : list byte) (bounce : bool) (chunk_size : Z)
    (st : rw_state) : outcome rw_state :=
  size ← int32 (rw_size st - chunk_size);
  offset ← int32 (rw_offset st + chunk_size);
  bytes ← int32 (rw_bytes st + chunk_size);
  Ok (mkRw buffer size offset bytes bounce).

(** One pass through the body of the loop of [inode_read_at].  [malloc_ok]
    tells whether [malloc (DISK_SECTOR_SIZE)] finds memory. *)
Definition inode_read_iter (malloc_ok : bool) (inode : inode_ptr)
    (st : rw_state) (w : world) : outcome (flow (rw_state * world)) :=
  (* Disk sector to read, starting byte offset within sector. *)
  sector_idx ← byte_to_sector inode (rw_offset st) w;
  let sector_ofs := Z.rem (rw_offset st) DISK_SECTOR_SIZE in
  (* Bytes left in inode, bytes left in sector, lesser of the two. *)
  len ← inode_length inode w;
  inode_left ← int32 (len - rw_offset st);
  sector_left ← int32 (DISK_SECTOR_SIZE - sector_ofs);
  let min_left :=
    if inode_left <? sector_left then inode_left else sector_left in
  (* Number of bytes to actually copy out of this sector. *)
  let chunk_size := if rw_size st <? min_left then rw_size st else min_left in
  if chunk_size <=? 0 then Ok (Break (st, w))
  else if (sector_ofs =? 0) && (chunk_size =? DISK_SECTOR_SIZE) then
    (* Read full sector directly into caller's buffer. *)
    let '(buf, w) := disk_read sector_idx w in
    buffer ← mem_store (rw_buffer st) (rw_bytes st) buf;
    st ← advance buffer (rw_bounce st) chunk_size st;
    Ok (Continue (st, w))
  else if negb (rw_bounce st) && negb malloc_ok then Ok (Break (st, w))
  else
    (* Read sector into bounce buffer, then partially copy into caller's
       buffer. *)
    let '(bounce, w) := disk_read sector_idx w in
    piece ← mem_load bounce sector_ofs chunk_size;
    buffer ← mem_store (rw_buffer st) (rw_bytes st) piece;
    st ← advance buffer true chunk_size st;
    Ok (Continue (st, w)).

(** [while (size > 0)]; every pass that continues makes SIZE smaller, so
    SIZE passes are enough. *)
Fixpoint inode_read_loop (fuel : nat) (malloc_ok : bool) (inode : inode_ptr)
    (st : rw_state) (w : world) : outcome (rw_state * world) :=
  if 0 <? rw_size st then
    match fuel with
    | O => OutOfFuel
    | S fuel =>
        r ← inode_read_iter malloc_ok inode st w;
        match r with
        | Continue (st, w) => inode_read_loop fuel malloc_ok inode st w
        | Break (st, w) => Ok (st, w)
        end
    end
  else Ok (st, w).

(** Reads SIZE bytes from INODE into BUFFER, starting at position OFFSET.
    Returns the number of bytes actually read, which may be less than SIZE
    if an error occurs or end of file is reached.  The result is the number
    returned, the object BUFFER points into, and the new state. *)
Definition inode_read_at (malloc_ok : bool) (inode : inode_ptr)
    (buffer : list byte) (size offset : Z) (w : world)
  : outcome (Z * list byte * world) :=
  '(st, w) ← inode_read_loop (Z.to_nat size) malloc_ok inode
                (mkRw buffer size offset 0 false) w;
  Ok (rw_bytes st, rw_buffer st, w).

(** One pass through the body of the loop of [inode_write_at]. *)
Definition inode_write_iter (malloc_ok : bool) (inode : inode_ptr)
    (st : rw_state) (w : world) : outcome (flow (rw_state * world)) :=
  (* Sector to write, starting byte offset within sector. *)
  sector_idx ← byte_to_sector inode (rw_offset st) w;
  let sector_ofs := Z.rem (rw_offset st) DISK_SECTOR_SIZE in
  (* Bytes left in inode, bytes left in sector, lesser of the two. *)
  len ← inode_length inode w;
  inode_left ← int32 (len - rw_offset st);
  sector_left ← int32 (DISK_SECTOR_SIZE - sector_ofs);
  let min_left :=
    if inode_left <? sector_left then inode_left else sector_left in
  (* Number of bytes to actually write into this sector. *)
  let chunk_size := if rw_size st <? min_left then rw_size st else min_left in
  if chunk_size <=? 0 then Ok (Break (st, w))
  else if (sector_ofs =? 0) && (chunk_size =? DISK_SECTOR_SIZE) then
    (* Write full sector directly to disk. *)
    buf ← mem_load (rw_buffer st) (rw_bytes st) DISK_SECTOR_SIZE;
    let w := disk_write sector_idx buf w in
    st ← advance (rw_buffer st) (rw_bounce st) chunk_size st;
    Ok (Continue (st, w))
  else if negb (rw_bounce st) && negb malloc_ok then Ok (Break (st, w))
  else
    (* If the sector contains data before or after the chunk we're writing,
       then we need to read in the sector first.  Otherwise we start with a
       sector of all zeros. *)
    let '(bounce, w) :=
      if (0 <? sector_ofs) || (chunk_size <? sector_left)
      then disk_read sector_idx w
      else (zeros, w) in
    src ← mem_load (rw_buffer st) (rw_bytes st) chunk_size;
    bounce ← mem_store bounce sector_ofs src;
    let w := disk_write sector_idx bounce w in
    st ← advance (rw_buffer st) true chunk_size st;
    Ok (Continue (st, w)).

Fixpoint inode_write_loop (fuel : nat) (malloc_ok : bool) (inode : inode_ptr)
    (st : rw_state) (w : world) : outcome (rw_state * world) :=
  if 0 <? rw_size st then
    match fuel with
    | O => OutOfFuel
    | S fuel =>
        r ← inode_write_iter malloc_ok inode st w;
        match r with
        | Continue (st, w) => inode_write_loop fuel malloc_ok inode st w
        | Break (st, w) => Ok (st, w)
        end
    end
  else Ok (st, w).

(** Writes SIZE bytes from BUFFER into INODE, starting at OFFSET.  Returns
    the number of bytes actually written, which may be less than SIZE if end
    of file is reached or an error occurs.  (Normally a write at end of file
    would extend the inode, but growth is not yet implemented.) *)
Definition inode_write_at (malloc_ok : bool) (inode : inode_ptr)
    (buffer : list byte) (size offset : Z) (w : world)
  : outcome (Z * world) :=
  '(st, w) ← inode_write_loop (Z.to_nat size) malloc_ok inode
                (mkRw buffer size offset 0 false) w;
  Ok (rw_bytes st, w).

End Inode.

Arguments world : clear implicits.
Arguments world FM : assert.


(** * The system call handler (src/userprog/syscall.c)

    A shallow embedding of [syscall_handler].  The handler is given the
    interrupt frame [f]; it reads the system call number and the arguments
    from the words at [f->esp], and leaves its result in [f->eax].  It
    checks none of the addresses it uses. *)

From Stdlib Require Strings.String.

Section Syscall.
Import String.

(** What [printf] and [putbuf] of <stdio.h> have been called with, in the
    order of the calls.  Modelled from the source's calls alone: neither
    function is among the sources; [putbuf (buffer, n)] is given the [n]
    bytes at [buffer]. *)
Inductive console_event :=
| Printf (format : string) (args : list Z)
| Putbuf (bytes : list byte).

(** The state the handler works on: the memory, the register slot
    [f->eax] of the interrupt frame, which is a [uint32_t], the calls to
    the console, and the keys that [input_getc] of devices/input.h has yet
    to return, first key first.  The memory holds the bytes that the
    pointers of the handler can reach, by address.  An address that is not
    in the map is not mapped: the handler does not check its pointers, and
    an access to such an address leaves the model. *)
Record machine := mkMachine {
  user_mem : gmap Z byte;
  frame_eax : Z;
  console : list console_event;
  keyboard : list byte;
}.

Definition set_user_mem (m : gmap Z byte) (st : machine) : machine :=
  mkMachine m (frame_eax st) (console st) (keyboard st).
Definition set_frame_eax (v : Z) (st : machine) : machine :=
  mkMachine (user_mem st) v (console st) (keyboard st).
Definition set_keyboard (ks : list byte) (st : machine) : machine :=
  mkMachine (user_mem st) (frame_eax st) (console st) ks.

Definition printf (format : string) (args : list Z) (st : machine)
  : machine :=
  mkMachine (user_mem st) (frame_eax st) (console st ++ [Printf format args])
    (keyboard st).

Definition putbuf (bytes : list byte) (st : machine) : machine :=
  mkMachine (user_mem st) (frame_eax st) (console st ++ [Putbuf bytes])
    (keyboard st).

(** How a call of the handler ends: it returns to the interrupt stub, or
    it is in one of the calls that do not return, [power_off] of
    threads/init.h and [thread_exit] of threads/thread.h, or it sits in
    [input_getc], which waits until there is a key. *)
Inductive ending :=
| Returns
| PowersOff
| ExitsThread
| WaitsForKey.

(** The system call numbers of <syscall-nr.h> and the file descriptors of
    <stdio.h> that the handler names; neither header is among the
    sources. *)
Class Numbers := {
  SYS_HALT : Z;
  SYS_EXIT : Z;
  SYS_READ : Z;
  SYS_WRITE : Z;
  SYS_OPEN : Z;
  STDIN_FILENO : Z;
  STDOUT_FILENO : Z;
}.

Context `{!Numbers}.

(** [*(char * ) a] *)
Definition load8 (m : gmap Z byte) (a : Z) : outcome byte :=
  match m !! a with Some b => Ok b | None => Undef end.

(** [*(char * ) a = b] *)
Definition store8 (m : gmap Z byte) (a : Z) (b : byte) : outcome (gmap Z byte) :=
  match m !! a with Some _ => Ok (<[a := b]> m) | None => Undef end.

(** [*(int32_t * ) a] *)
Definition load32 (m : gmap Z byte) (a : Z) : outcome Z :=
  b0 ← load8 m a;
  b1 ← load8 m (a + 1);
  b2 ← load8 m (a + 2);
  b3 ← load8 m (a + 3);
  Ok (to_signed (Z_of_byte b0 + 2 ^ 8 * Z_of_byte b1 + 2 ^ 16 * Z_of_byte b2
                 + 2 ^ 24 * Z_of_byte b3)).

(** The [n] bytes at [a]. *)
Fixpoint load_bytes (m : gmap Z byte) (a : Z) (n : nat) : outcome (list byte) :=
  match n with
  | O => Ok []
  | S n => b ← load8 m a; l ← load_bytes m (a + 1) n; Ok (b :: l)
  end.

(** [esp[k]], with [int32_t* esp = (int32_t* )f->esp]. *)
Definition esp_at (esp k : Z) (st : machine) : outcome Z :=
  load32 (user_mem st) (esp + 4 * k).

(** This array defined the number of arguments each syscall expects. *)
Definition argc : list Z :=
  (* basic calls *)
  [0; 1; 1; 1; 2; 1; 1; 1; 3; 3; 2; 1; 1;
  (* not implemented *)
   2; 1; 1; 1; 2; 1; 1;
  (* extended *)
   0].

(** [argc[k]] *)
Definition argc_at (k : Z) : outcome Z :=
  if (0 <=? k) && (k <? Z.of_nat (List.length argc))
  then Ok (nth (Z.to_nat k) argc 0)
  else Undef.

(** The loop of SYS_READ.  Every pass takes one key, so the loop is defined
    by recursion on the keys there are; [esp[3]] is read again in every
    pass, as the stores of the loop may change it. *)
Fixpoint sys_read_loop (esp buff : Z) (ks : list byte) (counter : Z)
    (st : machine) : outcome (ending * machine) :=
  size ← esp_at esp 3 st;
  if counter <? size then
    match ks with
    | [] => Ok (WaitsForKey, st)
    | c :: ks =>
        let st := set_keyboard ks st in
        let c := if Byte.eqb c x0d then x0a else c in
        m ← store8 (user_mem st) (buff + counter) c;
        let st := set_user_mem m st in
        let st := putbuf [c] st in
        counter ← int32 (counter + 1);
        sys_read_loop esp buff ks counter st
    end
  else Ok (Returns, set_frame_eax (uint32 counter) st).

Definition syscall_handler (esp : Z) (st : machine)
  : outcome (ending * machine) :=
  nr ← esp_at esp 0 st;
  sys_read_arg_count ← argc_at nr;
  nr ← esp_at esp 0 st; (* retrive syscall number *)
  if nr =? SYS_HALT then
    let st := printf "LOG [DEBUG]: in SYS_HALT\n" [] st in
    Ok (PowersOff, st)
  else if nr =? SYS_EXIT then
    let st := printf "LOG [DEBUG]: in SYS_EXIT\n" [] st in
    status ← esp_at esp 1 st;
    let st := printf "LOG [DEBIG]: argument: %i\n" [status] st in
    Ok (ExitsThread, st)
  else if nr =? SYS_READ then
    buff ← esp_at esp 2 st;
    fd ← esp_at esp 1 st;
    if negb (fd =? STDIN_FILENO) then
      Ok (Returns, set_frame_eax (uint32 (-1)) st)
    else sys_read_loop esp (uint32 buff) (keyboard st) 0 st
  else if nr =? SYS_WRITE then
    fd ← esp_at esp 1 st;
    if negb (fd =? STDOUT_FILENO) then
      Ok (Returns, set_frame_eax (uint32 (-1)) st)
    else
      buffer ← esp_at esp 2 st;
      n ← esp_at esp 3 st;
      bytes ← load_bytes (user_mem st) (uint32 buffer) (Z.to_nat (uint32 n));
      let st := putbuf bytes st in
      size ← esp_at esp 3 st;
      Ok (Returns, set_frame_eax (uint32 size) st)
  else if nr =? SYS_OPEN then
    file ← esp_at esp 1 st;
    Ok (Returns, st)
  else
    let st := printf "Executed an unknown system call!\n" [] st in
    top0 ← esp_at esp 0 st;
    let st := printf "Stack top + 0: %d\n" [top0] st in
    top1 ← esp_at esp 1 st;
    let st := printf "Stack top + 1: %d\n" [top1] st in
    Ok (ExitsThread, st).

End Syscall.
(** * Vocabulary of the properties *)

#[global] Instance byte_eq_dec : EqDecision byte := Byte.byte_eq_dec.

#[global] Instance lock_eq_dec : EqDecision lock.
Proof. solve_decision. Defined.

Definition slice (l : list byte) (pos n : Z) : list byte :=
  take (Z.to_nat n) (drop (Z.to_nat pos) l).

Definition splice (l : list byte) (pos : Z) (src : list byte) : list byte :=
  take (Z.to_nat pos) l ++ src ++ drop (Z.to_nat pos + length src)%nat l.


(** The number of bytes one pass of the read or write loop transfers: the
    least of the bytes requested, the bytes left in the inode and the bytes
    left in the sector. *)
Definition chunk_of (len size offset : Z) : Z :=
  Z.min size
    (Z.min (len - offset) (DISK_SECTOR_SIZE - offset mod DISK_SECTOR_SIZE)).

(** The number of bytes a whole call transfers when nothing fails. *)
Definition transferred (len size offset : Z) : Z :=
  Z.min size (Z.max 0 (len - offset)).

(** The sector that holds byte [p] of the file described by [d]. *)
Definition sector_of (d : inode_disk.t) (p : Z) : Z :=
  uint32 (inode_disk.start d + p / DISK_SECTOR_SIZE).

(** Byte [p] of the file described by [d], on [disk]. *)
Definition file_byte (disk : Z -> sector_data) (d : inode_disk.t) (p : Z)
  : byte :=
  nth (Z.to_nat (p mod DISK_SECTOR_SIZE)) (disk (sector_of d p)) x00.

(** Bytes [off], ..., [off + n - 1] of the file. *)
Definition file_range (disk : Z -> sector_data) (d : inode_disk.t)
    (off n : Z) : list byte :=
  map (file_byte disk d) (seqZ off n).

(** Every sector of the disk holds DISK_SECTOR_SIZE bytes. *)
Definition disk_wf (disk : Z -> sector_data) : Prop :=
  forall s, Z.of_nat (length (disk s)) = DISK_SECTOR_SIZE.

(** [sec] is one of the data sectors of the file described by [d]: one of
    the [bytes_to_sectors length] sectors from [start] on. *)
Definition in_file (d : inode_disk.t) (sec : Z) : Prop :=
  exists k, 0 <= k < bytes_to_sectors (inode_disk.length d)
            /\ sec = uint32 (inode_disk.start d + k).

(** A pass of the write loop handles a partial sector when it transfers
    something and not a whole aligned sector. *)
Definition partial_sector (len size offset : Z) : bool :=
  (0 <? chunk_of len size offset)
  && negb ((offset mod DISK_SECTOR_SIZE =? 0)
           && (chunk_of len size offset =? DISK_SECTOR_SIZE)).

(** The condition on which the specification has the bounce buffer filled
    with zeros: "it starts at offset 0 within the sector and extends to or
    past the end of the file-relevant data in that sector", the
    file-relevant data ending where the file or the sector ends. *)
Definition spec_zero_fills (len size offset : Z) : bool :=
  (offset mod DISK_SECTOR_SIZE =? 0)
  && (Z.min (len - offset)
        (DISK_SECTOR_SIZE - offset mod DISK_SECTOR_SIZE)
      <=? chunk_of len size offset).

(** The condition on which [inode_write_at] fills the bounce buffer with
    zeros: neither [sector_ofs > 0] nor [chunk_size < sector_left]. *)
Definition code_zero_fills (len size offset : Z) : bool :=
  negb ((0 <? offset mod DISK_SECTOR_SIZE)
        || (chunk_of len size offset
            <? DISK_SECTOR_SIZE - offset mod DISK_SECTOR_SIZE)).

(** The sector a disk access is made to. *)
Definition event_sector (e : event) : option Z :=
  match e with
  | EvDiskRead s | EvDiskWrite s _ => Some s
  | _ => None
  end.

Definition is_disk_read (e : event) : bool :=
  match e with EvDiskRead _ => true | _ => false end.

(** The types of the C fields of an inode: [off_t length] that is not
    negative. *)
Definition length_ok (d : inode_disk.t) : Prop :=
  0 <= inode_disk.length d < 2 ^ 31.

Section Vocabulary.
Context {FM : Type}.

(** [w] after the calls [evs] have been logged. *)
Definition logs (evs : list event) (w : world FM) : world FM :=
  mkWorld (filesys_disk w) (free_map w) (io_log w ++ evs) (heap w)
    (open_inodes w) (inode_list_lock w).

(** [w] with the disk contents [d] after the calls [evs] have been logged. *)
Definition with_disk (d : Z -> sector_data) (evs : list event) (w : world FM)
  : world FM :=
  mkWorld d (free_map w) (io_log w ++ evs) (heap w) (open_inodes w)
    (inode_list_lock w).

(** [inode] points to the live object [i]. *)
Definition points_to (w : world FM) (inode : inode_ptr) (i : inode.t)
  : Prop :=
  exists a, inode = Some a /\ heap w !! a = Some i.

End Vocabulary.

(** ** Creation *)

Section CreateVocabulary.
Context {FM : Type}.

(** The loop of [inode_create] that clears the data sectors. *)
Definition clear_sectors (first : Z) (l : list Z) (w : world FM) : world FM :=
  foldl (fun w i => disk_write (uint32 (first + i)) zeros w) w l.

(** The descriptor that [inode_create] builds. *)
Definition created (first length : Z) : inode_disk.t :=
  inode_disk.mk (uint32 first) length INODE_MAGIC (replicate 125%nat 0).

(** The state that a successful [inode_create] leaves. *)
Definition create_done (sector length first : Z) (fm : FM) (w : world FM)
  : world FM :=
  clear_sectors (uint32 first) (seqZ 0 (bytes_to_sectors length))
    (disk_write sector (inode_disk.encode (created first length))
       (log (EvAllocate (bytes_to_sectors length)) (set_free_map fm w))).

End CreateVocabulary.

(** ** States used to run the functions on concrete inputs *)

(** An allocator that hands out the sectors below 64 in increasing order and
    never takes one back. *)
#[global] Instance bump_allocator : Allocator Z := {|
  free_map_allocate cnt next :=
    if next + cnt <=? 64 then Some (next, next + cnt) else None;
  free_map_release _ _ next := next;
|}.

(** A file of 1000 bytes in the sectors 10 and 11, its inode at sector 7,
    opened once. *)
Definition example_inode : inode.t :=
  inode.mk 7 1 false (inode_disk.mk 10 1000 INODE_MAGIC (replicate 125%nat 0))
    LockFree LockUninit.

Definition example_world : world Z :=
  mkWorld (fun _ => zeros) 12 [] {[1%positive := example_inode]} [1%positive]
    LockFree.

(** A file of 100 bytes in sector 10, its inode at sector 7, opened once. *)
Definition small_inode : inode.t :=
  inode.mk 7 1 false (inode_disk.mk 10 100 INODE_MAGIC (replicate 125%nat 0))
    LockFree LockUninit.

Definition small_world : world Z :=
  mkWorld (fun _ => zeros) 11 [] {[1%positive := small_inode]} [1%positive]
    LockFree.

(** A state with nothing open, after [inode_init]. *)
Definition initial_world : world Z :=
  mkWorld (fun _ => zeros) 8 [] ∅ [] LockFree.

(** ** The registry of open inodes *)

Section Registry.
Context {FM : Type} `{!Allocator FM}.

(** [*a = i] *)
Definition put (a : addr) (i : inode.t) (w : world FM) : world FM :=
  set_heap (<[a := i]> (heap w)) w.

(** A result of one pass of a loop, with [*a = i] done in its state. *)
Definition flow_put (a : addr) (i : inode.t) (r : flow (rw_state * world FM))
  : flow (rw_state * world FM) :=
  match r with
  | Continue (st, w) => Continue (st, put a i w)
  | Break (st, w) => Break (st, put a i w)
  end.

Definition flow_world (r : flow (rw_state * world FM)) : world FM :=
  match r with Continue (_, w) | Break (_, w) => w end.

(** What the module maintains about [open_inodes]: the list lock is free
    between calls; an inode is on the list once; every inode on the list is
    allocated, has at least one opener and a free lock; and no two inodes on
    the list are for the same sector. *)
Record registry_ok (w : world FM) : Prop := {
  reg_list_lock : inode_list_lock w = LockFree;
  reg_nodup : NoDup (open_inodes w);
  reg_live : forall a, a ∈ open_inodes w ->
    exists i, heap w !! a = Some i /\ 1 <= inode.open_cnt i
              /\ inode.inode_lock i = LockFree;
  reg_unique : forall a b i j, a ∈ open_inodes w -> b ∈ open_inodes w ->
    heap w !! a = Some i -> heap w !! b = Some j ->
    inode.sector i = inode.sector j -> a = b;
}.

(** No inode on the list is for [sector]. *)
Definition not_open (sector : Z) (w : world FM) : Prop :=
  forall a i, a ∈ open_inodes w -> heap w !! a = Some i ->
    inode.sector i <> sector.

(** The calls that change the registry. *)
Inductive op :=
| OpOpen (malloc_ok : bool) (sector : Z)
| OpReopen (inode : inode_ptr)
| OpClose (inode : inode_ptr).

Definition run_op (o : op) (w : world FM) : outcome (world FM) :=
  match o with
  | OpOpen malloc_ok sector => '(_, w) ← inode_open malloc_ok sector w; Ok w
  | OpReopen inode => '(_, w) ← inode_reopen inode w; Ok w
  | OpClose inode => inode_close inode w
  end.

Fixpoint run (ops : list op) (w : world FM) : outcome (world FM) :=
  match ops with
  | [] => Ok w
  | o :: ops => w ← run_op o w; run ops w
  end.

(** The inode that [inode_open] builds for [sector] in [w]. *)
Definition opened (sector : Z) (w : world FM) : inode.t :=
  inode.mk sector 1 false (inode_disk.decode (filesys_disk w sector))
    LockFree LockUninit.

(** [w] after [inode_open] has built a new inode for [sector]. *)
Definition open_new (sector : Z) (w : world FM) : world FM :=
  let a := fresh (dom (heap w)) in
  log (EvDiskRead sector)
    (set_open_inodes (a :: open_inodes w) (put a (opened sector w) w)).

(** [w] after the last opener of [a], which holds [i], has closed it. *)
Definition closed_last (a : addr) (i : inode.t) (w : world FM) : world FM :=
  let w := set_open_inodes (filter (fun e => e ≠ a) (open_inodes w)) w in
  let w :=
    if inode.removed i then
      release (inode_disk.start (inode.data i))
        (bytes_to_sectors (inode_disk.length (inode.data i)))
        (release (inode.sector i) 1 w)
    else w in
  set_heap (delete a (heap w)) w.

End Registry.

(** ** Further vocabulary *)

(** The bytes [inode_read_at] and [inode_write_at] transfer when the bounce
    buffer cannot be allocated: the whole sectors at the start of the
    range, and nothing when the range does not start on a sector
    boundary. *)
Definition transferred_whole (len size offset : Z) : Z :=
  if offset mod DISK_SECTOR_SIZE =? 0
  then DISK_SECTOR_SIZE * (transferred len size offset / DISK_SECTOR_SIZE)
  else 0.

Definition is_read_or_release (e : event) : bool :=
  match e with
  | EvDiskRead _ | EvRelease _ _ => true
  | _ => false
  end.

(** The values that the fields of a [struct inode_disk] can hold. *)
Definition inode_disk_ok (d : inode_disk.t) : Prop :=
  0 <= inode_disk.start d < 2 ^ 32
  /\ - 2 ^ 31 <= inode_disk.length d < 2 ^ 31
  /\ 0 <= inode_disk.magic d < 2 ^ 32
  /\ length (inode_disk.unused d) = 125%nat
  /\ Forall (fun x => 0 <= x < 2 ^ 32) (inode_disk.unused d).

(** The file of 1000 bytes of [example_world], with its descriptor in
    sector 7 of the disk. *)
Definition stored_world : world Z :=
  mkWorld
    (<[7 := inode_disk.encode (inode.data example_inode)]> (fun _ => zeros))
    12 [] {[1%positive := example_inode]} [1%positive] LockFree.

(** What SYS_READ makes of a key: a carriage return becomes a newline. *)
Definition newline (c : byte) : byte := if Byte.eqb c x0d then x0a else c.

(** ** Machines used to run the system call handler *)

(** The numbers that the headers of Pintos give the names. *)
Definition pintos_numbers : Numbers := {|
  SYS_HALT := 0;
  SYS_EXIT := 1;
  SYS_READ := 8;
  SYS_WRITE := 9;
  SYS_OPEN := 6;
  STDIN_FILENO := 0;
  STDOUT_FILENO := 1;
|}.

(** [m] with the bytes [l] mapped at [a]. *)
Definition poke (a : Z) (l : list byte) (m : gmap Z byte) : gmap Z byte :=
  foldr (fun '(k, b) m => <[a + k := b]> m) m
    (zip (seqZ 0 (Z.of_nat (length l))) l).

(** A machine whose stack, at address 1000, holds the words [ws], with the
    four bytes "hi\n" and 0 at address 2000 and the keys [ks] typed. *)
Definition example_machine (ws : list Z) (ks : list byte) : machine :=
  mkMachine
    (poke 1000 (concat (map le32 ws)) (poke 2000 [x68; x69; x0a; x00] ∅))
    0 [] ks.
(** * Properties *)

(** ** Running the monad *)

Lemma bind_Ok {A B} (a : A) (f : A -> outcome B) : (Ok a ≫= f) = f a.
Proof. reflexivity. Qed.

Lemma bind_Ok_inv {A B} (m : outcome A) (f : A -> outcome B) (b : B) :
  m ≫= f = Ok b -> exists a, m = Ok a /\ f a = Ok b.
Proof. destruct m; try discriminate. intros H. by exists a. Qed.

Lemma int32_in_range z : - 2 ^ 31 <= z < 2 ^ 31 -> int32 z = Ok z.
Proof.
  intros Hz. unfold int32.
  destruct (Z.leb_spec (- 2 ^ 31) z), (Z.ltb_spec z (2 ^ 31)); simpl;
    first [reflexivity | lia].
Qed.

Lemma int32_Ok z v : int32 z = Ok v -> v = z /\ - 2 ^ 31 <= z < 2 ^ 31.
Proof.
  unfold int32.
  destruct (Z.leb_spec (- 2 ^ 31) z), (Z.ltb_spec z (2 ^ 31)); simpl;
    intros Hv; inversion Hv; lia.
Qed.

(** ** Sectors of a file *)

(** Sector numbers wrap, but a file has fewer than [2 ^ 32] sectors, so its
    sectors are pairwise distinct. *)
Lemma uint32_add_inj s k1 k2 :
  0 <= k1 < 2 ^ 32 -> 0 <= k2 < 2 ^ 32 ->
  uint32 (s + k1) = uint32 (s + k2) -> k1 = k2.
Proof.
  unfold uint32. intros H1 H2 Heq.
  assert (Hd : (s + k1 - (s + k2)) mod 2 ^ 32 = 0).
  { rewrite Zminus_mod, Heq, Z.sub_diag. reflexivity. }
  replace (s + k1 - (s + k2)) with (k1 - k2) in Hd by lia.
  apply Z.mod_divide in Hd; [|lia].
  destruct Hd as [c Hc]. nia.
Qed.

Lemma uint32_range z : 0 <= uint32 z < 2 ^ 32.
Proof. unfold uint32. apply Z.mod_pos_bound. lia. Qed.

Lemma uint32_small z : 0 <= z < 2 ^ 32 -> uint32 z = z.
Proof. unfold uint32. apply Z.mod_small. Qed.

Lemma DIV_ROUND_UP_ceil x :
  let n := DIV_ROUND_UP x DISK_SECTOR_SIZE in
  DISK_SECTOR_SIZE * (n - 1) < x <= DISK_SECTOR_SIZE * n.
Proof.
  unfold DIV_ROUND_UP, DISK_SECTOR_SIZE. cbv zeta.
  pose proof (Z.div_mod (x + 512 - 1) 512 ltac:(lia)) as Hd.
  pose proof (Z.mod_pos_bound (x + 512 - 1) 512 ltac:(lia)) as Hm.
  lia.
Qed.

Lemma bytes_to_sectors_ceil size :
  0 <= size < 2 ^ 31 ->
  DISK_SECTOR_SIZE * (bytes_to_sectors size - 1) < size
    <= DISK_SECTOR_SIZE * bytes_to_sectors size.
Proof.
  intros Hs. unfold bytes_to_sectors.
  pose proof (DIV_ROUND_UP_ceil size) as Hc. simpl in Hc.
  rewrite uint32_small; [exact Hc|].
  unfold DISK_SECTOR_SIZE in *. lia.
Qed.

Lemma bytes_to_sectors_bound size :
  0 <= size < 2 ^ 31 -> 0 <= bytes_to_sectors size <= 2 ^ 22.
Proof.
  intros Hs. pose proof (bytes_to_sectors_ceil size Hs) as Hc.
  unfold DISK_SECTOR_SIZE in Hc. lia.
Qed.

(** ** Slices of memory objects *)

Lemma mem_load_slice obj pos n :
  0 <= pos -> 0 <= n -> pos + n <= Z.of_nat (length obj) ->
  mem_load obj pos n = Ok (slice obj pos n).
Proof.
  intros H1 H2 H3. unfold mem_load, slice.
  destruct (Z.leb_spec 0 pos), (Z.leb_spec 0 n),
    (Z.leb_spec (pos + n) (Z.of_nat (length obj))); simpl;
    first [reflexivity | lia].
Qed.

Lemma mem_store_splice obj pos src :
  0 <= pos -> pos + Z.of_nat (length src) <= Z.of_nat (length obj) ->
  mem_store obj pos src = Ok (splice obj pos src).
Proof.
  intros H1 H2. unfold mem_store, splice.
  destruct (Z.leb_spec 0 pos),
    (Z.leb_spec (pos + Z.of_nat (length src)) (Z.of_nat (length obj)));
    simpl; first [reflexivity | lia].
Qed.

Lemma length_slice l pos n :
  0 <= pos -> 0 <= n -> pos + n <= Z.of_nat (length l) ->
  Z.of_nat (length (slice l pos n)) = n.
Proof.
  intros. unfold slice. rewrite length_take, length_drop. lia.
Qed.

Lemma length_splice l pos src :
  0 <= pos -> pos + Z.of_nat (length src) <= Z.of_nat (length l) ->
  length (splice l pos src) = length l.
Proof.
  intros. unfold splice.
  rewrite !length_app, length_take, length_drop. lia.
Qed.

Lemma nth_slice l pos n i :
  0 <= pos -> (i < Z.to_nat n)%nat ->
  nth i (slice l pos n) x00 = nth (Z.to_nat pos + i) l x00.
Proof.
  intros Hp Hi. unfold slice.
  rewrite nth_firstn.
  destruct (Nat.ltb_spec i (Z.to_nat n)); [|lia].
  by rewrite nth_skipn.
Qed.

Lemma nth_splice l pos src i :
  0 <= pos -> pos + Z.of_nat (length src) <= Z.of_nat (length l) ->
  nth i (splice l pos src) x00 =
    if decide (Z.to_nat pos <= i < Z.to_nat pos + length src)%nat
    then nth (i - Z.to_nat pos) src x00
    else nth i l x00.
Proof.
  intros Hp Hl. unfold splice.
  destruct (decide (i < Z.to_nat pos)%nat) as [Hlt|Hge].
  - rewrite app_nth1 by (rewrite length_take; lia).
    rewrite nth_firstn. destruct (Nat.ltb_spec i (Z.to_nat pos)); [|lia].
    destruct (decide _); [lia | reflexivity].
  - rewrite app_nth2 by (rewrite length_take; lia).
    rewrite length_take, Nat.min_l by lia.
    destruct (decide (i - Z.to_nat pos < length src)%nat) as [Hin|Hout].
    + rewrite app_nth1 by lia. destruct (decide _); [reflexivity | lia].
    + rewrite app_nth2 by lia. rewrite nth_skipn.
      destruct (decide _); [lia|]. f_equal. lia.
Qed.

Lemma splice_nil l pos : splice l pos [] = l.
Proof.
  unfold splice. simpl. rewrite Nat.add_0_r. apply take_drop.
Qed.

Lemma splice_app l pos a b :
  0 <= pos ->
  pos + Z.of_nat (length a) + Z.of_nat (length b) <= Z.of_nat (length l) ->
  splice (splice l pos a) (pos + Z.of_nat (length a)) b
  = splice l pos (a ++ b).
Proof.
  intros Hp Hl.
  assert (Hla : length (splice l pos a) = length l)
    by (apply length_splice; lia).
  assert (Hlab : length (a ++ b) = (length a + length b)%nat)
    by apply length_app.
  apply (nth_ext _ _ x00 x00).
  - rewrite !length_splice; lia.
  - intros n _.
    rewrite (nth_splice (splice l pos a)) by lia.
    rewrite (nth_splice l pos (a ++ b)) by lia.
    rewrite (nth_splice l pos a) by lia.
    rewrite Hlab.
    repeat destruct (decide _); try lia.
    + rewrite app_nth2 by lia. f_equal. lia.
    + rewrite app_nth1 by lia. reflexivity.
    + reflexivity.
Qed.

(** ** The bytes of a file *)

Lemma nth_file_range disk d off n i :
  (i < Z.to_nat n)%nat ->
  nth i (file_range disk d off n) x00 = file_byte disk d (off + Z.of_nat i).
Proof.
  intros Hi. unfold file_range.
  apply nth_lookup_Some.
  rewrite list_lookup_fmap, lookup_seqZ_lt by lia. reflexivity.
Qed.

Lemma length_file_range disk d off n :
  length (file_range disk d off n) = Z.to_nat n.
Proof. unfold file_range. by rewrite length_map, length_seqZ. Qed.

Lemma file_range_app disk d off n1 n2 :
  0 <= n1 -> 0 <= n2 ->
  file_range disk d off (n1 + n2)
  = file_range disk d off n1 ++ file_range disk d (off + n1) n2.
Proof.
  intros H1 H2. unfold file_range.
  rewrite seqZ_app by lia. apply map_app.
Qed.

Lemma same_sector offset j :
  0 <= offset -> 0 <= j < DISK_SECTOR_SIZE - offset mod DISK_SECTOR_SIZE ->
  (offset + j) / DISK_SECTOR_SIZE = offset / DISK_SECTOR_SIZE
  /\ (offset + j) mod DISK_SECTOR_SIZE = offset mod DISK_SECTOR_SIZE + j.
Proof.
  unfold DISK_SECTOR_SIZE. intros Ho Hj.
  pose proof (Z.div_mod offset 512 ltac:(lia)) as Hd.
  pose proof (Z.mod_pos_bound offset 512 ltac:(lia)) as Hm.
  assert (Heq : offset + j = (offset / 512) * 512 + (offset mod 512 + j))
    by lia.
  split.
  - rewrite Heq, Z.div_add_l by lia.
    rewrite (Z.div_small (offset mod 512 + j)) by lia. lia.
  - rewrite Heq, Z.add_comm, Z.mod_add by lia.
    apply Z.mod_small. lia.
Qed.

(** The part of a sector that a pass of the read loop copies out is the
    part of the file at the current offset. *)
Lemma slice_file_range disk d offset chunk :
  disk_wf disk -> 0 <= offset -> 0 <= chunk ->
  chunk <= DISK_SECTOR_SIZE - offset mod DISK_SECTOR_SIZE ->
  slice (disk (sector_of d offset)) (offset mod DISK_SECTOR_SIZE) chunk
  = file_range disk d offset chunk.
Proof.
  intros Hwf Ho Hc Hle.
  pose proof (Hwf (sector_of d offset)) as Hlen.
  assert (Hm : 0 <= offset mod DISK_SECTOR_SIZE < DISK_SECTOR_SIZE)
    by (apply Z.mod_pos_bound; unfold DISK_SECTOR_SIZE; lia).
  apply (nth_ext _ _ x00 x00).
  - rewrite length_file_range.
    pose proof (length_slice (disk (sector_of d offset))
                  (offset mod DISK_SECTOR_SIZE) chunk) as Hl. lia.
  - intros n Hn.
    assert (Hn' : (n < Z.to_nat chunk)%nat).
    { pose proof (length_slice (disk (sector_of d offset))
                    (offset mod DISK_SECTOR_SIZE) chunk) as Hl. lia. }
    rewrite nth_slice, nth_file_range by lia.
    unfold file_byte, sector_of.
    destruct (same_sector offset (Z.of_nat n)) as [Hq Hr]; [lia | lia |].
    rewrite Hq, Hr. f_equal. lia.
Qed.

(** The effect on the file of storing a sector in which [src] has replaced
    the bytes from the current offset on. *)
Lemma file_byte_insert disk d offset src p :
  disk_wf disk ->
  0 <= offset < 2 ^ 31 -> 0 <= p < 2 ^ 31 ->
  Z.of_nat (length src) <= DISK_SECTOR_SIZE - offset mod DISK_SECTOR_SIZE ->
  file_byte (<[sector_of d offset :=
                 splice (disk (sector_of d offset))
                   (offset mod DISK_SECTOR_SIZE) src]> disk) d p
  = if decide (offset <= p < offset + Z.of_nat (length src))
    then nth (Z.to_nat (p - offset)) src x00
    else file_byte disk d p.
Proof.
  intros Hwf Ho Hp Hle.
  pose proof (Hwf (sector_of d offset)) as Hlen.
  assert (Hm : 0 <= offset mod DISK_SECTOR_SIZE < DISK_SECTOR_SIZE)
    by (apply Z.mod_pos_bound; unfold DISK_SECTOR_SIZE; lia).
  assert (Hpm : 0 <= p mod DISK_SECTOR_SIZE < DISK_SECTOR_SIZE)
    by (apply Z.mod_pos_bound; unfold DISK_SECTOR_SIZE; lia).
  unfold file_byte.
  destruct (decide (p / DISK_SECTOR_SIZE = offset / DISK_SECTOR_SIZE))
    as [Hsame|Hdiff].
  - assert (Hs : sector_of d p = sector_of d offset)
      by (unfold sector_of; by rewrite Hsame).
    rewrite Hs, fn_lookup_insert.
    rewrite nth_splice by lia.
    assert (Hpo : p - offset = p mod DISK_SECTOR_SIZE
                               - offset mod DISK_SECTOR_SIZE).
    { unfold DISK_SECTOR_SIZE in *.
      pose proof (Z.div_mod p 512 ltac:(lia)).
      pose proof (Z.div_mod offset 512 ltac:(lia)). lia. }
    repeat destruct (decide _); try lia.
    + f_equal. lia.
    + reflexivity.
  - assert (Hs : sector_of d offset <> sector_of d p).
    { unfold sector_of. intros Heq.
      apply uint32_add_inj in Heq; [congruence| |];
        unfold DISK_SECTOR_SIZE in *;
        (split; [apply Z.div_pos; lia
                |apply Z.div_lt_upper_bound; lia]). }
    rewrite fn_lookup_insert_ne by exact Hs.
    destruct (decide _) as [Hin|]; [|reflexivity].
    exfalso. apply Hdiff.
    destruct (same_sector offset (p - offset)) as [Hq _]; [lia | lia |].
    rewrite <- Hq. f_equal. lia.
Qed.

(** A byte inside the file lies in one of the file's sectors. *)
Lemma sector_of_in_file d p :
  length_ok d -> 0 <= p < inode_disk.length d ->
  in_file d (sector_of d p).
Proof.
  intros Hlen Hp. exists (p / DISK_SECTOR_SIZE). split; [|reflexivity].
  pose proof (bytes_to_sectors_ceil _ Hlen) as Hc.
  unfold DISK_SECTOR_SIZE in *.
  split; [apply Z.div_pos; lia|].
  apply Z.div_lt_upper_bound; lia.
Qed.

(** ** One pass of the read and write loops *)

Section ReadWrite.
Context {FM : Type}.
Implicit Types (w : world FM) (i : inode.t) (st : rw_state).

Lemma load_points_to w inode i : points_to w inode i -> load inode w = Ok i.
Proof. intros (a & -> & Ha). unfold load. by rewrite Ha. Qed.

Lemma byte_to_sector_points_to w inode i pos :
  points_to w inode i ->
  byte_to_sector inode pos w =
    Ok (if pos <? inode_disk.length (inode.data i)
        then uint32 (inode_disk.start (inode.data i)
                     + Z.quot pos DISK_SECTOR_SIZE)
        else uint32 (-1)).
Proof.
  intros Hp. unfold byte_to_sector.
  rewrite (load_points_to _ _ _ Hp).
  destruct Hp as (a & -> & _). simpl.
  by destruct (_ <? _).
Qed.

Lemma inode_length_points_to w inode i :
  points_to w inode i ->
  inode_length inode w = Ok (inode_disk.length (inode.data i)).
Proof. intros Hp. unfold inode_length. by rewrite (load_points_to _ _ _ Hp). Qed.

Lemma chunk_of_cases len size offset :
  0 <= offset ->
  let sector_ofs := Z.rem offset DISK_SECTOR_SIZE in
  let inode_left := len - offset in
  let sector_left := DISK_SECTOR_SIZE - sector_ofs in
  let min_left := if inode_left <? sector_left then inode_left else sector_left in
  (if size <? min_left then size else min_left) = chunk_of len size offset.
Proof.
  intros Ho. cbv zeta. unfold chunk_of.
  rewrite Z.rem_mod_nonneg by (unfold DISK_SECTOR_SIZE; lia).
  destruct (Z.ltb_spec (len - offset) (DISK_SECTOR_SIZE - offset mod DISK_SECTOR_SIZE));
  match goal with |- context [?a <? ?b] => destruct (Z.ltb_spec a b) end; lia.
Qed.

Lemma read_iter_eq malloc_ok w inode i buffer size offset bytes bounce :
  points_to w inode i ->
  length_ok (inode.data i) ->
  disk_wf (filesys_disk w) ->
  0 <= offset < 2 ^ 31 -> 0 < size -> 0 <= bytes ->
  bytes + size < 2 ^ 31 ->
  bytes + size <= Z.of_nat (length buffer) ->
  let st := mkRw buffer size offset bytes bounce in
  let chunk := chunk_of (inode_disk.length (inode.data i)) size offset in
  let ofs := offset mod DISK_SECTOR_SIZE in
  let sec := sector_of (inode.data i) offset in
  let full := (ofs =? 0) && (chunk =? DISK_SECTOR_SIZE) in
  inode_read_iter malloc_ok inode st w =
    if chunk <=? 0 then Ok (Break (st, w))
    else if negb full && negb bounce && negb malloc_ok then Ok (Break (st, w))
    else Ok (Continue
               (mkRw (splice buffer bytes (slice (filesys_disk w sec) ofs chunk))
                     (size - chunk) (offset + chunk) (bytes + chunk)
                     (bounce || negb full),
                logs [EvDiskRead sec] w)).
Proof.
  intros Hp Hlen Hwf Ho Hs Hb Hbs Hbuf. cbv zeta.
  unfold inode_read_iter. simpl rw_offset. simpl rw_size. simpl rw_bytes. simpl rw_buffer. simpl rw_bounce.
  rewrite (byte_to_sector_points_to _ _ _ _ Hp), bind_Ok.
  rewrite (inode_length_points_to _ _ _ Hp), bind_Ok.
  unfold length_ok in Hlen.
  set (len := inode_disk.length (inode.data i)) in *.
  assert (Hmod : 0 <= offset mod DISK_SECTOR_SIZE < DISK_SECTOR_SIZE)
    by (apply Z.mod_pos_bound; unfold DISK_SECTOR_SIZE; lia).
  assert (Hrem : Z.rem offset DISK_SECTOR_SIZE = offset mod DISK_SECTOR_SIZE)
    by (apply Z.rem_mod_nonneg; unfold DISK_SECTOR_SIZE; lia).
  rewrite (int32_in_range (len - offset)), bind_Ok by lia.
  rewrite int32_in_range, bind_Ok by (rewrite Hrem; unfold DISK_SECTOR_SIZE in *; lia).
  rewrite (chunk_of_cases len size offset) by lia.
  rewrite Hrem.
  set (chunk := chunk_of len size offset).
  assert (Hchunk : chunk <= size /\ chunk <= len - offset
                   /\ chunk <= DISK_SECTOR_SIZE - offset mod DISK_SECTOR_SIZE)
    by (unfold chunk, chunk_of; lia).
  destruct (Z.leb_spec chunk 0) as [Hc0|Hc0]; [reflexivity|].
  assert (Hlt : (offset <? len) = true) by (apply Z.ltb_lt; lia).
  rewrite Hlt.
  assert (Hsec : uint32 (inode_disk.start (inode.data i) + offset ÷ DISK_SECTOR_SIZE)
                 = sector_of (inode.data i) offset).
  { unfold sector_of. rewrite Z.quot_div_nonneg by (unfold DISK_SECTOR_SIZE; lia). reflexivity. }
  rewrite Hsec. set (sec := sector_of (inode.data i) offset).
  pose proof (Hwf sec) as Hsl.
  destruct ((offset mod DISK_SECTOR_SIZE =? 0) && (chunk =? DISK_SECTOR_SIZE)) eqn:Hfull.
  - apply andb_true_iff in Hfull as [Ho0%Z.eqb_eq Hc512%Z.eqb_eq].
    simpl negb. simpl andb. cbv iota.
    unfold disk_read. 
    assert (Hsl' : slice (filesys_disk w sec) (offset mod DISK_SECTOR_SIZE) chunk = filesys_disk w sec).
    { unfold slice. rewrite Ho0, Hc512. simpl drop.
      apply take_ge. lia. }
    rewrite Hsl'.
    rewrite mem_store_splice, bind_Ok by lia.
    unfold advance. simpl rw_size. simpl rw_offset. simpl rw_bytes.
    rewrite !int32_in_range, !bind_Ok by lia.
    rewrite orb_false_r. reflexivity.
  - simpl negb. rewrite andb_true_l.
    destruct (negb bounce && negb malloc_ok) eqn:Hbm; [reflexivity|].
    unfold disk_read.
    rewrite mem_load_slice, bind_Ok by lia.
    rewrite mem_store_splice, bind_Ok by (rewrite ?length_slice; lia).
    unfold advance. simpl rw_size. simpl rw_offset. simpl rw_bytes.
    rewrite !int32_in_range, !bind_Ok by lia.
    rewrite orb_true_r. reflexivity.
Qed.

Lemma write_iter_eq malloc_ok w inode i buffer size offset bytes bounce :
  points_to w inode i ->
  length_ok (inode.data i) ->
  disk_wf (filesys_disk w) ->
  0 <= offset < 2 ^ 31 -> 0 < size -> 0 <= bytes ->
  bytes + size < 2 ^ 31 ->
  bytes + size <= Z.of_nat (length buffer) ->
  let st := mkRw buffer size offset bytes bounce in
  let chunk := chunk_of (inode_disk.length (inode.data i)) size offset in
  let ofs := offset mod DISK_SECTOR_SIZE in
  let sec := sector_of (inode.data i) offset in
  let full := (ofs =? 0) && (chunk =? DISK_SECTOR_SIZE) in
  inode_write_iter malloc_ok inode st w =
    if chunk <=? 0 then Ok (Break (st, w))
    else if negb full && negb bounce && negb malloc_ok then Ok (Break (st, w))
    else Ok (Continue
               (mkRw buffer (size - chunk) (offset + chunk) (bytes + chunk)
                     (bounce || negb full),
                disk_write sec
                  (splice (filesys_disk w sec) ofs (slice buffer bytes chunk))
                  (if full then w else log (EvDiskRead sec) w))).
Proof.
  intros Hp Hlen Hwf Ho Hs Hb Hbs Hbuf. cbv zeta.
  unfold inode_write_iter.
  simpl rw_offset. simpl rw_size. simpl rw_bytes. simpl rw_buffer.
  simpl rw_bounce.
  rewrite (byte_to_sector_points_to _ _ _ _ Hp), bind_Ok.
  rewrite (inode_length_points_to _ _ _ Hp), bind_Ok.
  unfold length_ok in Hlen.
  set (len := inode_disk.length (inode.data i)) in *.
  assert (Hmod : 0 <= offset mod DISK_SECTOR_SIZE < DISK_SECTOR_SIZE)
    by (apply Z.mod_pos_bound; unfold DISK_SECTOR_SIZE; lia).
  assert (Hrem : Z.rem offset DISK_SECTOR_SIZE = offset mod DISK_SECTOR_SIZE)
    by (apply Z.rem_mod_nonneg; unfold DISK_SECTOR_SIZE; lia).
  rewrite (int32_in_range (len - offset)), bind_Ok by lia.
  rewrite int32_in_range, bind_Ok
    by (rewrite Hrem; unfold DISK_SECTOR_SIZE in *; lia).
  rewrite (chunk_of_cases len size offset) by lia.
  rewrite Hrem.
  set (chunk := chunk_of len size offset).
  assert (Hchunk : chunk <= size /\ chunk <= len - offset
                   /\ chunk <= DISK_SECTOR_SIZE - offset mod DISK_SECTOR_SIZE)
    by (unfold chunk, chunk_of; lia).
  destruct (Z.leb_spec chunk 0) as [Hc0|Hc0]; [reflexivity|].
  assert (Hlt : (offset <? len) = true) by (apply Z.ltb_lt; lia).
  rewrite Hlt.
  assert (Hsec : uint32 (inode_disk.start (inode.data i)
                         + Z.quot offset DISK_SECTOR_SIZE)
                 = sector_of (inode.data i) offset).
  { unfold sector_of.
    rewrite Z.quot_div_nonneg by (unfold DISK_SECTOR_SIZE; lia).
    reflexivity. }
  rewrite Hsec. set (sec := sector_of (inode.data i) offset).
  pose proof (Hwf sec) as Hsl.
  destruct ((offset mod DISK_SECTOR_SIZE =? 0) && (chunk =? DISK_SECTOR_SIZE))
    eqn:Hfull.
  - apply andb_true_iff in Hfull as [Ho0%Z.eqb_eq Hc512%Z.eqb_eq].
    simpl negb. simpl andb. cbv iota.
    rewrite mem_load_slice, bind_Ok by lia.
    unfold advance. simpl rw_size. simpl rw_offset. simpl rw_bytes.
    rewrite !int32_in_range, !bind_Ok by lia.
    rewrite orb_false_r, Hc512, Ho0.
    assert (Hsp : splice (filesys_disk w sec) 0
                    (slice buffer bytes DISK_SECTOR_SIZE)
                  = slice buffer bytes DISK_SECTOR_SIZE).
    { unfold splice. simpl take. simpl app.
      rewrite drop_ge, app_nil_r; [reflexivity|].
      pose proof (length_slice buffer bytes DISK_SECTOR_SIZE) as Hl. lia. }
    rewrite Hsp. reflexivity.
  - simpl negb. rewrite andb_true_l.
    destruct (negb bounce && negb malloc_ok) eqn:Hbm; [reflexivity|].
    assert (Hrd : (0 <? offset mod DISK_SECTOR_SIZE)
                  || (chunk <? DISK_SECTOR_SIZE - offset mod DISK_SECTOR_SIZE)
                  = true).
    { apply andb_false_iff in Hfull.
      apply orb_true_iff.
      destruct Hfull as [Hne%Z.eqb_neq|Hne%Z.eqb_neq].
      - left. apply Z.ltb_lt. lia.
      - destruct (decide (offset mod DISK_SECTOR_SIZE = 0)) as [H0|H0].
        + right. apply Z.ltb_lt. lia.
        + left. apply Z.ltb_lt. lia. }
    rewrite Hrd. unfold disk_read.
    rewrite mem_load_slice, bind_Ok by lia.
    rewrite mem_store_splice, bind_Ok by (rewrite ?length_slice; lia).
    unfold advance. simpl rw_size. simpl rw_offset. simpl rw_bytes.
    rewrite !int32_in_range, !bind_Ok by lia.
    rewrite orb_true_r. reflexivity.
Qed.

(** ** The loops *)

Lemma with_disk_id w : with_disk (filesys_disk w) [] w = w.
Proof. destruct w. unfold with_disk. simpl. by rewrite app_nil_r. Qed.

Lemma with_disk_with_disk d1 d2 evs1 evs2 w :
  with_disk d2 evs2 (with_disk d1 evs1 w) = with_disk d2 (evs1 ++ evs2) w.
Proof. unfold with_disk. simpl. by rewrite app_assoc. Qed.

Lemma logs_with_disk evs w : logs evs w = with_disk (filesys_disk w) evs w.
Proof. reflexivity. Qed.

Lemma points_to_with_disk d evs w inode i :
  points_to (with_disk d evs w) inode i <-> points_to w inode i.
Proof. reflexivity. Qed.

Lemma transferred_step len size offset :
  0 < chunk_of len size offset ->
  transferred len size offset
  = chunk_of len size offset
    + transferred len (size - chunk_of len size offset)
        (offset + chunk_of len size offset).
Proof. unfold transferred, chunk_of. lia. Qed.

Lemma transferred_stop len size offset :
  0 <= offset -> 0 < size -> chunk_of len size offset <= 0 ->
  transferred len size offset = 0.
Proof.
  unfold transferred, chunk_of. intros Ho Hs Hc.
  pose proof (Z.mod_pos_bound offset DISK_SECTOR_SIZE) as Hm.
  unfold DISK_SECTOR_SIZE in *. lia.
Qed.

Lemma read_loop_spec malloc_ok inode i (fuel : nat) :
  forall buffer size offset bytes bounce w,
  points_to w inode i ->
  length_ok (inode.data i) ->
  disk_wf (filesys_disk w) ->
  0 <= offset < 2 ^ 31 -> 0 <= size -> 0 <= bytes ->
  bytes + size < 2 ^ 31 ->
  bytes + size <= Z.of_nat (length buffer) ->
  (Z.to_nat size <= fuel)%nat ->
  exists cnt evs bounce',
    inode_read_loop fuel malloc_ok inode
      (mkRw buffer size offset bytes bounce) w
    = Ok (mkRw (splice buffer bytes
                  (file_range (filesys_disk w) (inode.data i) offset cnt))
               (size - cnt) (offset + cnt) (bytes + cnt) bounce',
          logs evs w)
    /\ 0 <= cnt <= transferred (inode_disk.length (inode.data i)) size offset
    /\ (bounce = true \/ malloc_ok = true ->
        cnt = transferred (inode_disk.length (inode.data i)) size offset)
    /\ Forall (fun e => exists s, e = EvDiskRead s /\ in_file (inode.data i) s)
         evs.
Proof.
  set (len := inode_disk.length (inode.data i)).
  induction fuel as [|fuel IH];
    intros buffer size offset bytes bounce w Hp Hlen Hwf Ho Hs Hb Hbs Hbuf Hf.
  - assert (size = 0) as -> by lia.
    exists 0, [], bounce. simpl.
    rewrite logs_with_disk, with_disk_id.
    unfold file_range. simpl. rewrite splice_nil, !Z.add_0_r.
    unfold transferred. repeat split; try lia. constructor.
  - simpl inode_read_loop. simpl rw_size.
    destruct (Z.ltb_spec 0 size) as [Hpos|Hnpos].
    2:{ assert (size = 0) as -> by lia.
        exists 0, [], bounce.
        rewrite logs_with_disk, with_disk_id.
        unfold file_range. simpl. rewrite splice_nil, !Z.add_0_r.
        unfold transferred. repeat split; try lia. constructor. }
    rewrite (read_iter_eq malloc_ok w inode i) by (assumption || lia).
    fold len.
    set (chunk := chunk_of len size offset).
    assert (Hchunk : chunk <= size /\ chunk <= len - offset
                   /\ chunk <= DISK_SECTOR_SIZE - offset mod DISK_SECTOR_SIZE)
      by (unfold chunk, chunk_of; lia).
    destruct (Z.leb_spec chunk 0) as [Hc0|Hc0].
    { rewrite bind_Ok. exists 0, [], bounce.
      rewrite logs_with_disk, with_disk_id.
      unfold file_range. simpl. rewrite splice_nil, !Z.add_0_r, Z.sub_0_r.
      rewrite (transferred_stop len size offset) by (fold chunk; lia).
      repeat split; try lia. constructor. }
    set (full := (offset mod DISK_SECTOR_SIZE =? 0) && (chunk =? DISK_SECTOR_SIZE)).
    destruct (negb full && negb bounce && negb malloc_ok) eqn:Hbrk.
    { rewrite bind_Ok. exists 0, [], bounce.
      rewrite logs_with_disk, with_disk_id.
      unfold file_range. simpl. rewrite splice_nil, !Z.add_0_r, Z.sub_0_r.
      assert (0 <= transferred len size offset).
      { rewrite transferred_step by (fold chunk; lia).
        fold chunk. unfold transferred. lia. }
      repeat split; try lia; [|constructor].
      intros [->| ->]; destruct full; simpl in Hbrk; try discriminate.
      rewrite andb_false_r in Hbrk. discriminate.
       }
    rewrite bind_Ok.
    rewrite slice_file_range by (assumption || lia).
    unfold length_ok in Hlen. fold len in Hlen.
    destruct (IH (splice buffer bytes (file_range (filesys_disk w) (inode.data i) offset chunk))
                (size - chunk) (offset + chunk) (bytes + chunk)
                (bounce || negb full) (logs [EvDiskRead (sector_of (inode.data i) offset)] w))
      as (cnt & evs & bounce' & Heq & Hcnt & Hmo & Hev);
      try (assumption || lia).
    { rewrite length_splice; rewrite ?length_file_range; lia. }
    assert (Hcs : 0 <= cnt <= size - chunk)
      by (unfold transferred in Hcnt; lia).
    exists (chunk + cnt), (EvDiskRead (sector_of (inode.data i) offset) :: evs), bounce'.
    split; [|split; [|split]].
    + rewrite Heq. simpl filesys_disk.
      rewrite !logs_with_disk, with_disk_with_disk.
      rewrite (file_range_app _ _ offset chunk cnt) by lia.
      rewrite <- splice_app by (rewrite ?length_file_range; lia).
      rewrite length_file_range, Z2Nat.id by lia.
      do 2 f_equal. f_equal; lia.
    + rewrite (transferred_step len size offset) by (fold chunk; lia).
      fold chunk. fold len in Hcnt. lia.
    + intros Hbm.
      rewrite (transferred_step len size offset) by (fold chunk; lia).
      fold chunk. fold len in Hmo. rewrite Hmo; [reflexivity|].
      destruct Hbm as [-> | ->]; auto.
    + constructor; [|exact Hev].
      eexists; split; [reflexivity|].
      apply sector_of_in_file; [exact Hlen | fold len; lia].
Qed.


Lemma disk_write_with_disk sec buf (full : bool) w :
  disk_write sec buf (if full then w else log (EvDiskRead sec) w)
  = with_disk (<[sec := buf]> (filesys_disk w))
      (if full then [EvDiskWrite sec buf]
       else [EvDiskRead sec; EvDiskWrite sec buf]) w.
Proof.
  destruct full; unfold disk_write, with_disk, log, set_disk; simpl;
    [reflexivity|]. by rewrite <- app_assoc.
Qed.

Lemma disk_wf_insert disk sec buf :
  disk_wf disk -> Z.of_nat (length buf) = DISK_SECTOR_SIZE ->
  disk_wf (<[sec := buf]> disk).
Proof.
  intros Hwf Hb s. destruct (decide (sec = s)) as [->|Hne].
  - by rewrite fn_lookup_insert.
  - by rewrite fn_lookup_insert_ne.
Qed.

Lemma write_loop_spec malloc_ok inode i (fuel : nat) :
  forall buffer size offset bytes bounce w,
  points_to w inode i ->
  length_ok (inode.data i) ->
  disk_wf (filesys_disk w) ->
  0 <= offset < 2 ^ 31 -> 0 <= size -> 0 <= bytes ->
  bytes + size < 2 ^ 31 ->
  bytes + size <= Z.of_nat (length buffer) ->
  (Z.to_nat size <= fuel)%nat ->
  exists cnt evs d' bounce',
    inode_write_loop fuel malloc_ok inode
      (mkRw buffer size offset bytes bounce) w
    = Ok (mkRw buffer (size - cnt) (offset + cnt) (bytes + cnt) bounce',
          with_disk d' evs w)
    /\ 0 <= cnt <= transferred (inode_disk.length (inode.data i)) size offset
    /\ (bounce = true \/ malloc_ok = true ->
        cnt = transferred (inode_disk.length (inode.data i)) size offset)
    /\ disk_wf d'
    /\ (forall p, 0 <= p < 2 ^ 31 ->
        file_byte d' (inode.data i) p
        = if decide (offset <= p < offset + cnt)
          then nth (Z.to_nat (bytes + (p - offset))) buffer x00
          else file_byte (filesys_disk w) (inode.data i) p)
    /\ (forall s, ~ in_file (inode.data i) s -> d' s = filesys_disk w s)
    /\ Forall (fun e => exists s, event_sector e = Some s
                                 /\ in_file (inode.data i) s) evs.
Proof.
  set (d := inode.data i).
  set (len := inode_disk.length d).
  assert (Hstop : forall buffer size offset bytes bounce w,
    0 <= transferred len size offset ->
    (bounce = true \/ malloc_ok = true -> 0 = transferred len size offset) ->
    disk_wf (filesys_disk w) ->
    exists cnt evs d' bounce',
      Ok (mkRw buffer size offset bytes bounce, w)
      = Ok (mkRw buffer (size - cnt) (offset + cnt) (bytes + cnt) bounce',
            with_disk d' evs w)
      /\ 0 <= cnt <= transferred len size offset
      /\ (bounce = true \/ malloc_ok = true ->
          cnt = transferred len size offset)
      /\ disk_wf d'
      /\ (forall p, 0 <= p < 2 ^ 31 ->
          file_byte d' d p
          = if decide (offset <= p < offset + cnt)
            then nth (Z.to_nat (bytes + (p - offset))) buffer x00
            else file_byte (filesys_disk w) d p)
      /\ (forall s, ~ in_file d s -> d' s = filesys_disk w s)
      /\ Forall (fun e => exists s, event_sector e = Some s /\ in_file d s)
           evs).
  { intros buffer size offset bytes bounce w Ht Hm Hwf.
    exists 0, [], (filesys_disk w), bounce.
    rewrite with_disk_id, !Z.add_0_r, Z.sub_0_r.
    repeat split; try assumption; try lia.
    - intros p Hp. destruct (decide _); [lia | reflexivity].
    - constructor. }
  induction fuel as [|fuel IH];
    intros buffer size offset bytes bounce w Hp Hlen Hwf Ho Hs Hb Hbs Hbuf Hf.
  - assert (size = 0) as -> by lia. simpl.
    apply Hstop; unfold transferred; try assumption; lia.
  - simpl inode_write_loop. simpl rw_size.
    destruct (Z.ltb_spec 0 size) as [Hpos|Hnpos].
    2:{ assert (size = 0) as -> by lia.
        apply Hstop; unfold transferred; try assumption; lia. }
    rewrite (write_iter_eq malloc_ok w inode i) by (assumption || lia).
    fold d. fold len.
    set (chunk := chunk_of len size offset).
    assert (Hchunk : chunk <= size /\ chunk <= len - offset
                   /\ chunk <= DISK_SECTOR_SIZE - offset mod DISK_SECTOR_SIZE)
      by (unfold chunk, chunk_of; lia).
    destruct (Z.leb_spec chunk 0) as [Hc0|Hc0].
    { rewrite bind_Ok.
      apply Hstop; rewrite ?(transferred_stop len size offset)
        by (fold chunk; lia); try assumption; try lia. }
    set (full := (offset mod DISK_SECTOR_SIZE =? 0)
                 && (chunk =? DISK_SECTOR_SIZE)).
    destruct (negb full && negb bounce && negb malloc_ok) eqn:Hbrk.
    { rewrite bind_Ok. apply Hstop; try assumption.
      - rewrite transferred_step by (fold chunk; lia).
        fold chunk. unfold transferred. lia.
      - intros [->| ->]; destruct full; simpl in Hbrk; try discriminate.
        rewrite andb_false_r in Hbrk. discriminate. }
    rewrite bind_Ok. rewrite disk_write_with_disk.
    pose proof Hlen as Hlen0.
    unfold length_ok in Hlen. fold len in Hlen.
    set (sec := sector_of d offset).
    set (src := slice buffer bytes chunk).
    assert (Hsrc : Z.of_nat (length src) = chunk)
      by (apply length_slice; lia).
    set (d1 := <[sec := splice (filesys_disk w sec)
                          (offset mod DISK_SECTOR_SIZE) src]> (filesys_disk w)).
    set (evs1 := if full then _ else _).
    assert (Hm : 0 <= offset mod DISK_SECTOR_SIZE < DISK_SECTOR_SIZE)
      by (apply Z.mod_pos_bound; unfold DISK_SECTOR_SIZE; lia).
    assert (Hwf1 : disk_wf d1).
    { apply disk_wf_insert; [exact Hwf|].
      rewrite length_splice; [apply Hwf | lia |].
      rewrite (Hwf sec). lia. }
    destruct (IH buffer (size - chunk) (offset + chunk) (bytes + chunk)
                (bounce || negb full) (with_disk d1 evs1 w) Hp Hlen0 Hwf1)
      as (cnt & evs & d' & bounce' & Heq & Hcnt & Hmo & Hwf' & Hfb & Hfr & Hev);
      try lia.
    fold len in Hcnt, Hmo. fold d in Hfb, Hfr, Hev.
    assert (Hcs : 0 <= cnt <= size - chunk)
      by (unfold transferred in Hcnt; lia).
    assert (Hin : in_file d sec)
      by (apply sector_of_in_file; [exact Hlen | fold len; lia]).
    exists (chunk + cnt), (evs1 ++ evs), d', bounce'.
    split; [|split; [|split; [|split; [|split; [|split]]]]].
    + etransitivity; [exact Heq|].
      rewrite with_disk_with_disk. do 2 f_equal. f_equal; lia.
    + rewrite (transferred_step len size offset) by (fold chunk; lia).
      fold chunk. lia.
    + intros Hbm.
      rewrite (transferred_step len size offset) by (fold chunk; lia).
      fold chunk. rewrite Hmo; [reflexivity|].
      destruct Hbm as [-> | ->]; auto.
    + exact Hwf'.
    + intros p Hpr. rewrite (Hfb p Hpr). simpl filesys_disk.
      unfold d1, sec.
      rewrite file_byte_insert by (assumption || lia).
      rewrite Hsrc.
      repeat destruct (decide _); try lia; try reflexivity.
      * f_equal. lia.
      * unfold src. rewrite nth_slice by lia. f_equal. lia.
    + intros s Hs'. rewrite (Hfr s Hs'). simpl filesys_disk.
      unfold d1. apply fn_lookup_insert_ne. intros <-. by apply Hs'.
    + apply Forall_app. split; [|exact Hev].
      unfold evs1. destruct full; repeat constructor;
        eexists; (split; [reflexivity | exact Hin]).
Qed.

(** ** Whole calls *)

Lemma read_at_spec malloc_ok w inode i buffer size offset :
  points_to w inode i ->
  length_ok (inode.data i) ->
  disk_wf (filesys_disk w) ->
  0 <= offset < 2 ^ 31 -> 0 <= size < 2 ^ 31 ->
  size <= Z.of_nat (length buffer) ->
  exists cnt evs,
    inode_read_at malloc_ok inode buffer size offset w
    = Ok (cnt,
          splice buffer 0
            (file_range (filesys_disk w) (inode.data i) offset cnt),
          logs evs w)
    /\ 0 <= cnt <= transferred (inode_disk.length (inode.data i)) size offset
    /\ (malloc_ok = true ->
        cnt = transferred (inode_disk.length (inode.data i)) size offset)
    /\ Forall (fun e => exists s, e = EvDiskRead s /\ in_file (inode.data i) s)
         evs.
Proof.
  intros Hp Hlen Hwf Ho Hs Hbuf.
  destruct (read_loop_spec malloc_ok inode i (Z.to_nat size)
              buffer size offset 0 false w)
    as (cnt & evs & bounce' & Heq & Hcnt & Hm & Hev);
    try (assumption || lia).
  exists cnt, evs. unfold inode_read_at. rewrite Heq. simpl.
  repeat split; try (assumption || lia). auto.
Qed.

Lemma write_at_spec malloc_ok w inode i buffer size offset :
  points_to w inode i ->
  length_ok (inode.data i) ->
  disk_wf (filesys_disk w) ->
  0 <= offset < 2 ^ 31 -> 0 <= size < 2 ^ 31 ->
  size <= Z.of_nat (length buffer) ->
  exists cnt evs d',
    inode_write_at malloc_ok inode buffer size offset w
    = Ok (cnt, with_disk d' evs w)
    /\ 0 <= cnt <= transferred (inode_disk.length (inode.data i)) size offset
    /\ (malloc_ok = true ->
        cnt = transferred (inode_disk.length (inode.data i)) size offset)
    /\ disk_wf d'
    /\ (forall p, 0 <= p < 2 ^ 31 ->
        file_byte d' (inode.data i) p
        = if decide (offset <= p < offset + cnt)
          then nth (Z.to_nat (p - offset)) buffer x00
          else file_byte (filesys_disk w) (inode.data i) p)
    /\ (forall s, ~ in_file (inode.data i) s -> d' s = filesys_disk w s)
    /\ Forall (fun e => exists s, event_sector e = Some s
                                 /\ in_file (inode.data i) s) evs.
Proof.
  intros Hp Hlen Hwf Ho Hs Hbuf.
  destruct (write_loop_spec malloc_ok inode i (Z.to_nat size)
              buffer size offset 0 false w)
    as (cnt & evs & d' & bounce' & Heq & Hcnt & Hm & Hwf' & Hfb & Hfr & Hev);
    try (assumption || lia).
  exists cnt, evs, d'. unfold inode_write_at. rewrite Heq. simpl.
  repeat split; try (assumption || lia); auto.
Qed.

End ReadWrite.

(** * Reading and writing whole ranges *)

Section ReadWriteClaims.
Context {FM : Type}.
Implicit Types (w : world FM) (i : inode.t).

Lemma file_range_written d' d (b : list byte) o :
  (forall p, o <= p < o + Z.of_nat (length b) ->
     file_byte d' d p = nth (Z.to_nat (p - o)) b x00) ->
  file_range d' d o (Z.of_nat (length b)) = b.
Proof.
  intros Hfb.
  apply (nth_ext _ _ x00 x00).
  - rewrite length_file_range. lia.
  - intros n Hn. rewrite length_file_range in Hn.
    rewrite nth_file_range by lia.
    rewrite Hfb by lia. f_equal. lia.
Qed.

(** C1: writing the bytes [b] at offset [o], with [o + length b] within the
    length of the file, and then reading [length b] bytes at [o] transfers
    [length b] bytes both times and leaves exactly [b] in the buffer that
    was read into, wherever the range lies with respect to the sector
    boundaries.  Offsets are byte positions, so [0 <= o]; both calls find
    memory for their bounce buffer. *)
Theorem write_then_read_roundtrip w inode i (b buf : list byte) (o : Z) :
  points_to w inode i ->
  length_ok (inode.data i) ->
  disk_wf (filesys_disk w) ->
  0 <= o ->
  o + Z.of_nat (length b) <= inode_disk.length (inode.data i) ->
  (length b <= length buf)%nat ->
  exists w1 w2,
    inode_write_at true inode b (Z.of_nat (length b)) o w
    = Ok (Z.of_nat (length b), w1)
    /\ inode_read_at true inode buf (Z.of_nat (length b)) o w1
       = Ok (Z.of_nat (length b), b ++ drop (length b) buf, w2).
Proof.
  intros Hp Hlen Hwf Ho Hend Hbuf.
  pose proof Hlen as Hlen'. unfold length_ok in Hlen'.
  set (n := Z.of_nat (length b)) in *.
  assert (Ht : transferred (inode_disk.length (inode.data i)) n o = n)
    by (unfold transferred; lia).
  destruct (write_at_spec true w inode i b n o)
    as (cnt & evs & d' & Hw & _ & Hcnt & Hwf' & Hfb & _ & _);
    try (assumption || lia).
  rewrite Ht in Hcnt. specialize (Hcnt eq_refl). subst cnt.
  destruct (read_at_spec true (with_disk d' evs w) inode i buf n o)
    as (cnt & evs' & Hr & _ & Hcnt & _);
    try (assumption || lia).
  rewrite Ht in Hcnt. specialize (Hcnt eq_refl). subst cnt.
  exists (with_disk d' evs w), (logs evs' (with_disk d' evs w)).
  split; [exact Hw|].
  rewrite Hr. simpl filesys_disk. unfold n.
  rewrite (file_range_written d' (inode.data i) b o).
  - unfold splice. simpl. reflexivity.
  - intros p Hpr. rewrite Hfb by lia.
    destruct (decide _); [reflexivity | lia].
Qed.

(** C5: for a size [s >= 0] and an offset [o], [inode_read_at] and
    [inode_write_at] both return, and return [min s (max 0 (length - o))] when the
    bounce buffer can be allocated.  The number returned is never more than
    [s]; it is less than [s] only when the end of the file has been reached
    or the allocation of the bounce buffer failed, and then it is the count
    of the bytes transferred before the loop stopped.  Offsets are byte
    positions, so [0 <= o]. *)
Theorem read_write_count malloc_ok w inode i (buffer : list byte) (s o : Z) :
  points_to w inode i ->
  length_ok (inode.data i) ->
  disk_wf (filesys_disk w) ->
  0 <= s < 2 ^ 31 -> 0 <= o < 2 ^ 31 ->
  s <= Z.of_nat (length buffer) ->
  exists nr bufr wr nw ww,
    inode_read_at malloc_ok inode buffer s o w = Ok (nr, bufr, wr)
    /\ inode_write_at malloc_ok inode buffer s o w = Ok (nw, ww)
    /\ (malloc_ok = true ->
        nr = Z.min s (Z.max 0 (inode_disk.length (inode.data i) - o))
        /\ nw = Z.min s (Z.max 0 (inode_disk.length (inode.data i) - o)))
    /\ 0 <= nr <= s /\ 0 <= nw <= s
    /\ (nr < s ->
        inode_disk.length (inode.data i) <= o + nr \/ malloc_ok = false)
    /\ (nw < s ->
        inode_disk.length (inode.data i) <= o + nw \/ malloc_ok = false).
Proof.
  intros Hp Hlen Hwf Hs Ho Hbuf.
  destruct (read_at_spec malloc_ok w inode i buffer s o)
    as (nr & evs & Hr & Hnr & Hmr & _); try assumption.
  destruct (write_at_spec malloc_ok w inode i buffer s o)
    as (nw & evs' & d' & Hw & Hnw & Hmw & _); try assumption.
  unfold transferred in *.
  eexists nr, _, _, nw, _.
  split; [exact Hr|]. split; [exact Hw|].
  split; [auto|].
  split; [lia|]. split; [lia|].
  split; intros Hlt; (destruct malloc_ok; [left | right; reflexivity]).
  - specialize (Hmr eq_refl). lia.
  - specialize (Hmw eq_refl). lia.
Qed.

(** The data path stays inside the file for offsets that are not negative:
    every disk access that [inode_read_at] or [inode_write_at] then makes
    goes to one of the [bytes_to_sectors length] sectors that start at the
    [start] of the inode's cached descriptor (sector numbers being 32-bit),
    hence to a sector in [start, start + bytes_to_sectors length) when that
    range is not cut by the end of the sector numbers; and [byte_to_sector]
    gives a sector of the file for an offset below the length and -1 for
    any other. *)
Theorem accesses_stay_in_file malloc_ok w inode i (buffer : list byte)
    (s o : Z) :
  points_to w inode i ->
  length_ok (inode.data i) ->
  disk_wf (filesys_disk w) ->
  0 <= s < 2 ^ 31 -> 0 <= o < 2 ^ 31 ->
  s <= Z.of_nat (length buffer) ->
  let d := inode.data i in
  let in_range e :=
    exists sec, event_sector e = Some sec /\ in_file d sec
      /\ (0 <= inode_disk.start d ->
          inode_disk.start d + bytes_to_sectors (inode_disk.length d)
            <= 2 ^ 32 ->
          inode_disk.start d <= sec
            < inode_disk.start d + bytes_to_sectors (inode_disk.length d)) in
  exists nr bufr wr nw ww evr evw,
    inode_read_at malloc_ok inode buffer s o w = Ok (nr, bufr, wr)
    /\ io_log wr = io_log w ++ evr /\ Forall in_range evr
    /\ inode_write_at malloc_ok inode buffer s o w = Ok (nw, ww)
    /\ io_log ww = io_log w ++ evw /\ Forall in_range evw
    /\ byte_to_sector inode o w
       = Ok (if o <? inode_disk.length d then sector_of d o else uint32 (-1))
    /\ (o < inode_disk.length d -> in_file d (sector_of d o)).
Proof.
  intros Hp Hlen Hwf Hs Ho Hbuf d in_range.
  assert (Hrange : forall sec, in_file d sec ->
            0 <= inode_disk.start d ->
            inode_disk.start d + bytes_to_sectors (inode_disk.length d)
              <= 2 ^ 32 ->
            inode_disk.start d <= sec
              < inode_disk.start d + bytes_to_sectors (inode_disk.length d)).
  { intros sec (k & Hk & ->) H0 Hfit. rewrite uint32_small; lia. }
  destruct (read_at_spec malloc_ok w inode i buffer s o)
    as (nr & evr & Hr & _ & _ & Hevr); try assumption.
  destruct (write_at_spec malloc_ok w inode i buffer s o)
    as (nw & evw & d' & Hw & _ & _ & _ & _ & _ & Hevw); try assumption.
  eexists nr, _, _, nw, _, evr, evw.
  split; [exact Hr|]. split; [reflexivity|].
  split.
  { eapply Forall_impl; [exact Hevr|].
    intros e (sec & -> & Hin). exists sec. simpl. auto. }
  split; [exact Hw|]. split; [reflexivity|].
  split.
  { eapply Forall_impl; [exact Hevw|].
    intros e (sec & He & Hin). exists sec. auto. }
  split.
  - rewrite (byte_to_sector_points_to _ _ _ _ Hp). fold d.
    unfold sector_of.
    rewrite Z.quot_div_nonneg by (unfold DISK_SECTOR_SIZE; lia).
    reflexivity.
  - intros Hlt. apply sector_of_in_file; [exact Hlen | fold d; lia].
Qed.

End ReadWriteClaims.

(** * The list of open inodes *)

Section RegistryProofs.
Context {FM : Type} `{!Allocator FM}.
Implicit Types (w : world FM) (i : inode.t) (a : addr).

Lemma world_eq w w' :
  filesys_disk w = filesys_disk w' -> free_map w = free_map w' ->
  io_log w = io_log w' -> heap w = heap w' ->
  open_inodes w = open_inodes w' -> inode_list_lock w = inode_list_lock w' ->
  w = w'.
Proof. destruct w, w'. simpl. by intros -> -> -> -> -> ->. Qed.

Lemma put_put a i1 i2 w : put a i2 (put a i1 w) = put a i2 w.
Proof. apply world_eq; try reflexivity. simpl. apply insert_insert_eq. Qed.

Lemma put_id a i w : heap w !! a = Some i -> put a i w = w.
Proof. intros Ha. apply world_eq; try reflexivity. simpl. by apply insert_id. Qed.

Lemma heap_put a i w : heap (put a i w) !! a = Some i.
Proof. simpl. apply lookup_insert_eq. Qed.

Lemma heap_put_ne a b i w : a ≠ b -> heap (put a i w) !! b = heap w !! b.
Proof. intros Hne. simpl. by apply lookup_insert_ne. Qed.

Lemma load_live a i w : heap w !! a = Some i -> load (Some a) w = Ok i.
Proof. intros Ha. unfold load. by rewrite Ha. Qed.

Lemma update_live a i i' f w :
  heap w !! a = Some i -> f i = Ok i' -> update (Some a) f w = Ok (put a i' w).
Proof.
  intros Ha Hf. unfold update. rewrite (load_live a i w Ha), bind_Ok, Hf.
  reflexivity.
Qed.

Lemma update_live_bind a i f w :
  heap w !! a = Some i ->
  update (Some a) f w = (i' ← f i; Ok (put a i' w)).
Proof.
  intros Ha. unfold update. rewrite (load_live a i w Ha), bind_Ok.
  reflexivity.
Qed.

Lemma acquire_inode_lock_free a i w :
  heap w !! a = Some i -> inode.inode_lock i = LockFree ->
  acquire_inode_lock (Some a) w
  = Ok (put a (inode.set_inode_lock LockHeld i) w).
Proof.
  intros Ha Hl. unfold acquire_inode_lock.
  apply (update_live a i); [exact Ha|]. by rewrite Hl.
Qed.

Lemma release_inode_lock_held a i w :
  heap w !! a = Some i -> inode.inode_lock i = LockHeld ->
  release_inode_lock (Some a) w
  = Ok (put a (inode.set_inode_lock LockFree i) w).
Proof.
  intros Ha Hl. unfold release_inode_lock.
  apply (update_live a i); [exact Ha|]. by rewrite Hl.
Qed.

Lemma set_inode_lock_same i :
  inode.set_inode_lock (inode.inode_lock i) i = i.
Proof. by destruct i. Qed.

(** Reopening an inode whose lock is free adds one opener, unless the
    counter overflows. *)
Lemma reopen_live a i w :
  heap w !! a = Some i -> inode.inode_lock i = LockFree ->
  inode_reopen (Some a) w
  = (c ← int32 (inode.open_cnt i + 1);
     Ok (Some a, put a (inode.set_open_cnt c i) w)).
Proof.
  intros Ha Hl. unfold inode_reopen.
  rewrite (acquire_inode_lock_free a i w Ha Hl), bind_Ok.
  rewrite (update_live_bind a _ _ _ (heap_put _ _ _)).
  simpl inode.open_cnt.
  destruct (int32 (inode.open_cnt i + 1)) as [c| | |]; try reflexivity.
  rewrite !bind_Ok, put_put.
  erewrite release_inode_lock_held; [|apply heap_put|reflexivity].
  rewrite bind_Ok, put_put. do 3 f_equal.
  destruct i; simpl in *; by subst.
Qed.

Lemma reopen_dead a w : heap w !! a = None -> inode_reopen (Some a) w = Undef.
Proof.
  intros Ha. unfold inode_reopen, acquire_inode_lock, update, load.
  by rewrite Ha.
Qed.

Lemma reopen_locked a i w :
  heap w !! a = Some i -> inode.inode_lock i <> LockFree ->
  inode_reopen (Some a) w = Undef.
Proof.
  intros Ha Hl. unfold inode_reopen, acquire_inode_lock, update, load.
  rewrite Ha. simpl. by destruct (inode.inode_lock i).
Qed.

Lemma inode_open_scan_cons e (l : list addr) sector w :
  inode_open_scan (e :: l) sector w
  = (w ← acquire_inode_lock (Some e) w;
     i ← load (Some e) w;
     w ← release_inode_lock (Some e) w;
     if inode.sector i =? sector then inode_reopen (Some e) w
     else inode_open_scan l sector w).
Proof. reflexivity. Qed.

(** Looking at an inode of the list under its lock leaves the state as it
    was. *)
Lemma open_scan_step a (l : list addr) i sector w :
  heap w !! a = Some i -> inode.inode_lock i = LockFree ->
  inode_open_scan (a :: l) sector w
  = if inode.sector i =? sector then inode_reopen (Some a) w
    else inode_open_scan l sector w.
Proof.
  intros Ha Hlk. rewrite inode_open_scan_cons.
  rewrite (acquire_inode_lock_free a i w Ha Hlk), bind_Ok.
  rewrite (load_live a _ _ (heap_put _ _ _)), bind_Ok.
  erewrite release_inode_lock_held; [|apply heap_put|reflexivity].
  rewrite bind_Ok, put_put.
  assert (Hi : inode.set_inode_lock LockFree
                 (inode.set_inode_lock LockHeld i) = i)
    by (destruct i; simpl in *; by subst).
  rewrite Hi, (put_id a i w Ha). reflexivity.
Qed.

Lemma open_scan_miss (l : list addr) sector w :
  (forall a, a ∈ l -> exists i, heap w !! a = Some i
      /\ inode.inode_lock i = LockFree /\ inode.sector i <> sector) ->
  inode_open_scan l sector w = Ok (NULL, w).
Proof.
  induction l as [|a l IH]; intros Hl; [reflexivity|].
  destruct (Hl a) as (i & Ha & Hlk & Hne); [by left|].
  rewrite (open_scan_step a l i sector w Ha Hlk).
  destruct (Z.eqb_spec (inode.sector i) sector) as [|_]; [contradiction|].
  apply IH. intros b Hb. apply Hl. by right.
Qed.

Lemma open_scan_hit (l : list addr) sector a i w :
  a ∈ l -> heap w !! a = Some i -> inode.sector i = sector ->
  (forall b, b ∈ l -> exists j, heap w !! b = Some j
      /\ inode.inode_lock j = LockFree
      /\ (inode.sector j = sector -> b = a)) ->
  inode_open_scan l sector w = inode_reopen (Some a) w.
Proof.
  induction l as [|b l IH]; intros Hin Ha Hs Hl; [by apply elem_of_nil in Hin|].
  destruct (Hl b) as (j & Hb & Hlk & Huniq); [by left|].
  rewrite (open_scan_step b l j sector w Hb Hlk).
  destruct (Z.eqb_spec (inode.sector j) sector) as [Heq|Hne].
  - by rewrite (Huniq Heq).
  - apply IH; try assumption.
    + apply elem_of_cons in Hin as [->|Hin]; [|exact Hin].
      congruence.
    + intros c Hc. apply Hl. by right.
Qed.

Lemma acquire_list_lock_free w :
  inode_list_lock w = LockFree ->
  acquire_list_lock w = Ok (set_inode_list_lock LockHeld w).
Proof. intros Hl. unfold acquire_list_lock. by rewrite Hl. Qed.

Lemma release_list_lock_held w :
  inode_list_lock w = LockHeld ->
  release_list_lock w = Ok (set_inode_list_lock LockFree w).
Proof. intros Hl. unfold release_list_lock. by rewrite Hl. Qed.

(** Opening a sector that has an inode on the list reopens that inode. *)
Lemma open_hit malloc_ok sector a i w :
  registry_ok w -> a ∈ open_inodes w -> heap w !! a = Some i ->
  inode.sector i = sector ->
  inode_open malloc_ok sector w
  = (c ← int32 (inode.open_cnt i + 1);
     Ok (Some a, put a (inode.set_open_cnt c i) w)).
Proof.
  intros Hreg Hin Ha Hs.
  destruct (reg_live w Hreg a Hin) as (i' & Ha' & Hcnt & Hlk).
  assert (i' = i) as -> by congruence.
  unfold inode_open.
  rewrite (acquire_list_lock_free w (reg_list_lock w Hreg)), bind_Ok.
  simpl open_inodes.
  rewrite (open_scan_hit (open_inodes w) sector a i); try assumption.
  2:{ intros b Hb.
      destruct (reg_live w Hreg b Hb) as (j & Hj & _ & Hjl).
      exists j. repeat split; try assumption.
      intros Hjs. symmetry.
      apply (reg_unique w Hreg a b i j); try assumption. congruence. }
  rewrite (reopen_live a i) by assumption.
  destruct (int32 (inode.open_cnt i + 1)) as [c| | |]; try reflexivity.
  rewrite !bind_Ok. cbv beta iota.
  rewrite release_list_lock_held by reflexivity.
  rewrite bind_Ok. do 2 f_equal.
  apply world_eq; try reflexivity.
  simpl. symmetry. apply (reg_list_lock w Hreg).
Qed.

(** Opening a sector that has no inode on the list builds one. *)
Lemma open_miss sector w :
  registry_ok w -> not_open sector w ->
  inode_open true sector w
  = Ok (Some (fresh (dom (heap w))), open_new sector w).
Proof.
  intros Hreg Hno. unfold inode_open.
  rewrite (acquire_list_lock_free w (reg_list_lock w Hreg)), bind_Ok.
  simpl open_inodes.
  rewrite open_scan_miss.
  2:{ intros b Hb.
      destruct (reg_live w Hreg b Hb) as (j & Hj & _ & Hjl).
      exists j. repeat split; try assumption.
      by apply (Hno b j). }
  rewrite bind_Ok. unfold NULL. cbv beta iota zeta.
  simpl heap. simpl open_inodes.
  set (a := fresh (dom (heap w))).
  rewrite release_list_lock_held by reflexivity.
  rewrite bind_Ok.
    erewrite update_live; [|apply lookup_insert_eq|reflexivity].
  rewrite bind_Ok.
  erewrite update_live; [|apply heap_put|reflexivity].
  rewrite bind_Ok.
  erewrite update_live; [|apply heap_put|reflexivity].
  rewrite bind_Ok.
  rewrite (load_live a _ _ (heap_put _ _ _)), bind_Ok.
  unfold disk_read. cbv beta iota zeta.
  erewrite update_live; [|apply lookup_insert_eq|reflexivity].
  rewrite bind_Ok.
  erewrite update_live; [|apply heap_put|reflexivity].
  rewrite bind_Ok. do 2 f_equal.
  apply world_eq; try reflexivity.
  - simpl. rewrite !insert_insert_eq. reflexivity.
  - simpl. symmetry. apply (reg_list_lock w Hreg).
Qed.

Lemma open_no_memory sector w :
  registry_ok w -> not_open sector w ->
  inode_open false sector w = Ok (NULL, w).
Proof.
  intros Hreg Hno. unfold inode_open.
  rewrite (acquire_list_lock_free w (reg_list_lock w Hreg)), bind_Ok.
  simpl open_inodes.
  rewrite open_scan_miss.
  2:{ intros b Hb.
      destruct (reg_live w Hreg b Hb) as (j & Hj & _ & Hjl).
      exists j. repeat split; try assumption.
      by apply (Hno b j). }
  rewrite bind_Ok. unfold NULL. cbv beta iota zeta.
  rewrite release_list_lock_held by reflexivity.
  rewrite bind_Ok. do 2 f_equal.
  apply world_eq; try reflexivity.
  simpl. symmetry. apply (reg_list_lock w Hreg).
Qed.


(** Closing an inode whose lock is free takes one opener away; the last
    opener takes the inode off the list, returns its sectors if it has been
    removed, and frees it. *)
Lemma close_live a i w :
  heap w !! a = Some i -> inode.inode_lock i = LockFree ->
  inode_list_lock w = LockFree ->
  inode_close (Some a) w
  = (c ← int32 (inode.open_cnt i - 1);
     Ok (if c =? 0 then closed_last a i w
         else put a (inode.set_open_cnt c i) w)).
Proof.
  intros Ha Hl Hll. unfold inode_close.
  rewrite (acquire_inode_lock_free a i w Ha Hl), bind_Ok.
  rewrite (update_live_bind a _ _ _ (heap_put _ _ _)).
  simpl inode.open_cnt.
  destruct (int32 (inode.open_cnt i - 1)) as [c| | |]; try reflexivity.
  rewrite !bind_Ok, put_put.
  rewrite (load_live a _ _ (heap_put _ _ _)), bind_Ok.
  simpl inode.open_cnt.
  destruct (c =? 0).
  - rewrite acquire_list_lock_free by exact Hll.
    rewrite bind_Ok.
    rewrite release_list_lock_held by reflexivity.
    rewrite bind_Ok. simpl inode.removed. simpl inode.data.
    simpl inode.sector.
    unfold closed_last.
    destruct (inode.removed i).
    + erewrite release_inode_lock_held;
        [|apply lookup_insert_eq|reflexivity].
      rewrite bind_Ok. f_equal.
      apply world_eq; try reflexivity.
      * simpl. by rewrite insert_insert_eq, delete_insert_eq.
      * simpl. by symmetry.
    + erewrite release_inode_lock_held;
        [|apply lookup_insert_eq|reflexivity].
      rewrite bind_Ok. f_equal.
      apply world_eq; try reflexivity.
      * simpl. by rewrite insert_insert_eq, delete_insert_eq.
      * simpl. by symmetry.
  - erewrite release_inode_lock_held; [|apply heap_put|reflexivity].
    rewrite put_put. do 2 f_equal.
    destruct i; simpl in *; by subst.
Qed.

Lemma close_dead a w : heap w !! a = None -> inode_close (Some a) w = Undef.
Proof.
  intros Ha. unfold inode_close, acquire_inode_lock, update, load.
  by rewrite Ha.
Qed.

Lemma close_locked a i w :
  heap w !! a = Some i -> inode.inode_lock i <> LockFree ->
  inode_close (Some a) w = Undef.
Proof.
  intros Ha Hl. unfold inode_close, acquire_inode_lock, update, load.
  rewrite Ha. simpl. by destruct (inode.inode_lock i).
Qed.

Lemma remove_live a i w :
  heap w !! a = Some i ->
  inode_remove (Some a) w = Ok (put a (inode.set_removed true i) w).
Proof.
  intros Ha. unfold inode_remove. simpl.
  by apply (update_live a i).
Qed.


(** ** The registry invariant *)

Lemma registry_ok_init w : registry_ok (inode_init w).
Proof.
  split; simpl.
  - reflexivity.
  - constructor.
  - intros a Ha. by apply elem_of_nil in Ha.
  - intros a b i j Ha. by apply elem_of_nil in Ha.
Qed.

Lemma registry_ok_put a i i' w :
  registry_ok w -> heap w !! a = Some i ->
  (a ∈ open_inodes w ->
   inode.sector i' = inode.sector i /\ 1 <= inode.open_cnt i'
   /\ inode.inode_lock i' = LockFree) ->
  registry_ok (put a i' w).
Proof.
  intros [Hll Hnd Hlive Huniq] Ha Hi'. split; simpl.
  - exact Hll.
  - exact Hnd.
  - intros b Hb. destruct (decide (a = b)) as [<-|Hne].
    + exists i'. rewrite lookup_insert_eq.
      destruct (Hi' Hb) as (_ & ? & ?). auto.
    + rewrite lookup_insert_ne by exact Hne. by apply Hlive.
  - intros b c j k Hb Hc Hj Hk Hs. simpl in Hj, Hk.
    destruct (decide (a = b)) as [<-|Hnb], (decide (a = c)) as [<-|Hnc];
      rewrite ?lookup_insert_eq in Hj; rewrite ?lookup_insert_eq in Hk;
      rewrite ?lookup_insert_ne in Hj by assumption;
      rewrite ?lookup_insert_ne in Hk by assumption.
    + reflexivity.
    + injection Hj as <-. destruct (Hi' Hb) as (Hsec & _).
      apply (Huniq a c i k); try assumption. congruence.
    + injection Hk as <-. destruct (Hi' Hc) as (Hsec & _).
      apply (Huniq b a j i); try assumption. congruence.
    + by apply (Huniq b c j k).
Qed.

Lemma fresh_not_open w :
  registry_ok w -> fresh (dom (heap w)) ∉ open_inodes w.
Proof.
  intros Hreg Hin.
  destruct (reg_live w Hreg _ Hin) as (i & Hi & _).
  apply (is_fresh (dom (heap w))).
  apply elem_of_dom. by exists i.
Qed.

Lemma registry_ok_open_new sector w :
  registry_ok w -> not_open sector w -> registry_ok (open_new sector w).
Proof.
  intros Hreg Hno.
  pose proof (fresh_not_open w Hreg) as Hfresh.
  destruct Hreg as [Hll Hnd Hlive Huniq].
  set (a := fresh (dom (heap w))) in *.
  split; simpl; fold a.
  - exact Hll.
  - by constructor.
  - intros b [->|Hb]%elem_of_cons.
    + exists (opened sector w). rewrite lookup_insert_eq.
      repeat split; simpl; lia.
    + rewrite lookup_insert_ne by (intros ->; contradiction).
      by apply Hlive.
  - intros b c j k Hb Hc Hj Hk Hs. simpl in Hj, Hk. fold a in Hj, Hk.
    apply elem_of_cons in Hb as [->|Hb], Hc as [->|Hc];
      rewrite ?lookup_insert_eq in Hj; rewrite ?lookup_insert_eq in Hk.
    + reflexivity.
    + rewrite lookup_insert_ne in Hk by (intros ->; contradiction).
      injection Hj as <-. simpl in Hs.
      destruct (Hno c k Hc Hk). congruence.
    + rewrite lookup_insert_ne in Hj by (intros ->; contradiction).
      injection Hk as <-. simpl in Hs.
      destruct (Hno b j Hb Hj). congruence.
    + rewrite lookup_insert_ne in Hj by (intros ->; contradiction).
      rewrite lookup_insert_ne in Hk by (intros ->; contradiction).
      by apply (Huniq b c j k).
Qed.

Lemma closed_last_fields a i w :
  open_inodes (closed_last a i w) = filter (fun e => e ≠ a) (open_inodes w)
  /\ heap (closed_last a i w) = delete a (heap w)
  /\ inode_list_lock (closed_last a i w) = inode_list_lock w
  /\ filesys_disk (closed_last a i w) = filesys_disk w.
Proof. unfold closed_last. by destruct (inode.removed i). Qed.

Lemma registry_ok_closed_last a i w :
  registry_ok w -> registry_ok (closed_last a i w).
Proof.
  intros [Hll Hnd Hlive Huniq].
  destruct (closed_last_fields a i w) as (Hl & Hh & Hk & _).
  split; rewrite ?Hl, ?Hh, ?Hk.
  - exact Hll.
  - by apply NoDup_filter.
  - intros b [Hne Hb]%list_elem_of_filter.
    rewrite lookup_delete_ne by done. by apply Hlive.
  - intros b c j k [Hnb Hb]%list_elem_of_filter [Hnc Hc]%list_elem_of_filter.
    rewrite !lookup_delete_ne by done. by apply Huniq.
Qed.

Lemma int32_pos z v : int32 z = Ok v -> v = z.
Proof. intros Hv. by apply int32_Ok in Hv as [-> _]. Qed.

(** Whether an inode of the list is for [sector]. *)
Lemma open_or_not sector w :
  registry_ok w ->
  (exists a i, a ∈ open_inodes w /\ heap w !! a = Some i
               /\ inode.sector i = sector)
  \/ not_open sector w.
Proof.
  intros Hreg.
  destruct (decide (Exists (fun a => inode.sector <$> heap w !! a
                                    = Some sector) (open_inodes w)))
    as [Hex|Hnex].
  - left. apply Exists_exists in Hex as (a & Ha & Hs).
    destruct (heap w !! a) as [i|] eqn:Hi; [|discriminate].
    exists a, i. repeat split; try assumption. simpl in Hs. congruence.
  - right. intros a i Ha Hi Hs. apply Hnex.
    apply Exists_exists. exists a. split; [exact Ha|].
    rewrite Hi. simpl. by rewrite Hs.
Qed.

Lemma run_op_registry_ok o w w' :
  registry_ok w -> run_op o w = Ok w' -> registry_ok w'.
Proof.
  intros Hreg Hrun.
  destruct o as [malloc_ok sector|[a|]|[a|]]; unfold run_op in Hrun.
  - destruct (open_or_not sector w Hreg) as [(a & i & Ha & Hi & Hs)|Hno].
    + rewrite (open_hit malloc_ok sector a i w Hreg Ha Hi Hs) in Hrun.
      destruct (int32 (inode.open_cnt i + 1)) as [c| | |] eqn:Hc;
        try discriminate.
      apply int32_pos in Hc as ->. simpl in Hrun. injection Hrun as <-.
      apply (registry_ok_put a i); try assumption.
      intros _. destruct (reg_live w Hreg a Ha) as (i' & Hi' & Hcnt & Hlk).
      assert (i' = i) as -> by congruence.
      repeat split; simpl; (assumption || lia).
    + destruct malloc_ok.
      * rewrite (open_miss sector w Hreg Hno) in Hrun. simpl in Hrun.
        injection Hrun as <-. by apply registry_ok_open_new.
      * rewrite (open_no_memory sector w Hreg Hno) in Hrun. simpl in Hrun.
        by injection Hrun as <-.
  - destruct (heap w !! a) as [i|] eqn:Hi.
    2:{ by rewrite (reopen_dead a w Hi) in Hrun. }
    destruct (decide (inode.inode_lock i = LockFree)) as [Hlk|Hlk].
    2:{ by rewrite (reopen_locked a i w Hi Hlk) in Hrun. }
    rewrite (reopen_live a i w Hi Hlk) in Hrun.
    destruct (int32 (inode.open_cnt i + 1)) as [c| | |] eqn:Hc;
      try discriminate.
    apply int32_pos in Hc as ->. simpl in Hrun. injection Hrun as <-.
    apply (registry_ok_put a i); try assumption.
    intros Ha. destruct (reg_live w Hreg a Ha) as (i' & Hi' & Hcnt & _).
    assert (i' = i) as -> by congruence.
    repeat split; simpl; (assumption || lia).
  - simpl in Hrun. by injection Hrun as <-.
  - destruct (heap w !! a) as [i|] eqn:Hi.
    2:{ by rewrite (close_dead a w Hi) in Hrun. }
    destruct (decide (inode.inode_lock i = LockFree)) as [Hlk|Hlk].
    2:{ by rewrite (close_locked a i w Hi Hlk) in Hrun. }
    rewrite (close_live a i w Hi Hlk (reg_list_lock w Hreg)) in Hrun.
    destruct (int32 (inode.open_cnt i - 1)) as [c| | |] eqn:Hc;
      try discriminate.
    apply int32_pos in Hc as ->. simpl in Hrun. injection Hrun as <-.
    destruct (Z.eqb_spec (inode.open_cnt i - 1) 0) as [H0|H0].
    + by apply registry_ok_closed_last.
    + apply (registry_ok_put a i); try assumption.
      intros Ha. destruct (reg_live w Hreg a Ha) as (i' & Hi' & Hcnt & _).
      assert (i' = i) as -> by congruence.
      repeat split; simpl; (assumption || lia).
  - by injection Hrun as <-.
Qed.

Lemma run_registry_ok ops w w' :
  registry_ok w -> run ops w = Ok w' -> registry_ok w'.
Proof.
  revert w. induction ops as [|o ops IH]; intros w Hreg Hrun.
  - by injection Hrun as <-.
  - simpl in Hrun. apply bind_Ok_inv in Hrun as (w1 & H1 & Hrest).
    apply (IH w1); [|exact Hrest].
    by apply (run_op_registry_ok o w).
Qed.

End RegistryProofs.

(** * What reading and writing depend on *)

Section Frame.
Context {FM : Type}.
Implicit Types (w : world FM) (i : inode.t) (a : addr).

(** The loops look at an inode only through its [data]. *)
Lemma load_put_data a i i' inode w :
  heap w !! a = Some i -> inode.data i' = inode.data i ->
  (exists j j', load inode w = Ok j /\ load inode (put a i' w) = Ok j'
                /\ inode.data j' = inode.data j)
  \/ (load inode w = Undef /\ load inode (put a i' w) = Undef).
Proof.
  intros Ha Hd. destruct inode as [b|]; [|by right].
  unfold load. simpl heap.
  destruct (decide (a = b)) as [<-|Hne].
  - rewrite lookup_insert_eq, Ha. left. by exists i, i'.
  - rewrite lookup_insert_ne by exact Hne.
    destruct (heap w !! b) as [j|]; [left|by right]. by exists j, j.
Qed.

Lemma byte_to_sector_put a i i' inode pos w :
  heap w !! a = Some i -> inode.data i' = inode.data i ->
  byte_to_sector inode pos (put a i' w) = byte_to_sector inode pos w.
Proof.
  intros Ha Hd. unfold byte_to_sector.
  destruct (ASSERT _); try reflexivity. rewrite !bind_Ok.
  destruct (load_put_data a i i' inode w Ha Hd)
    as [(j & j' & -> & -> & Hj)|[-> ->]]; [|reflexivity].
  rewrite !bind_Ok. by rewrite Hj.
Qed.

Lemma inode_length_put a i i' inode w :
  heap w !! a = Some i -> inode.data i' = inode.data i ->
  inode_length inode (put a i' w) = inode_length inode w.
Proof.
  intros Ha Hd. unfold inode_length.
  destruct (load_put_data a i i' inode w Ha Hd)
    as [(j & j' & -> & -> & Hj)|[-> ->]]; [|reflexivity].
  rewrite !bind_Ok. by rewrite Hj.
Qed.

Lemma read_iter_put a i i' malloc_ok inode st w :
  heap w !! a = Some i -> inode.data i' = inode.data i ->
  inode_read_iter malloc_ok inode st (put a i' w)
  = (r ← inode_read_iter malloc_ok inode st w; Ok (flow_put a i' r)).
Proof.
  intros Ha Hd. unfold inode_read_iter.
  rewrite (byte_to_sector_put a i i' _ _ _ Ha Hd).
  rewrite (inode_length_put a i i' _ _ Ha Hd).
  destruct (byte_to_sector inode (rw_offset st) w) as [sector_idx| | |];
    try reflexivity.
  rewrite !bind_Ok.
  destruct (inode_length inode w) as [len| | |]; try reflexivity.
  rewrite !bind_Ok.
  destruct (int32 (len - rw_offset st)) as [inode_left| | |]; try reflexivity.
  rewrite !bind_Ok.
  destruct (int32 _) as [sector_left| | |]; try reflexivity.
  rewrite !bind_Ok.
  destruct (_ <=? 0); [reflexivity|].
  destruct (_ && _).
  - unfold disk_read.
    destruct (mem_store _ _ _) as [buffer| | |]; try reflexivity.
    rewrite !bind_Ok.
    destruct (advance _ _ _ _) as [st'| | |]; reflexivity.
  - destruct (_ && _); [reflexivity|].
    unfold disk_read.
    destruct (mem_load _ _ _) as [piece| | |]; try reflexivity.
    rewrite !bind_Ok.
    destruct (mem_store _ _ _) as [buffer| | |]; try reflexivity.
    rewrite !bind_Ok.
    destruct (advance _ _ _ _) as [st'| | |]; reflexivity.
Qed.

Lemma read_iter_heap malloc_ok inode st w r :
  inode_read_iter malloc_ok inode st w = Ok r ->
  heap (flow_world r) = heap w.
Proof.
  unfold inode_read_iter.
  destruct (byte_to_sector inode (rw_offset st) w) as [sector_idx| | |];
    try discriminate.
  rewrite !bind_Ok.
  destruct (inode_length inode w) as [len| | |]; try discriminate.
  rewrite !bind_Ok.
  destruct (int32 (len - rw_offset st)) as [inode_left| | |]; try discriminate.
  rewrite !bind_Ok.
  destruct (int32 _) as [sector_left| | |]; try discriminate.
  rewrite !bind_Ok.
  destruct (_ <=? 0); [by intros [= <-]|].
  destruct (_ && _).
  - unfold disk_read.
    destruct (mem_store _ _ _) as [buffer| | |]; try discriminate.
    rewrite !bind_Ok.
    destruct (advance _ _ _ _) as [st'| | |]; try discriminate.
    by intros [= <-].
  - destruct (_ && _); [by intros [= <-]|].
    unfold disk_read.
    destruct (mem_load _ _ _) as [piece| | |]; try discriminate.
    rewrite !bind_Ok.
    destruct (mem_store _ _ _) as [buffer| | |]; try discriminate.
    rewrite !bind_Ok.
    destruct (advance _ _ _ _) as [st'| | |]; try discriminate.
    by intros [= <-].
Qed.

Lemma read_loop_put a i i' malloc_ok inode (fuel : nat) :
  inode.data i' = inode.data i ->
  forall st w, heap w !! a = Some i ->
  inode_read_loop fuel malloc_ok inode st (put a i' w)
  = ('(st', w') ← inode_read_loop fuel malloc_ok inode st w;
     Ok (st', put a i' w')).
Proof.
  intros Hd. induction fuel as [|fuel IH]; intros st w Ha; simpl.
  - by destruct (0 <? rw_size st).
  - destruct (0 <? rw_size st); [|reflexivity].
    rewrite (read_iter_put a i i' _ _ _ _ Ha Hd).
    destruct (inode_read_iter malloc_ok inode st w) as [r| | |] eqn:Hr;
      try reflexivity.
    rewrite !bind_Ok.
    apply read_iter_heap in Hr.
    destruct r as [[st1 w1]|[st1 w1]]; simpl in *; [|reflexivity].
    apply IH. by rewrite Hr.
Qed.

Lemma read_at_put a i i' malloc_ok inode buffer size offset w :
  heap w !! a = Some i -> inode.data i' = inode.data i ->
  inode_read_at malloc_ok inode buffer size offset (put a i' w)
  = ('(n, buf, w') ← inode_read_at malloc_ok inode buffer size offset w;
     Ok (n, buf, put a i' w')).
Proof.
  intros Ha Hd. unfold inode_read_at.
  rewrite (read_loop_put a i i' _ _ _ Hd _ _ Ha).
  destruct (inode_read_loop _ _ _ _ _) as [[st' w']| | |]; reflexivity.
Qed.


Lemma write_iter_put a i i' malloc_ok inode st w :
  heap w !! a = Some i -> inode.data i' = inode.data i ->
  inode_write_iter malloc_ok inode st (put a i' w)
  = (r ← inode_write_iter malloc_ok inode st w; Ok (flow_put a i' r)).
Proof.
  intros Ha Hd. unfold inode_write_iter.
  rewrite (byte_to_sector_put a i i' _ _ _ Ha Hd).
  rewrite (inode_length_put a i i' _ _ Ha Hd).
  destruct (byte_to_sector inode (rw_offset st) w) as [sector_idx| | |];
    try reflexivity.
  rewrite !bind_Ok.
  destruct (inode_length inode w) as [len| | |]; try reflexivity.
  rewrite !bind_Ok.
  destruct (int32 (len - rw_offset st)) as [inode_left| | |]; try reflexivity.
  rewrite !bind_Ok.
  destruct (int32 _) as [sector_left| | |]; try reflexivity.
  rewrite !bind_Ok.
  destruct (_ <=? 0); [reflexivity|].
  destruct (_ && _).
  - destruct (mem_load _ _ _) as [buf| | |]; try reflexivity.
    rewrite !bind_Ok.
    destruct (advance _ _ _ _) as [st'| | |]; reflexivity.
  - destruct (_ && _); [reflexivity|].
    destruct (_ || _); unfold disk_read;
      (destruct (mem_load _ _ _) as [src| | |]; try reflexivity;
       rewrite !bind_Ok;
       destruct (mem_store _ _ _) as [bounce| | |]; try reflexivity;
       rewrite !bind_Ok;
       destruct (advance _ _ _ _) as [st'| | |]; reflexivity).
Qed.

Lemma write_iter_heap malloc_ok inode st w r :
  inode_write_iter malloc_ok inode st w = Ok r ->
  heap (flow_world r) = heap w.
Proof.
  unfold inode_write_iter.
  destruct (byte_to_sector inode (rw_offset st) w) as [sector_idx| | |];
    try discriminate.
  rewrite !bind_Ok.
  destruct (inode_length inode w) as [len| | |]; try discriminate.
  rewrite !bind_Ok.
  destruct (int32 (len - rw_offset st)) as [inode_left| | |]; try discriminate.
  rewrite !bind_Ok.
  destruct (int32 _) as [sector_left| | |]; try discriminate.
  rewrite !bind_Ok.
  destruct (_ <=? 0); [by intros [= <-]|].
  destruct (_ && _).
  - destruct (mem_load _ _ _) as [buf| | |]; try discriminate.
    rewrite !bind_Ok.
    destruct (advance _ _ _ _) as [st'| | |]; try discriminate.
    by intros [= <-].
  - destruct (_ && _); [by intros [= <-]|].
    destruct (_ || _); unfold disk_read;
      (destruct (mem_load _ _ _) as [src| | |]; try discriminate;
       rewrite !bind_Ok;
       destruct (mem_store _ _ _) as [bounce| | |]; try discriminate;
       rewrite !bind_Ok;
       destruct (advance _ _ _ _) as [st'| | |]; try discriminate;
       by intros [= <-]).
Qed.

Lemma write_loop_put a i i' malloc_ok inode (fuel : nat) :
  inode.data i' = inode.data i ->
  forall st w, heap w !! a = Some i ->
  inode_write_loop fuel malloc_ok inode st (put a i' w)
  = ('(st', w') ← inode_write_loop fuel malloc_ok inode st w;
     Ok (st', put a i' w')).
Proof.
  intros Hd. induction fuel as [|fuel IH]; intros st w Ha; simpl.
  - by destruct (0 <? rw_size st).
  - destruct (0 <? rw_size st); [|reflexivity].
    rewrite (write_iter_put a i i' _ _ _ _ Ha Hd).
    destruct (inode_write_iter malloc_ok inode st w) as [r| | |] eqn:Hr;
      try reflexivity.
    rewrite !bind_Ok.
    apply write_iter_heap in Hr.
    destruct r as [[st1 w1]|[st1 w1]]; simpl in *; [|reflexivity].
    apply IH. by rewrite Hr.
Qed.

Lemma write_at_put a i i' malloc_ok inode buffer size offset w :
  heap w !! a = Some i -> inode.data i' = inode.data i ->
  inode_write_at malloc_ok inode buffer size offset (put a i' w)
  = ('(n, w') ← inode_write_at malloc_ok inode buffer size offset w;
     Ok (n, put a i' w')).
Proof.
  intros Ha Hd. unfold inode_write_at.
  rewrite (write_loop_put a i i' _ _ _ Hd _ _ Ha).
  destruct (inode_write_loop _ _ _ _ _) as [[st' w']| | |]; reflexivity.
Qed.

End Frame.

(** * Creating an inode *)

Lemma Z_of_byte_of_Z z : Z_of_byte (byte_of_Z z) = z mod 256.
Proof.
  unfold Z_of_byte, byte_of_Z.
  pose proof (Z.mod_pos_bound z 256 ltac:(lia)) as Hm.
  destruct (Byte.of_N (Z.to_N (z mod 256))) as [b|] eqn:Hb.
  - apply Byte.to_of_N in Hb. simpl. rewrite Hb. lia.
  - apply Byte.of_N_None_iff in Hb. lia.
Qed.

Lemma le32_at_le32 z rest :
  0 <= z < 2 ^ 32 -> le32_at (le32 z ++ rest) 0 = z.
Proof.
  intros Hz. unfold le32_at, byte_at, le32. simpl nth.
  rewrite !Z_of_byte_of_Z.
  Z.div_mod_to_equations. lia.
Qed.

Lemma le32_length z : length (le32 z) = 4%nat.
Proof. reflexivity. Qed.

Lemma decode_encode_start d :
  0 <= inode_disk.start d < 2 ^ 32 ->
  inode_disk.start (inode_disk.decode (inode_disk.encode d))
  = inode_disk.start d.
Proof.
  intros Hs. unfold inode_disk.decode, inode_disk.encode.
  simpl inode_disk.start at 1. by apply le32_at_le32.
Qed.

Lemma to_signed_bytes z :
  - 2 ^ 31 <= z < 2 ^ 31 ->
  to_signed
    (z mod 256 + 2 ^ 8 * ((z / 2 ^ 8) mod 256)
     + 2 ^ 16 * ((z / 2 ^ 16) mod 256) + 2 ^ 24 * ((z / 2 ^ 24) mod 256))
  = z.
Proof.
  intros Hz. unfold to_signed.
  destruct (Z.ltb_spec
    (z mod 256 + 2 ^ 8 * ((z / 2 ^ 8) mod 256)
     + 2 ^ 16 * ((z / 2 ^ 16) mod 256) + 2 ^ 24 * ((z / 2 ^ 24) mod 256))
    (2 ^ 31)); Z.div_mod_to_equations; lia.
Qed.

Lemma decode_encode_length d :
  - 2 ^ 31 <= inode_disk.length d < 2 ^ 31 ->
  inode_disk.length (inode_disk.decode (inode_disk.encode d))
  = inode_disk.length d.
Proof.
  intros Hs. unfold inode_disk.decode, inode_disk.encode.
  cbn [inode_disk.length].
  unfold le32_at, byte_at, le32. cbn [nth app Nat.add].
  rewrite !Z_of_byte_of_Z. by apply to_signed_bytes.
Qed.

Lemma decode_zeros_length :
  inode_disk.length (inode_disk.decode zeros) = 0.
Proof. reflexivity. Qed.

Lemma length_encode d :
  length (inode_disk.unused d) = 125%nat ->
  Z.of_nat (length (inode_disk.encode d)) = DISK_SECTOR_SIZE.
Proof.
  intros Hu. unfold inode_disk.encode.
  rewrite !length_app, !le32_length.
  assert (Hc : forall l : list Z, length (concat (map le32 l))
                                  = (4 * length l)%nat).
  { induction l as [|x l IH]; [reflexivity|].
    cbn [map concat]. rewrite length_app, IH, le32_length. simpl. lia. }
  rewrite Hc, Hu. reflexivity.
Qed.

Lemma nth_zeros k : nth k zeros x00 = x00.
Proof.
  unfold zeros. generalize (Z.to_nat DISK_SECTOR_SIZE). intros n. revert k.
  induction n as [|n IH]; intros [|k]; simpl; auto.
Qed.

Lemma length_zeros : Z.of_nat (length zeros) = DISK_SECTOR_SIZE.
Proof. reflexivity. Qed.

Section Create.
Context {FM : Type} `{!Allocator FM}.
Implicit Types (w : world FM).

Lemma clear_sectors_cons first k l w :
  clear_sectors first (k :: l) w
  = clear_sectors first l (disk_write (uint32 (first + k)) zeros w).
Proof. reflexivity. Qed.

Lemma clear_sectors_log first l w :
  io_log (clear_sectors first l w)
  = io_log w ++ map (fun i => EvDiskWrite (uint32 (first + i)) zeros) l.
Proof.
  revert w. induction l as [|k l IH]; intros w.
  - simpl. by rewrite app_nil_r.
  - rewrite clear_sectors_cons, IH. simpl.
    by rewrite <- app_assoc.
Qed.

Lemma clear_sectors_frame first l w :
  free_map (clear_sectors first l w) = free_map w
  /\ heap (clear_sectors first l w) = heap w
  /\ open_inodes (clear_sectors first l w) = open_inodes w
  /\ inode_list_lock (clear_sectors first l w) = inode_list_lock w.
Proof.
  revert w. induction l as [|k l IH]; intros w; [done|].
  rewrite clear_sectors_cons.
  destruct (IH (disk_write (uint32 (first + k)) zeros w))
    as (-> & -> & -> & ->).
  done.
Qed.

Lemma clear_sectors_disk first l w s :
  filesys_disk (clear_sectors first l w) s
  = if decide (s ∈ map (fun i => uint32 (first + i)) l) then zeros
    else filesys_disk w s.
Proof.
  revert w. induction l as [|k l IH]; intros w.
  - cbn [map]. rewrite decide_False by apply not_elem_of_nil. done.
  - rewrite clear_sectors_cons, IH. simpl.
    destruct (decide (s ∈ _)) as [Hin|Hnin].
    + rewrite decide_True by (by right). done.
    + destruct (decide (uint32 (first + k) = s)) as [<-|Hne].
      * rewrite fn_lookup_insert. rewrite decide_True by (by left). done.
      * rewrite fn_lookup_insert_ne by done.
        rewrite decide_False; [done|].
        intros [->|Hin]%elem_of_cons; done.
Qed.

Lemma create_ok sector length first fm w :
  0 <= length ->
  free_map_allocate (bytes_to_sectors length) (free_map w) = Some (first, fm) ->
  inode_create true sector length w
  = Ok (true, create_done sector length first fm w).
Proof.
  intros Hl Ha. unfold inode_create.
  destruct (Z.leb_spec 0 length); [|lia]. simpl ASSERT. rewrite bind_Ok.
  unfold allocate. rewrite Ha. cbv beta iota zeta.
  unfold create_done, clear_sectors, created.
  destruct (Z.ltb_spec 0 (bytes_to_sectors length)) as [Hn|Hn];
    [reflexivity|].
  rewrite seqZ_nil by lia. reflexivity.
Qed.

Lemma create_refused sector length w :
  0 <= length ->
  free_map_allocate (bytes_to_sectors length) (free_map w) = None ->
  inode_create true sector length w
  = Ok (false, log (EvAllocate (bytes_to_sectors length)) w).
Proof.
  intros Hl Ha. unfold inode_create.
  destruct (Z.leb_spec 0 length); [|lia]. simpl ASSERT. rewrite bind_Ok.
  unfold allocate. by rewrite Ha.
Qed.

Lemma create_no_memory sector length w :
  0 <= length -> inode_create false sector length w = Ok (false, w).
Proof.
  intros Hl. unfold inode_create.
  by destruct (Z.leb_spec 0 length); [|lia].
Qed.

End Create.

(** * Creation: success and failure *)

Section CreateClaims.
Context {FM : Type} `{!Allocator FM}.
Implicit Types (w : world FM) (i : inode.t).

Lemma create_done_disk sector len first fm w s :
  filesys_disk (create_done sector len first fm w) s
  = if decide (s ∈ map (fun k => uint32 (uint32 first + k))
                     (seqZ 0 (bytes_to_sectors len)))
    then zeros
    else <[sector := inode_disk.encode (created first len)]>
           (filesys_disk w) s.
Proof. unfold create_done. by rewrite clear_sectors_disk. Qed.

Lemma create_done_disk_wf sector len first fm w :
  disk_wf (filesys_disk w) ->
  disk_wf (filesys_disk (create_done sector len first fm w)).
Proof.
  intros Hwf s. rewrite create_done_disk.
  case_decide; [apply length_zeros|].
  apply disk_wf_insert; [exact Hwf|]. by apply length_encode.
Qed.

(** After a successful [inode_create], a read through an inode whose
    descriptor has been read from SECTOR finds zeros only. *)
Lemma read_after_create sector len first fm w w2 inode i malloc_ok
    (buffer : list byte) size offset :
  0 <= len < 2 ^ 31 ->
  disk_wf (filesys_disk w) ->
  filesys_disk w2 = filesys_disk (create_done sector len first fm w) ->
  points_to w2 inode i ->
  inode.data i = inode_disk.decode (filesys_disk w2 sector) ->
  0 <= size < 2 ^ 31 -> 0 <= offset < 2 ^ 31 ->
  size <= Z.of_nat (length buffer) ->
  exists cnt w3,
    inode_read_at malloc_ok inode buffer size offset w2
    = Ok (cnt, replicate (Z.to_nat cnt) x00 ++ drop (Z.to_nat cnt) buffer, w3)
    /\ 0 <= cnt <= size.
Proof.
  intros Hlen Hwf Hdisk Hp Hdata Hs Ho Hbuf.
  set (n := bytes_to_sectors len) in *.
  set (secs := map (fun k => uint32 (uint32 first + k)) (seqZ 0 n)).
  assert (Hwf2 : disk_wf (filesys_disk w2)).
  { rewrite Hdisk. by apply create_done_disk_wf. }
  assert (Hd : inode_disk.length (inode.data i) = 0
               \/ (inode_disk.length (inode.data i) = len
                   /\ inode_disk.start (inode.data i) = uint32 first)).
  { rewrite Hdata, Hdisk, create_done_disk. fold n. fold secs.
    destruct (decide (sector ∈ secs)); [left; apply decode_zeros_length|].
    right. rewrite fn_lookup_insert. split.
    - apply decode_encode_length. simpl. lia.
    - apply decode_encode_start. simpl. apply uint32_range. }
  assert (Hlok : length_ok (inode.data i)).
  { unfold length_ok. destruct Hd as [->|[-> _]]; lia. }
  destruct (read_at_spec malloc_ok w2 inode i buffer size offset)
    as (cnt & evs & Hr & Hcnt & _ & _); try assumption.
  unfold transferred in Hcnt.
  exists cnt, (logs evs w2). split; [|lia].
  rewrite Hr. do 2 f_equal.
  assert (Hz : file_range (filesys_disk w2) (inode.data i) offset cnt
               = replicate (Z.to_nat cnt) x00).
  { apply (nth_ext _ _ x00 x00).
    - by rewrite length_file_range, length_replicate.
    - intros k Hk. rewrite length_file_range in Hk.
      rewrite nth_file_range by lia.
      rewrite (nth_lookup_Some _ _ _ x00
                 (lookup_replicate_2 _ _ _ Hk)).
      destruct Hd as [H0|[Hl Hst]]; [lia|].
      unfold file_byte, sector_of. rewrite Hst, Hdisk, create_done_disk.
      fold n. fold secs.
      rewrite decide_True; [apply nth_zeros|].
      apply list_elem_of_fmap.
      exists ((offset + Z.of_nat k) / DISK_SECTOR_SIZE). split; [done|].
      apply elem_of_seqZ.
      pose proof (bytes_to_sectors_ceil len Hlen) as Hc. fold n in Hc.
      unfold DISK_SECTOR_SIZE in *.
      split; [apply Z.div_pos; lia|].
      simpl. apply Z.div_lt_upper_bound; lia. }
  rewrite Hz. unfold splice. simpl. by rewrite length_replicate.
Qed.

(** C3: when [calloc] finds no memory for the descriptor or the allocator
    refuses the request, [inode_create] returns false and writes nothing:
    the disk is as it was, and the only call it has made is the request to
    the allocator. *)
Theorem create_failure_writes_nothing calloc_ok sector len w :
  0 <= len ->
  calloc_ok = false
  \/ free_map_allocate (bytes_to_sectors len) (free_map w) = None ->
  exists w',
    inode_create calloc_ok sector len w = Ok (false, w')
    /\ filesys_disk w' = filesys_disk w
    /\ io_log w'
       = io_log w
         ++ (if calloc_ok then [EvAllocate (bytes_to_sectors len)]
             else [])
    /\ free_map w' = free_map w
    /\ heap w' = heap w /\ open_inodes w' = open_inodes w.
Proof.
  intros Hl Hfail. destruct calloc_ok.
  - destruct Hfail as [|Hnone]; [discriminate|].
    exists (log (EvAllocate (bytes_to_sectors len)) w).
    split; [by apply create_refused|]. done.
  - exists w. split; [by apply create_no_memory|].
    by rewrite app_nil_r.
Qed.

End CreateClaims.

(** * Partial sectors in the write loop *)

Section PartialSectorClaim.
Context {FM : Type}.
Implicit Types (w : world FM) (i : inode.t).

(** C4, as the code has it: a pass of the write loop that handles a partial
    sector, at an offset that is not negative, reads the sector into the
    bounce buffer, copies the chunk over the bytes from [sector_ofs] on, and
    writes the whole bounce buffer back.  The buffer is filled with zeros
    instead only when the chunk starts at offset 0 within the sector and
    reaches the end of the sector, which is the case of a whole sector and
    so never the case in such a pass. *)
Theorem write_partial_sector_reads_first malloc_ok w inode i
    (buffer : list byte) size offset bytes bounce :
  points_to w inode i ->
  length_ok (inode.data i) ->
  disk_wf (filesys_disk w) ->
  0 <= offset < 2 ^ 31 -> 0 < size -> 0 <= bytes ->
  bytes + size < 2 ^ 31 ->
  bytes + size <= Z.of_nat (length buffer) ->
  let len := inode_disk.length (inode.data i) in
  let chunk := chunk_of len size offset in
  let ofs := offset mod DISK_SECTOR_SIZE in
  let sec := sector_of (inode.data i) offset in
  partial_sector len size offset = true ->
  bounce = true \/ malloc_ok = true ->
  code_zero_fills len size offset = false
  /\ inode_write_iter malloc_ok inode
       (mkRw buffer size offset bytes bounce) w
     = Ok (Continue
             (mkRw buffer (size - chunk) (offset + chunk) (bytes + chunk) true,
              disk_write sec
                (splice (filesys_disk w sec) ofs (slice buffer bytes chunk))
                (snd (disk_read sec w)))).
Proof.
  intros Hp Hlen Hwf Ho Hs Hb Hbs Hbuf len chunk ofs sec Hpart Hbm.
  unfold partial_sector in Hpart. fold len chunk ofs in Hpart.
  apply andb_true_iff in Hpart as [Hpos%Z.ltb_lt Hnf%negb_true_iff].
  assert (Hm : 0 <= ofs < DISK_SECTOR_SIZE)
    by (apply Z.mod_pos_bound; unfold DISK_SECTOR_SIZE; lia).
  assert (Hchunk : chunk <= DISK_SECTOR_SIZE - ofs)
    by (unfold chunk, chunk_of, ofs; lia).
  split.
  - unfold code_zero_fills. fold len chunk ofs.
    apply negb_false_iff, orb_true_iff.
    apply andb_false_iff in Hnf as [Hne%Z.eqb_neq|Hne%Z.eqb_neq].
    + left. apply Z.ltb_lt. lia.
    + destruct (decide (ofs = 0)) as [H0|H0].
      * right. apply Z.ltb_lt. lia.
      * left. apply Z.ltb_lt. lia.
  - rewrite (write_iter_eq malloc_ok w inode i) by (assumption || lia).
    fold len chunk ofs sec. rewrite Hnf.
    destruct (Z.leb_spec chunk 0); [lia|].
    assert (Hbrk : negb false && negb bounce && negb malloc_ok = false)
      by (destruct Hbm as [-> | ->]; simpl; [done | by rewrite andb_false_r]).
    rewrite Hbrk, orb_true_r. reflexivity.
Qed.

End PartialSectorClaim.


(** * Null handles, the directory lock, the registry and removal *)

Section HandleClaims.
Context {FM : Type} `{!Allocator FM}.
Implicit Types (w : world FM) (i : inode.t) (a : addr).

(** C6, as the code has it: [inode_close] of a null pointer returns at once
    and leaves the state as it is, and [inode_remove] of a null pointer
    fails its assertion; [inode_length] has no assertion and dereferences
    the null pointer. *)
Theorem null_handles w :
  inode_close NULL w = Ok w
  /\ inode_remove NULL w = Panic
  /\ inode_length NULL w = Undef.
Proof. repeat split. Qed.

(** C7, as the code has it: [inode_open] does not initialise the directory
    lock.  An inode that it builds is returned with [dir_lock] as [malloc]
    left it, only [inode_lock] being initialised; an inode that it reuses is
    returned with [dir_lock] in the state it was in.  The lock is
    initialised when, and each time, the caller calls [inode_dir_init] on
    the handle. *)
Theorem open_leaves_dir_lock w malloc_ok sector :
  registry_ok w ->
  (not_open sector w ->
   exists a w' i,
     inode_open true sector w = Ok (Some a, w')
     /\ heap w' !! a = Some i
     /\ inode.dir_lock i = LockUninit /\ inode.inode_lock i = LockFree)
  /\ (forall a i, a ∈ open_inodes w -> heap w !! a = Some i ->
      inode.sector i = sector -> inode.open_cnt i + 1 < 2 ^ 31 ->
      exists w' i',
        inode_open malloc_ok sector w = Ok (Some a, w')
        /\ heap w' !! a = Some i'
        /\ inode.dir_lock i' = inode.dir_lock i)
  /\ (forall a i, heap w !! a = Some i ->
      exists w' i',
        inode_dir_init (Some a) w = Ok w'
        /\ heap w' !! a = Some i'
        /\ inode.dir_lock i' = LockFree).
Proof.
  intros Hreg. split; [|split].
  - intros Hno. eexists _, _, _. split; [by apply open_miss|].
    split; [apply lookup_insert_eq|]. done.
  - intros a i Ha Hi Hs Hc.
    destruct (reg_live w Hreg a Ha) as (i' & Hi' & Hcnt & _).
    assert (i' = i) as -> by congruence.
    rewrite (open_hit malloc_ok sector a i w Hreg Ha Hi Hs).
    rewrite int32_in_range by lia. rewrite bind_Ok.
    eexists _, _. split; [reflexivity|].
    split; [apply heap_put|]. done.
  - intros a i Hi. unfold inode_dir_init.
    erewrite update_live; [|exact Hi|reflexivity].
    eexists _, _. split; [reflexivity|].
    split; [apply heap_put|]. done.
Qed.

(** C8: after every sequence of calls of [inode_open], [inode_reopen] and
    [inode_close] that runs from the initialised module, the list of open
    inodes holds at most one inode for a sector, each once, and every inode
    on it is allocated and has an [open_cnt] of at least 1.  In such a
    state, [inode_open] of the sector of an inode on the list returns that
    inode with [open_cnt] one higher, and [inode_open] of a sector that has
    no inode on the list puts exactly one new inode, with [open_cnt] 1, in
    front of the list. *)
Theorem one_inode_per_sector (w0 : world FM) (ops : list op) w :
  run ops (inode_init w0) = Ok w ->
  (forall a b i j, a ∈ open_inodes w -> b ∈ open_inodes w ->
     heap w !! a = Some i -> heap w !! b = Some j ->
     inode.sector i = inode.sector j -> a = b)
  /\ NoDup (open_inodes w)
  /\ (forall a, a ∈ open_inodes w ->
      exists i, heap w !! a = Some i /\ 1 <= inode.open_cnt i)
  /\ (forall malloc_ok a i, a ∈ open_inodes w -> heap w !! a = Some i ->
      inode.open_cnt i + 1 < 2 ^ 31 ->
      inode_open malloc_ok (inode.sector i) w
      = Ok (Some a, put a (inode.set_open_cnt (inode.open_cnt i + 1) i) w))
  /\ (forall sector, not_open sector w ->
      let a := fresh (dom (heap w)) in
      (a ∉ open_inodes w)
      /\ exists w',
           inode_open true sector w = Ok (Some a, w')
           /\ open_inodes w' = a :: open_inodes w
           /\ heap w' = <[a := opened sector w]> (heap w)
           /\ inode.open_cnt (opened sector w) = 1
           /\ inode.sector (opened sector w) = sector).
Proof.
  intros Hrun.
  assert (Hreg : registry_ok w)
    by (apply (run_registry_ok ops (inode_init w0));
        [apply registry_ok_init | exact Hrun]).
  split; [apply (reg_unique w Hreg)|].
  split; [apply (reg_nodup w Hreg)|].
  split.
  { intros a Ha. destruct (reg_live w Hreg a Ha) as (i & Hi & Hc & _).
    by exists i. }
  split.
  - intros malloc_ok a i Ha Hi Hc.
    destruct (reg_live w Hreg a Ha) as (i' & Hi' & Hcnt & _).
    assert (i' = i) as -> by congruence.
    rewrite (open_hit malloc_ok (inode.sector i) a i w Hreg Ha Hi eq_refl).
    by rewrite int32_in_range by lia.
  - intros sector Hno a. split; [by apply fresh_not_open|].
    exists (open_new sector w). split; [by apply open_miss|]. done.
Qed.

(** C9: [inode_remove] of a live inode sets [removed] and changes nothing
    else: not the disk, the allocator, the calls made, the list of open
    inodes or any other inode.  Reading and writing go on exactly as before
    through every handle, a second [inode_remove] changes nothing, and the
    sectors are given back to the allocator by the [inode_close] of the
    last opener and by no earlier one. *)
Theorem remove_only_marks w a i :
  heap w !! a = Some i ->
  let i1 := inode.set_removed true i in
  let w1 := put a i1 w in
  inode_remove (Some a) w = Ok w1
  /\ filesys_disk w1 = filesys_disk w /\ free_map w1 = free_map w
  /\ io_log w1 = io_log w /\ open_inodes w1 = open_inodes w
  /\ inode_list_lock w1 = inode_list_lock w
  /\ (forall b, b ≠ a -> heap w1 !! b = heap w !! b)
  /\ (forall malloc_ok inode buffer size offset,
        inode_read_at malloc_ok inode buffer size offset w1
        = ('(n, buf, w') ← inode_read_at malloc_ok inode buffer size offset w;
           Ok (n, buf, put a i1 w')))
  /\ (forall malloc_ok inode buffer size offset,
        inode_write_at malloc_ok inode buffer size offset w1
        = ('(n, w') ← inode_write_at malloc_ok inode buffer size offset w;
           Ok (n, put a i1 w')))
  /\ inode_remove (Some a) w1 = Ok w1
  /\ (inode.inode_lock i = LockFree -> inode_list_lock w = LockFree ->
      1 <= inode.open_cnt i < 2 ^ 31 ->
      exists w2,
        inode_close (Some a) w1 = Ok w2
        /\ filesys_disk w2 = filesys_disk w
        /\ (inode.open_cnt i = 1 ->
            io_log w2
            = io_log w
              ++ [EvRelease (inode.sector i) 1;
                  EvRelease (inode_disk.start (inode.data i))
                    (bytes_to_sectors (inode_disk.length (inode.data i)))]
            /\ free_map w2
               = free_map_release (inode_disk.start (inode.data i))
                   (bytes_to_sectors (inode_disk.length (inode.data i)))
                   (free_map_release (inode.sector i) 1 (free_map w))
            /\ heap w2 !! a = None /\ a ∉ open_inodes w2)
        /\ (1 < inode.open_cnt i ->
            io_log w2 = io_log w /\ free_map w2 = free_map w
            /\ heap w2 !! a
               = Some (inode.set_open_cnt (inode.open_cnt i - 1) i1)
            /\ open_inodes w2 = open_inodes w)).
Proof.
  intros Hi i1 w1.
  assert (Hi1 : heap w1 !! a = Some i1) by apply heap_put.
  split; [by apply remove_live|].
  do 5 (split; [reflexivity|]).
  split; [intros b Hb; by apply heap_put_ne|].
  split; [intros; by apply (read_at_put a i i1)|].
  split; [intros; by apply (write_at_put a i i1)|].
  split.
  { rewrite (remove_live a i1 w1 Hi1). f_equal. unfold w1.
    rewrite put_put. reflexivity. }
  intros Hlk Hll Hc.
  rewrite (close_live a i1 w1 Hi1 Hlk Hll). simpl inode.open_cnt.
  rewrite int32_in_range by lia. rewrite bind_Ok.
  eexists. split; [reflexivity|].
  destruct (Z.eqb_spec (inode.open_cnt i - 1) 0) as [H0|H0].
  - split; [reflexivity|]. split; [|lia].
    intros _. unfold closed_last. simpl.
    rewrite <- app_assoc. repeat split.
    + apply lookup_delete_eq.
    + intros [Hne _]%list_elem_of_filter. done.
  - split; [reflexivity|]. split; [lia|].
    intros _. repeat split. simpl. by rewrite lookup_insert_eq.
Qed.

End HandleClaims.


(** * The functions on concrete inputs *)

(** C4, as the specification has it, fails: a write of the whole of a file
    of 100 bytes starts at offset 0 within the sector and extends to the end
    of the file's data in it, and yet the pass reads the sector from the
    disk before it writes it. *)
Lemma write_to_end_of_file_reads_sector :
  partial_sector 100 100 0 = true
  /\ spec_zero_fills 100 100 0 = true
  /\ code_zero_fills 100 100 0 = false
  /\ exists st w',
       inode_write_iter true (Some 1%positive)
         (mkRw (replicate 100%nat "X"%byte) 100 0 0 false) small_world
       = Ok (Continue (st, w'))
       /\ map is_disk_read (io_log w') = [true; false].
Proof.
  split; [reflexivity|]. split; [reflexivity|]. split; [reflexivity|].
  eexists _, _. split; [vm_compute; reflexivity|]. reflexivity.
Qed.

(** C6, as the specification has it, fails: [inode_length] of a null
    pointer does not stop at an assertion. *)
Lemma inode_length_null_is_no_assertion :
  inode_length NULL initial_world = Undef
  /\ inode_length NULL initial_world <> Panic.
Proof. split; [reflexivity | discriminate]. Qed.

(** C7, as the specification has it, fails: the handle that [inode_open]
    returns for a sector that was not open has a directory lock that
    nothing has initialised, and taking that lock is undefined. *)
Lemma open_returns_uninitialised_dir_lock :
  exists a w' i,
    inode_open true 7 initial_world = Ok (Some a, w')
    /\ heap w' !! a = Some i
    /\ inode.dir_lock i = LockUninit
    /\ inode_dir_lock (Some a) w' = Undef.
Proof.
  eexists _, _, _. split; [vm_compute; reflexivity|].
  split; [vm_compute; reflexivity|]. split; reflexivity.
Qed.

Lemma example_world_points_to :
  points_to example_world (Some 1%positive) example_inode.
Proof. exists 1%positive. split; reflexivity. Defined.

Lemma example_world_disk_wf : disk_wf (filesys_disk example_world).
Proof. intros s. reflexivity. Defined.

Lemma example_inode_length_ok : length_ok (inode.data example_inode).
Proof. unfold length_ok. simpl. lia. Defined.

(** C1 on the file of 1000 bytes: 20 bytes at offset 500 lie across the
    boundary between the sectors 10 and 11, 20 bytes at offset 0 do not. *)
Lemma roundtrip_across_and_within_sectors :
  let b := replicate 20%nat "a"%byte in
  let buf := replicate 30%nat x00 in
  (exists w1 w2,
     inode_write_at true (Some 1%positive) b 20 500 example_world
     = Ok (20, w1)
     /\ inode_read_at true (Some 1%positive) buf 20 500 w1
        = Ok (20, b ++ replicate 10%nat x00, w2))
  /\ (exists w1 w2,
        inode_write_at true (Some 1%positive) b 20 0 example_world
        = Ok (20, w1)
        /\ inode_read_at true (Some 1%positive) buf 20 0 w1
           = Ok (20, b ++ replicate 10%nat x00, w2)).
Proof.
  split.
  - apply (write_then_read_roundtrip example_world (Some 1%positive)
             example_inode (replicate 20%nat "a"%byte)
             (replicate 30%nat x00) 500).
    + exact example_world_points_to.
    + exact example_inode_length_ok.
    + exact example_world_disk_wf.
    + lia.
    + simpl. lia.
    + simpl. lia.
  - apply (write_then_read_roundtrip example_world (Some 1%positive)
             example_inode (replicate 20%nat "a"%byte)
             (replicate 30%nat x00) 0).
    + exact example_world_points_to.
    + exact example_inode_length_ok.
    + exact example_world_disk_wf.
    + lia.
    + simpl. lia.
    + simpl. lia.
Defined.

(** C5 on the file of 1000 bytes: 600 bytes asked for at offset 700. *)
Lemma count_at_end_of_file :
  exists nr bufr wr nw ww,
    inode_read_at true (Some 1%positive) (replicate 600%nat x00) 600 700
      example_world = Ok (nr, bufr, wr)
    /\ inode_write_at true (Some 1%positive) (replicate 600%nat x00) 600 700
         example_world = Ok (nw, ww)
    /\ nr = 300 /\ nw = 300.
Proof.
  destruct (read_write_count true example_world (Some 1%positive)
              example_inode (replicate 600%nat x00) 600 700)
    as (nr & bufr & wr & nw & ww & Hr & Hw & Hn & _).
  - exact example_world_points_to.
  - exact example_inode_length_ok.
  - exact example_world_disk_wf.
  - lia.
  - lia.
  - simpl. lia.
  - exists nr, bufr, wr, nw, ww.
    split; [exact Hr|]. split; [exact Hw|].
    destruct (Hn eq_refl) as [-> ->]. split; reflexivity.
Defined.

(** The sectors read on the file of 1000 bytes for an offset that is not
    negative. *)
Lemma sectors_of_read_in_range :
  exists nr bufr wr evr,
    inode_read_at true (Some 1%positive) (replicate 600%nat x00) 600 300
      example_world = Ok (nr, bufr, wr)
    /\ io_log wr = io_log example_world ++ evr
    /\ Forall (fun e => exists sec, event_sector e = Some sec
                                    /\ 10 <= sec < 12) evr.
Proof.
  destruct (accesses_stay_in_file true example_world (Some 1%positive)
              example_inode (replicate 600%nat x00) 600 300)
    as (nr & bufr & wr & nw & ww & evr & evw & Hr & Hlog & Hev & _).
  - exact example_world_points_to.
  - exact example_inode_length_ok.
  - exact example_world_disk_wf.
  - lia.
  - lia.
  - simpl. lia.
  - exists nr, bufr, wr, evr.
    split; [exact Hr|]. split; [exact Hlog|].
    eapply Forall_impl; [exact Hev|].
    intros e (sec & He & _ & Hrange). exists sec. split; [exact He|].
    apply Hrange; vm_compute; discriminate.
Defined.

(** C4 on a file of 100 bytes: the second 50 bytes. *)
Lemma write_second_half_of_small_file :
  exists st w',
    inode_write_iter true (Some 1%positive)
      (mkRw (replicate 50%nat "X"%byte) 50 50 0 false) small_world
    = Ok (Continue (st, w'))
    /\ map is_disk_read (io_log w') = [true; false].
Proof.
  destruct (write_partial_sector_reads_first true small_world
              (Some 1%positive) small_inode (replicate 50%nat "X"%byte)
              50 50 0 false) as [_ Heq].
  - exists 1%positive. split; reflexivity.
  - unfold length_ok. simpl. lia.
  - intros s. reflexivity.
  - lia.
  - lia.
  - lia.
  - lia.
  - simpl. lia.
  - reflexivity.
  - right. reflexivity.
  - eexists _, _. split; [exact Heq|]. reflexivity.
Defined.

(** C3: an inode of 100000 bytes needs more sectors than are free. *)
Lemma create_without_space :
  exists w',
    inode_create true 7 100000 initial_world = Ok (false, w')
    /\ filesys_disk w' = filesys_disk initial_world
    /\ io_log w' = [EvAllocate 196].
Proof.
  destruct (create_failure_writes_nothing true 7 100000 initial_world)
    as (w' & Hc & Hd & Hlog & _).
  - lia.
  - right. reflexivity.
  - exists w'. split; [exact Hc|]. split; [exact Hd|].
    rewrite Hlog. reflexivity.
Defined.

(** C7: a second [inode_open] of sector 7 returns the inode of the first,
    whose directory lock is still as [malloc] left it. *)
Lemma reopen_keeps_dir_lock :
  exists w' i',
    inode_open true 7 example_world = Ok (Some 1%positive, w')
    /\ heap w' !! 1%positive = Some i'
    /\ inode.dir_lock i' = LockUninit.
Proof.
  assert (Hreg : registry_ok example_world).
  { split.
    - reflexivity.
    - apply NoDup_singleton.
    - intros a ->%list_elem_of_singleton. exists example_inode.
      split; [reflexivity|]. split; [simpl; lia | reflexivity].
    - intros a b i j ->%list_elem_of_singleton ->%list_elem_of_singleton.
      reflexivity. }
  destruct (open_leaves_dir_lock example_world true 7 Hreg)
    as (_ & Hhit & _).
  destruct (Hhit 1%positive example_inode) as (w' & i' & Ho & Hi & Hd).
  - apply list_elem_of_singleton. reflexivity.
  - reflexivity.
  - reflexivity.
  - simpl. lia.
  - exists w', i'. split; [exact Ho|]. split; [exact Hi|]. exact Hd.
Defined.

(** C8: sector 7 opened twice and sector 9 once, then one of the two
    openers of sector 7 gone. *)
Lemma registry_after_four_calls :
  exists w,
    run [OpOpen true 7; OpOpen true 7; OpOpen true 9;
         OpClose (Some 1%positive)] (inode_init initial_world) = Ok w
    /\ NoDup (open_inodes w)
    /\ (forall a, a ∈ open_inodes w ->
        exists i, heap w !! a = Some i /\ 1 <= inode.open_cnt i).
Proof.
  eexists. split; [vm_compute; reflexivity|].
  match goal with
  | |- NoDup (open_inodes ?w) /\ _ =>
      destruct (one_inode_per_sector initial_world
                  [OpOpen true 7; OpOpen true 7; OpOpen true 9;
                   OpClose (Some 1%positive)] w)
        as (_ & Hnd & Hlive & _)
  end.
  - vm_compute. reflexivity.
  - split; [exact Hnd | exact Hlive].
Defined.

(** C9: [inode_remove] of the inode of the file of 1000 bytes. *)
Lemma remove_then_last_close :
  exists w1 w2,
    inode_remove (Some 1%positive) example_world = Ok w1
    /\ filesys_disk w1 = filesys_disk example_world
    /\ inode_remove (Some 1%positive) w1 = Ok w1
    /\ inode_close (Some 1%positive) w1 = Ok w2
    /\ io_log w2 = [EvRelease 7 1; EvRelease 10 2].
Proof.
  destruct (remove_only_marks example_world 1%positive example_inode)
    as (Hrm & Hd & _ & _ & _ & _ & _ & _ & _ & Hrm2 & Hclose).
  - reflexivity.
  - destruct Hclose as (w2 & Hc & _ & Hlast & _).
    + reflexivity.
    + reflexivity.
    + simpl. lia.
    + eexists _, w2. split; [exact Hrm|]. split; [exact Hd|].
      split; [exact Hrm2|]. split; [exact Hc|].
      destruct Hlast as (Hlog & _); [reflexivity|].
      rewrite Hlog. reflexivity.
Defined.

Lemma not_in_file_9 : ~ in_file (inode.data example_inode) 9.
Proof.
  intros (k & Hk & Heq). simpl in Hk, Heq.
  change (bytes_to_sectors 1000) with 2 in Hk.
  rewrite uint32_small in Heq by lia. lia.
Qed.

(** C10 fails for an offset below 0: on the file of 1000 bytes in the
    sectors 10 and 11, [byte_to_sector] answers sector 9 for the offset
    -512, [inode_read_at] of 512 bytes at that offset returns 512 and has
    read sector 9, and [inode_write_at] has overwritten sector 9. *)
Lemma access_before_first_sector :
  byte_to_sector (Some 1%positive) (-512) example_world = Ok 9
  /\ ~ in_file (inode.data example_inode) 9
  /\ (exists buf w',
        inode_read_at true (Some 1%positive) (replicate 512%nat x00) 512
          (-512) example_world = Ok (512, buf, w')
        /\ io_log w' = [EvDiskRead 9])
  /\ (exists w',
        inode_write_at true (Some 1%positive) (replicate 512%nat "X"%byte)
          512 (-512) example_world = Ok (512, w')
        /\ io_log w' = [EvDiskWrite 9 (replicate 512%nat "X"%byte)]
        /\ filesys_disk w' 9 = replicate 512%nat "X"%byte).
Proof.
  split; [reflexivity|]. split; [exact not_in_file_9|]. split.
  - eexists _, _. split; [vm_compute; reflexivity|]. reflexivity.
  - eexists. split; [vm_compute; reflexivity|]. split; reflexivity.
Qed.

(** * More about reading and writing *)

Section MoreReadWrite.
Context {FM : Type}.
Implicit Types (w : world FM) (i : inode.t).

Lemma nth_splice_Z l pos (src : list byte) k :
  0 <= pos -> pos + Z.of_nat (length src) <= Z.of_nat (length l) ->
  nth k (splice l pos src) x00
  = if decide (pos <= Z.of_nat k < pos + Z.of_nat (length src))
    then nth (k - Z.to_nat pos) src x00
    else nth k l x00.
Proof.
  intros Hp Hl. rewrite nth_splice by assumption.
  repeat destruct (decide _); try lia; reflexivity.
Qed.

(** X1: [inode_read_at] only reads.  For a size and an offset that are not
    negative it returns a count [n <= s], puts the [n] bytes of the file
    from [o] at the start of the buffer and leaves the rest of the buffer as
    it was; the disk, the inodes, the list of open inodes and the allocator
    are unchanged, and the only calls it makes are calls of [disk_read]. *)
Theorem read_changes_only_the_buffer malloc_ok w inode i (buffer : list byte)
    s o :
  points_to w inode i ->
  length_ok (inode.data i) ->
  disk_wf (filesys_disk w) ->
  0 <= o < 2 ^ 31 -> 0 <= s < 2 ^ 31 ->
  s <= Z.of_nat (length buffer) ->
  exists n buf' w' evs,
    inode_read_at malloc_ok inode buffer s o w = Ok (n, buf', w')
    /\ 0 <= n <= s
    /\ filesys_disk w' = filesys_disk w /\ heap w' = heap w
    /\ open_inodes w' = open_inodes w /\ free_map w' = free_map w
    /\ io_log w' = io_log w ++ evs
    /\ Forall (fun e => is_disk_read e = true) evs
    /\ length buf' = length buffer
    /\ (forall k, (k < Z.to_nat n)%nat ->
        nth k buf' x00
        = file_byte (filesys_disk w) (inode.data i) (o + Z.of_nat k))
    /\ (forall k, (Z.to_nat n <= k)%nat -> nth k buf' x00 = nth k buffer x00).
Proof.
  intros Hp Hlen Hwf Ho Hs Hbuf.
  destruct (read_at_spec malloc_ok w inode i buffer s o)
    as (n & evs & Hr & Hn & _ & Hev); try assumption.
  assert (Hns : 0 <= n <= s) by (unfold transferred in Hn; lia).
  eexists n, _, _, evs. split; [exact Hr|]. split; [exact Hns|].
  do 5 (split; [reflexivity|]).
  split.
  { eapply Forall_impl; [exact Hev|]. by intros e (sec & -> & _). }
  assert (Hfr : Z.of_nat (length (file_range (filesys_disk w) (inode.data i)
                                    o n)) = n)
    by (rewrite length_file_range; lia).
  split; [apply length_splice; lia|].
  split.
  - intros k Hk. rewrite nth_splice_Z by lia.
    rewrite decide_True by lia.
    rewrite nth_file_range by (simpl; lia). f_equal. simpl. lia.
  - intros k Hk. rewrite nth_splice_Z by lia.
    rewrite decide_False by lia. reflexivity.
Qed.

(** X2: [inode_write_at] changes the [n] bytes of the file from [o], where
    [n <= s] is the count it returns, and nothing else: the other bytes of
    the file, the sectors that are not sectors of the file, the inodes and
    with them the length of the file, the list of open inodes and the
    allocator are as before.  The file never grows. *)
Theorem write_changes_only_the_range malloc_ok w inode i (buffer : list byte)
    s o :
  points_to w inode i ->
  length_ok (inode.data i) ->
  disk_wf (filesys_disk w) ->
  0 <= o < 2 ^ 31 -> 0 <= s < 2 ^ 31 ->
  s <= Z.of_nat (length buffer) ->
  exists n w',
    inode_write_at malloc_ok inode buffer s o w = Ok (n, w')
    /\ 0 <= n <= s
    /\ heap w' = heap w /\ inode_length inode w' = inode_length inode w
    /\ open_inodes w' = open_inodes w /\ free_map w' = free_map w
    /\ disk_wf (filesys_disk w')
    /\ (forall p, 0 <= p < 2 ^ 31 -> ~ o <= p < o + n ->
        file_byte (filesys_disk w') (inode.data i) p
        = file_byte (filesys_disk w) (inode.data i) p)
    /\ (forall p, o <= p < o + n ->
        file_byte (filesys_disk w') (inode.data i) p
        = nth (Z.to_nat (p - o)) buffer x00)
    /\ (forall sec, ~ in_file (inode.data i) sec ->
        filesys_disk w' sec = filesys_disk w sec).
Proof.
  intros Hp Hlen Hwf Ho Hs Hbuf.
  destruct (write_at_spec malloc_ok w inode i buffer s o)
    as (n & evs & d' & Hw & Hn & _ & Hwf' & Hfb & Hfr & _); try assumption.
  assert (Hns : 0 <= n <= s) by (unfold transferred in Hn; lia).
  eexists n, _. split; [exact Hw|]. split; [exact Hns|].
  do 4 (split; [reflexivity|]).
  split; [exact Hwf'|].
  split; [|split; [|exact Hfr]].
  - intros p Hp0 Hout. simpl. rewrite (Hfb p Hp0). by rewrite decide_False.
  - intros p Hin. simpl. unfold length_ok, transferred in *.
    rewrite Hfb by lia. by rewrite decide_True.
Qed.

Lemma read_iter_eof malloc_ok w inode i st :
  points_to w inode i -> length_ok (inode.data i) ->
  inode_disk.length (inode.data i) <= rw_offset st < 2 ^ 31 ->
  inode_read_iter malloc_ok inode st w = Ok (Break (st, w)).
Proof.
  intros Hp Hlen Ho. unfold inode_read_iter, length_ok in *.
  rewrite (byte_to_sector_points_to _ _ _ _ Hp), bind_Ok.
  rewrite (inode_length_points_to _ _ _ Hp), bind_Ok.
  set (len := inode_disk.length (inode.data i)) in *.
  set (offset := rw_offset st) in *.
  assert (Hrem : Z.rem offset DISK_SECTOR_SIZE = offset mod DISK_SECTOR_SIZE)
    by (apply Z.rem_mod_nonneg; unfold DISK_SECTOR_SIZE; lia).
  assert (Hmod : 0 <= offset mod DISK_SECTOR_SIZE < DISK_SECTOR_SIZE)
    by (apply Z.mod_pos_bound; unfold DISK_SECTOR_SIZE; lia).
  rewrite (int32_in_range (len - offset)), bind_Ok by lia.
  rewrite int32_in_range, bind_Ok
    by (rewrite Hrem; unfold DISK_SECTOR_SIZE in *; lia).
  rewrite (chunk_of_cases len (rw_size st) offset) by lia.
  destruct (Z.leb_spec (chunk_of len (rw_size st) offset) 0) as [|Hc];
    [reflexivity|].
  unfold chunk_of in Hc. lia.
Qed.

Lemma write_iter_eof malloc_ok w inode i st :
  points_to w inode i -> length_ok (inode.data i) ->
  inode_disk.length (inode.data i) <= rw_offset st < 2 ^ 31 ->
  inode_write_iter malloc_ok inode st w = Ok (Break (st, w)).
Proof.
  intros Hp Hlen Ho. unfold inode_write_iter, length_ok in *.
  rewrite (byte_to_sector_points_to _ _ _ _ Hp), bind_Ok.
  rewrite (inode_length_points_to _ _ _ Hp), bind_Ok.
  set (len := inode_disk.length (inode.data i)) in *.
  set (offset := rw_offset st) in *.
  assert (Hrem : Z.rem offset DISK_SECTOR_SIZE = offset mod DISK_SECTOR_SIZE)
    by (apply Z.rem_mod_nonneg; unfold DISK_SECTOR_SIZE; lia).
  assert (Hmod : 0 <= offset mod DISK_SECTOR_SIZE < DISK_SECTOR_SIZE)
    by (apply Z.mod_pos_bound; unfold DISK_SECTOR_SIZE; lia).
  rewrite (int32_in_range (len - offset)), bind_Ok by lia.
  rewrite int32_in_range, bind_Ok
    by (rewrite Hrem; unfold DISK_SECTOR_SIZE in *; lia).
  rewrite (chunk_of_cases len (rw_size st) offset) by lia.
  destruct (Z.leb_spec (chunk_of len (rw_size st) offset) 0) as [|Hc];
    [reflexivity|].
  unfold chunk_of in Hc. lia.
Qed.

(** X3: at an offset at or beyond the end of the file, [inode_read_at] and
    [inode_write_at] return 0 whatever the size, make no call and leave the
    buffer and the state as they were. *)
Theorem nothing_beyond_end_of_file malloc_ok w inode i (buffer : list byte)
    s o :
  points_to w inode i ->
  length_ok (inode.data i) ->
  inode_disk.length (inode.data i) <= o < 2 ^ 31 ->
  inode_read_at malloc_ok inode buffer s o w = Ok (0, buffer, w)
  /\ inode_write_at malloc_ok inode buffer s o w = Ok (0, w).
Proof.
  intros Hp Hlen Ho. unfold inode_read_at, inode_write_at.
  destruct (Z.to_nat s) as [|fuel] eqn:Hf; simpl.
  - destruct (Z.ltb_spec 0 s); [lia|]. done.
  - destruct (Z.ltb_spec 0 s); [|done].
    rewrite (read_iter_eof malloc_ok w inode i) by assumption.
    rewrite (write_iter_eof malloc_ok w inode i) by assumption.
    done.
Qed.

(** X4: with a size of 0 or less, [inode_read_at] and [inode_write_at]
    return 0 and touch nothing, whatever the inode pointer is, a null
    pointer included; with a size above 0 and a null pointer they stop at
    the assertion of [byte_to_sector]. *)
Theorem no_size_or_no_inode malloc_ok w (buffer : list byte) s o :
  (s <= 0 ->
   forall inode,
     inode_read_at malloc_ok inode buffer s o w = Ok (0, buffer, w)
     /\ inode_write_at malloc_ok inode buffer s o w = Ok (0, w))
  /\ (0 < s ->
      inode_read_at malloc_ok NULL buffer s o w = Panic
      /\ inode_write_at malloc_ok NULL buffer s o w = Panic).
Proof.
  split.
  - intros Hs inode. unfold inode_read_at, inode_write_at.
    replace (Z.to_nat s) with 0%nat by lia. simpl.
    destruct (Z.ltb_spec 0 s); [lia|]. done.
  - intros Hs. unfold inode_read_at, inode_write_at.
    destruct (Z.to_nat s) as [|fuel] eqn:Hf; [lia|]. simpl.
    destruct (Z.ltb_spec 0 s); [|lia]. done.
Qed.

Lemma transferred_whole_stop len size offset :
  0 <= offset -> 0 < size ->
  let chunk := chunk_of len size offset in
  chunk <= 0
  \/ (offset mod DISK_SECTOR_SIZE =? 0) && (chunk =? DISK_SECTOR_SIZE) = false ->
  transferred_whole len size offset = 0.
Proof.
  intros Ho Hs chunk Hstop. unfold transferred_whole.
  destruct (Z.eqb_spec (offset mod DISK_SECTOR_SIZE) 0) as [H0|]; [|done].
  assert (Ht : 0 <= transferred len size offset < DISK_SECTOR_SIZE).
  { unfold chunk, chunk_of, transferred, DISK_SECTOR_SIZE in *.
    rewrite H0 in Hstop.
    destruct Hstop as [Hle|Hnf]; [lia|].
    simpl in Hnf. apply Z.eqb_neq in Hnf. lia. }
  rewrite Z.div_small by exact Ht. unfold DISK_SECTOR_SIZE. lia.
Qed.

Lemma transferred_whole_step len size offset :
  0 <= offset ->
  (offset mod DISK_SECTOR_SIZE =? 0)
  && (chunk_of len size offset =? DISK_SECTOR_SIZE) = true ->
  transferred_whole len size offset
  = DISK_SECTOR_SIZE
    + transferred_whole len (size - DISK_SECTOR_SIZE)
        (offset + DISK_SECTOR_SIZE)
  /\ chunk_of len size offset = DISK_SECTOR_SIZE.
Proof.
  intros Ho [H0%Z.eqb_eq Hc%Z.eqb_eq]%andb_true_iff.
  split; [|exact Hc].
  unfold transferred_whole.
  assert (Hm : (offset + DISK_SECTOR_SIZE) mod DISK_SECTOR_SIZE = 0).
  { unfold DISK_SECTOR_SIZE in *.
    rewrite <- Z.add_mod_idemp_l, H0 by lia. reflexivity. }
  rewrite H0, Hm. simpl.
  rewrite (transferred_step len size offset) by (rewrite Hc; done).
  rewrite Hc.
  replace (DISK_SECTOR_SIZE
           + transferred len (size - DISK_SECTOR_SIZE)
               (offset + DISK_SECTOR_SIZE))
    with (1 * DISK_SECTOR_SIZE
          + transferred len (size - DISK_SECTOR_SIZE)
              (offset + DISK_SECTOR_SIZE)) by lia.
  rewrite Z.add_comm, Z.div_add by done. lia.
Qed.

Lemma read_loop_no_bounce inode i (fuel : nat) :
  forall buffer size offset bytes w,
  points_to w inode i ->
  length_ok (inode.data i) ->
  disk_wf (filesys_disk w) ->
  0 <= offset < 2 ^ 31 -> 0 <= size -> 0 <= bytes ->
  bytes + size < 2 ^ 31 ->
  bytes + size <= Z.of_nat (length buffer) ->
  (Z.to_nat size <= fuel)%nat ->
  exists st' w',
    inode_read_loop fuel false inode (mkRw buffer size offset bytes false) w
    = Ok (st', w')
    /\ rw_bytes st'
       = bytes + transferred_whole (inode_disk.length (inode.data i))
                   size offset.
Proof.
  set (d := inode.data i). set (len := inode_disk.length d).
  induction fuel as [|fuel IH];
    intros buffer size offset bytes w Hp Hlen Hwf Ho Hs Hb Hbs Hbuf Hf.
  - assert (size = 0) as -> by lia. eexists _, _. split; [reflexivity|].
    simpl. unfold transferred_whole, transferred.
    destruct (_ =? _); [|lia].
    rewrite Z.div_small; unfold DISK_SECTOR_SIZE; lia.
  - simpl inode_read_loop. simpl rw_size.
    destruct (Z.ltb_spec 0 size) as [Hpos|Hnpos].
    2:{ assert (size = 0) as -> by lia. eexists _, _. split; [reflexivity|].
        simpl. unfold transferred_whole, transferred.
        destruct (_ =? _); [|lia].
        rewrite Z.div_small; unfold DISK_SECTOR_SIZE; lia. }
    rewrite (read_iter_eq false w inode i) by (assumption || lia).
    fold d. fold len.
    destruct (Z.leb_spec (chunk_of len size offset) 0) as [Hc0|Hc0].
    { rewrite bind_Ok. eexists _, _. split; [reflexivity|]. simpl.
      rewrite transferred_whole_stop by (lia || by left). lia. }
    destruct ((offset mod DISK_SECTOR_SIZE =? 0)
              && (chunk_of len size offset =? DISK_SECTOR_SIZE)) eqn:Hfull.
    + cbn [negb andb orb]. rewrite bind_Ok.
      destruct (transferred_whole_step len size offset) as [Hstep Hc];
        [lia | exact Hfull |].
      rewrite Hc. cbn [negb andb orb].
      pose proof Hlen as Hlen'. unfold length_ok in Hlen'. fold d len in Hlen'.
      assert (Hchunk : DISK_SECTOR_SIZE <= size
                       /\ DISK_SECTOR_SIZE <= len - offset)
        by (unfold chunk_of in Hc; lia).
      destruct (IH (splice buffer bytes
                      (slice (filesys_disk w (sector_of d offset))
                         (offset mod DISK_SECTOR_SIZE) DISK_SECTOR_SIZE))
                  (size - DISK_SECTOR_SIZE) (offset + DISK_SECTOR_SIZE)
                  (bytes + DISK_SECTOR_SIZE)
                  (logs [EvDiskRead (sector_of d offset)] w) Hp Hlen Hwf)
        as (st' & w' & Heq & Hbytes); try lia.
      { rewrite length_splice; rewrite ?length_slice;
          rewrite ?(Hwf (sector_of d offset)); try lia.
        all: apply andb_true_iff in Hfull as [H0%Z.eqb_eq _]; lia. }
      exists st', w'. split; [exact Heq|]. rewrite Hbytes, Hstep. lia.
    + cbn [negb andb orb]. rewrite bind_Ok.
      eexists _, _. split; [reflexivity|]. simpl.
      rewrite transferred_whole_stop by (lia || by right). lia.
Qed.

Lemma write_loop_no_bounce inode i (fuel : nat) :
  forall buffer size offset bytes w,
  points_to w inode i ->
  length_ok (inode.data i) ->
  disk_wf (filesys_disk w) ->
  0 <= offset < 2 ^ 31 -> 0 <= size -> 0 <= bytes ->
  bytes + size < 2 ^ 31 ->
  bytes + size <= Z.of_nat (length buffer) ->
  (Z.to_nat size <= fuel)%nat ->
  exists st' w',
    inode_write_loop fuel false inode (mkRw buffer size offset bytes false) w
    = Ok (st', w')
    /\ rw_bytes st'
       = bytes + transferred_whole (inode_disk.length (inode.data i))
                   size offset.
Proof.
  set (d := inode.data i). set (len := inode_disk.length d).
  induction fuel as [|fuel IH];
    intros buffer size offset bytes w Hp Hlen Hwf Ho Hs Hb Hbs Hbuf Hf.
  - assert (size = 0) as -> by lia. eexists _, _. split; [reflexivity|].
    simpl. unfold transferred_whole, transferred.
    destruct (_ =? _); [|lia].
    rewrite Z.div_small; unfold DISK_SECTOR_SIZE; lia.
  - simpl inode_write_loop. simpl rw_size.
    destruct (Z.ltb_spec 0 size) as [Hpos|Hnpos].
    2:{ assert (size = 0) as -> by lia. eexists _, _. split; [reflexivity|].
        simpl. unfold transferred_whole, transferred.
        destruct (_ =? _); [|lia].
        rewrite Z.div_small; unfold DISK_SECTOR_SIZE; lia. }
    rewrite (write_iter_eq false w inode i) by (assumption || lia).
    fold d. fold len.
    destruct (Z.leb_spec (chunk_of len size offset) 0) as [Hc0|Hc0].
    { rewrite bind_Ok. eexists _, _. split; [reflexivity|]. simpl.
      rewrite transferred_whole_stop by (lia || by left). lia. }
    destruct ((offset mod DISK_SECTOR_SIZE =? 0)
              && (chunk_of len size offset =? DISK_SECTOR_SIZE)) eqn:Hfull.
    + cbn [negb andb orb]. rewrite bind_Ok.
      destruct (transferred_whole_step len size offset) as [Hstep Hc];
        [lia | exact Hfull |].
      rewrite Hc. cbn [negb andb orb].
      pose proof Hlen as Hlen'. unfold length_ok in Hlen'. fold d len in Hlen'.
      assert (Hchunk : DISK_SECTOR_SIZE <= size
                       /\ DISK_SECTOR_SIZE <= len - offset)
        by (unfold chunk_of in Hc; lia).
      apply andb_true_iff in Hfull as [H0%Z.eqb_eq _].
      set (buf := splice _ _ _).
      assert (Hwf1 : disk_wf (filesys_disk
                                (disk_write (sector_of d offset) buf w))).
      { simpl. apply disk_wf_insert; [exact Hwf|]. unfold buf.
        rewrite length_splice; rewrite ?length_slice;
          rewrite ?(Hwf (sector_of d offset)); lia. }
      destruct (IH buffer (size - DISK_SECTOR_SIZE)
                  (offset + DISK_SECTOR_SIZE) (bytes + DISK_SECTOR_SIZE)
                  (disk_write (sector_of d offset) buf w) Hp Hlen Hwf1)
        as (st' & w' & Heq & Hbytes); try lia.
      exists st', w'. split; [exact Heq|]. rewrite Hbytes, Hstep. lia.
    + cbn [negb andb orb]. rewrite bind_Ok.
      eexists _, _. split; [reflexivity|]. simpl.
      rewrite transferred_whole_stop by (lia || by right). lia.
Qed.

(** X5: when the bounce buffer cannot be allocated, [inode_read_at] and
    [inode_write_at] still return: they transfer the whole sectors at the
    start of the range and stop at the first partial sector, so the count
    is a multiple of the sector size, and 0 when the offset is not on a
    sector boundary. *)
Theorem whole_sectors_without_bounce_buffer w inode i (buffer : list byte)
    s o :
  points_to w inode i ->
  length_ok (inode.data i) ->
  disk_wf (filesys_disk w) ->
  0 <= o < 2 ^ 31 -> 0 <= s < 2 ^ 31 ->
  s <= Z.of_nat (length buffer) ->
  let n :=
    if o mod DISK_SECTOR_SIZE =? 0
    then DISK_SECTOR_SIZE
         * (Z.min s (Z.max 0 (inode_disk.length (inode.data i) - o))
            / DISK_SECTOR_SIZE)
    else 0 in
  exists bufr wr ww,
    inode_read_at false inode buffer s o w = Ok (n, bufr, wr)
    /\ inode_write_at false inode buffer s o w = Ok (n, ww).
Proof.
  intros Hp Hlen Hwf Ho Hs Hbuf n.
  destruct (read_loop_no_bounce inode i (Z.to_nat s) buffer s o 0 w)
    as (st1 & w1 & Hr & Hb1); try (assumption || lia).
  destruct (write_loop_no_bounce inode i (Z.to_nat s) buffer s o 0 w)
    as (st2 & w2 & Hw & Hb2); try (assumption || lia).
  exists (rw_buffer st1), w1, w2. unfold inode_read_at, inode_write_at.
  rewrite Hr, Hw. simpl. rewrite Hb1, Hb2. done.
Qed.

(** X6: a write inside the file does not change what a read of a range
    that does not overlap it finds, also when both ranges lie in the same
    sector. *)
Theorem write_leaves_other_ranges w inode i (b buf : list byte) o p m :
  points_to w inode i ->
  length_ok (inode.data i) ->
  disk_wf (filesys_disk w) ->
  0 <= o -> o + Z.of_nat (length b) <= inode_disk.length (inode.data i) ->
  0 <= p -> 0 <= m -> p + m <= inode_disk.length (inode.data i) ->
  p + m <= o \/ o + Z.of_nat (length b) <= p ->
  m <= Z.of_nat (length buf) ->
  exists found w0 w1 w2,
    inode_read_at true inode buf m p w = Ok (m, found, w0)
    /\ inode_write_at true inode b (Z.of_nat (length b)) o w
       = Ok (Z.of_nat (length b), w1)
    /\ inode_read_at true inode buf m p w1 = Ok (m, found, w2).
Proof.
  intros Hp Hlen Hwf Ho Hend Hp0 Hm Hpend Hdisj Hbuf.
  pose proof Hlen as Hlen'. unfold length_ok in Hlen'.
  set (n := Z.of_nat (length b)) in *.
  destruct (read_at_spec true w inode i buf m p)
    as (c0 & evs0 & Hr0 & _ & Hc0 & _); try (assumption || lia).
  specialize (Hc0 eq_refl).
  assert (c0 = m) as -> by (unfold transferred in Hc0; lia).
  destruct (write_at_spec true w inode i b n o)
    as (c1 & evs1 & d' & Hw & _ & Hc1 & Hwf' & Hfb & _ & _);
    try (assumption || lia).
  specialize (Hc1 eq_refl).
  assert (c1 = n) as -> by (unfold transferred in Hc1; lia).
  destruct (read_at_spec true (with_disk d' evs1 w) inode i buf m p)
    as (c2 & evs2 & Hr2 & _ & Hc2 & _); try (assumption || lia).
  specialize (Hc2 eq_refl).
  assert (c2 = m) as -> by (unfold transferred in Hc2; lia).
  eexists _, _, _, _. split; [exact Hr0|]. split; [exact Hw|].
  rewrite Hr2. simpl filesys_disk.
  assert (file_range d' (inode.data i) p m
          = file_range (filesys_disk w) (inode.data i) p m) as ->;
    [|reflexivity].
  unfold file_range. apply map_ext_in. intros q Hq.
  apply list_elem_of_In, elem_of_seqZ in Hq.
  rewrite Hfb by lia. rewrite decide_False by lia. reflexivity.
Qed.

End MoreReadWrite.

(** * More about the handles *)

Section MoreRegistry.
Context {FM : Type} `{!Allocator FM}.
Implicit Types (w : world FM) (i : inode.t) (a : addr).

Lemma run_app (l1 l2 : list op) w :
  run (l1 ++ l2) w = (w1 ← run l1 w; run l2 w1).
Proof.
  revert w. induction l1 as [|o l1 IH]; intros w; [reflexivity|].
  simpl. destruct (run_op o w) as [w1| | |]; try reflexivity.
  rewrite !bind_Ok. apply IH.
Qed.

Lemma run_cons (o : op) (l : list op) w :
  run (o :: l) w = (w1 ← run_op o w; run l w1).
Proof. reflexivity. Qed.

Lemma run_op_reopen inode w :
  run_op (OpReopen inode) w = ('(_, w1) ← inode_reopen inode w; Ok w1).
Proof. reflexivity. Qed.

Lemma run_op_close inode w : run_op (OpClose inode) w = inode_close inode w.
Proof. reflexivity. Qed.

Lemma set_open_cnt_same i : inode.set_open_cnt (inode.open_cnt i) i = i.
Proof. by destruct i. Qed.

Lemma set_open_cnt_twice x y i :
  inode.set_open_cnt x (inode.set_open_cnt y i) = inode.set_open_cnt x i.
Proof. reflexivity. Qed.

Lemma run_reopens (n : nat) a i w :
  heap w !! a = Some i -> inode.inode_lock i = LockFree ->
  inode.open_cnt i + Z.of_nat n < 2 ^ 31 -> - 2 ^ 31 <= inode.open_cnt i ->
  run (replicate n (OpReopen (Some a))) w
  = Ok (put a (inode.set_open_cnt (inode.open_cnt i + Z.of_nat n) i) w).
Proof.
  revert i w. induction n as [|n IH]; intros i w Ha Hl Hc Hc'.
  - simpl. rewrite Z.add_0_r, set_open_cnt_same, (put_id a i w Ha).
    reflexivity.
  - simpl replicate. rewrite run_cons, run_op_reopen.
    rewrite (reopen_live a i w Ha Hl).
    rewrite int32_in_range by lia. rewrite !bind_Ok. cbv beta iota.
    rewrite ?bind_Ok.
    rewrite (IH (inode.set_open_cnt (inode.open_cnt i + 1) i))
      by first [apply heap_put | exact Hl | simpl; lia].
    rewrite put_put. simpl inode.open_cnt. rewrite set_open_cnt_twice.
    replace (inode.open_cnt i + 1 + Z.of_nat n)
      with (inode.open_cnt i + Z.of_nat (S n)) by lia.
    reflexivity.
Qed.

Lemma run_closes (n : nat) a i w :
  heap w !! a = Some i -> inode.inode_lock i = LockFree ->
  inode_list_lock w = LockFree ->
  Z.of_nat n < inode.open_cnt i < 2 ^ 31 ->
  run (replicate n (OpClose (Some a))) w
  = Ok (put a (inode.set_open_cnt (inode.open_cnt i - Z.of_nat n) i) w).
Proof.
  revert i w. induction n as [|n IH]; intros i w Ha Hl Hll Hc.
  - simpl. rewrite Z.sub_0_r, set_open_cnt_same, (put_id a i w Ha).
    reflexivity.
  - simpl replicate. rewrite run_cons, run_op_close.
    rewrite (close_live a i w Ha Hl Hll).
    rewrite int32_in_range by lia. rewrite !bind_Ok.
    destruct (Z.eqb_spec (inode.open_cnt i - 1) 0) as [H0|H0]; [lia|].
    rewrite (IH (inode.set_open_cnt (inode.open_cnt i - 1) i))
      by first [apply heap_put | exact Hl | exact Hll | simpl; lia].
    rewrite put_put. simpl inode.open_cnt. rewrite set_open_cnt_twice.
    replace (inode.open_cnt i - 1 - Z.of_nat n)
      with (inode.open_cnt i - Z.of_nat (S n)) by lia.
    reflexivity.
Qed.

(** X7: [n] calls of [inode_reopen] followed by [n] calls of [inode_close]
    on an open inode leave the state exactly as it was: every close but the
    last of an inode only takes one opener away. *)
Theorem reopens_and_closes_cancel (n : nat) a i w :
  heap w !! a = Some i ->
  inode.inode_lock i = LockFree ->
  inode_list_lock w = LockFree ->
  1 <= inode.open_cnt i ->
  inode.open_cnt i + Z.of_nat n < 2 ^ 31 ->
  run (replicate n (OpReopen (Some a)) ++ replicate n (OpClose (Some a))) w
  = Ok w.
Proof.
  intros Ha Hl Hll Hc Hn.
  rewrite run_app, (run_reopens n a i w) by (assumption || lia).
  rewrite bind_Ok.
  rewrite (run_closes n a
             (inode.set_open_cnt (inode.open_cnt i + Z.of_nat n) i))
    by first [apply heap_put | exact Hl | exact Hll | simpl; lia].
  rewrite put_put. simpl inode.open_cnt. rewrite set_open_cnt_twice.
  replace (inode.open_cnt i + Z.of_nat n - Z.of_nat n)
    with (inode.open_cnt i) by lia.
  rewrite set_open_cnt_same, (put_id a i w Ha). reflexivity.
Qed.

Lemma filter_ne_fresh a (l : list addr) :
  a ∉ l -> filter (fun e => e ≠ a) l = l.
Proof.
  intros Ha. induction l as [|b l IH]; [reflexivity|].
  apply not_elem_of_cons in Ha as [Hne Ha].
  rewrite filter_cons_True by congruence. by rewrite IH.
Qed.

(** X8: [inode_open] of a sector that is not open followed by
    [inode_close] of the inode it returns leaves the state as it was, but
    for the one [disk_read] of the sector: the inode is off the list and
    its memory is freed. *)
Theorem open_then_close_restores sector w :
  registry_ok w -> not_open sector w ->
  exists a w1,
    inode_open true sector w = Ok (Some a, w1)
    /\ heap w !! a = None
    /\ inode_close (Some a) w1 = Ok (log (EvDiskRead sector) w).
Proof.
  intros Hreg Hno.
  pose proof (fresh_not_open w Hreg) as Hfresh.
  set (a := fresh (dom (heap w))) in *.
  assert (Hnone : heap w !! a = None).
  { apply not_elem_of_dom. apply is_fresh. }
  exists a, (open_new sector w). split; [by apply open_miss|].
  split; [exact Hnone|].
  rewrite (close_live a (opened sector w));
    [| apply lookup_insert_eq | reflexivity | apply (reg_list_lock w Hreg)].
  change (inode.open_cnt (opened sector w) - 1) with 0.
  rewrite int32_in_range by lia. rewrite bind_Ok.
  change (0 =? 0) with true. cbv iota.
  unfold closed_last. change (inode.removed (opened sector w)) with false.
  cbv iota zeta.
  apply f_equal. apply world_eq; simpl; try reflexivity.
  + fold a. rewrite delete_insert_eq. by apply delete_id.
  + fold a. rewrite filter_cons_False by (intros Hne; by apply Hne).
    by apply filter_ne_fresh.
Qed.

(** X9: when [malloc] finds no memory, [inode_open] of a sector that is not
    open returns a null pointer and leaves the state as it was, the list
    lock released; [inode_open] of a sector that is open does not allocate,
    and returns the inode of the list with one opener more. *)
Theorem open_without_memory sector w :
  registry_ok w ->
  (not_open sector w -> inode_open false sector w = Ok (NULL, w))
  /\ (forall a i,
      a ∈ open_inodes w -> heap w !! a = Some i -> inode.sector i = sector ->
      inode.open_cnt i + 1 < 2 ^ 31 ->
      inode_open false sector w
      = Ok (Some a, put a (inode.set_open_cnt (inode.open_cnt i + 1) i) w)).
Proof.
  intros Hreg. split; [by apply open_no_memory|].
  intros a i Ha Hi Hs Hc.
  destruct (reg_live w Hreg a Ha) as (i' & Hi' & Hcnt & _).
  assert (i' = i) as -> by congruence.
  rewrite (open_hit _ sector a i w Hreg Ha Hi Hs).
  rewrite int32_in_range by lia. reflexivity.
Qed.

Lemma not_open_closed_last a i w :
  registry_ok w -> a ∈ open_inodes w -> heap w !! a = Some i ->
  not_open (inode.sector i) (closed_last a i w).
Proof.
  intros Hreg Ha Hi b j Hb Hj.
  destruct (closed_last_fields a i w) as (Hl & Hh & _ & _).
  rewrite Hl in Hb. rewrite Hh in Hj.
  apply list_elem_of_filter in Hb as [Hne Hb].
  rewrite lookup_delete_ne in Hj by done.
  intros Hs. apply Hne. symmetry.
  by apply (reg_unique w Hreg a b i j).
Qed.

(** X10: [inode_close] by the last opener does not write to the disk and
    frees the inode; an [inode_open] of the same sector afterwards builds a
    new inode from the sector as it is on the disk, with one opener and
    not removed, also when the closed inode had been removed and its
    sectors released. *)
Theorem last_close_then_open a i w :
  registry_ok w -> a ∈ open_inodes w -> heap w !! a = Some i ->
  inode.open_cnt i = 1 ->
  exists w1 b w2 j,
    inode_close (Some a) w = Ok w1
    /\ filesys_disk w1 = filesys_disk w
    /\ heap w1 !! a = None
    /\ inode_open true (inode.sector i) w1 = Ok (Some b, w2)
    /\ heap w2 !! b = Some j
    /\ inode.sector j = inode.sector i
    /\ inode.open_cnt j = 1
    /\ inode.removed j = false
    /\ inode.data j = inode_disk.decode (filesys_disk w (inode.sector i)).
Proof.
  intros Hreg Ha Hi Hc.
  destruct (reg_live w Hreg a Ha) as (i' & Hi' & _ & Hlk).
  assert (i' = i) as -> by congruence.
  destruct (closed_last_fields a i w) as (Hl & Hh & Hk & Hd).
  exists (closed_last a i w), (fresh (dom (heap (closed_last a i w)))),
    (open_new (inode.sector i) (closed_last a i w)),
    (opened (inode.sector i) (closed_last a i w)).
  split; [|split; [|split; [|split; [|split]]]].
  - rewrite (close_live a i w Hi Hlk (reg_list_lock w Hreg)), Hc.
    reflexivity.
  - exact Hd.
  - rewrite Hh. apply lookup_delete_eq.
  - apply open_miss.
    + by apply registry_ok_closed_last.
    + by apply not_open_closed_last.
  - simpl. apply lookup_insert_eq.
  - repeat split; try reflexivity.
    unfold opened. cbn [inode.data]. by rewrite Hd.
Qed.

(** X11: an inode that has been removed but is still open stays on the
    list: [inode_open] of its sector returns that very inode, still marked
    as removed, with one opener more, whether [malloc] has memory or
    not. *)
Theorem removed_inode_is_still_opened malloc_ok a i w :
  registry_ok w -> a ∈ open_inodes w -> heap w !! a = Some i ->
  inode.open_cnt i + 1 < 2 ^ 31 ->
  exists w1,
    inode_remove (Some a) w = Ok w1
    /\ inode_open malloc_ok (inode.sector i) w1
       = Ok (Some a,
             put a (inode.set_open_cnt (inode.open_cnt i + 1)
                      (inode.set_removed true i)) w).
Proof.
  intros Hreg Ha Hi Hc.
  destruct (reg_live w Hreg a Ha) as (i' & Hi' & Hcnt & Hlk).
  assert (i' = i) as -> by congruence.
  exists (put a (inode.set_removed true i) w).
  split; [by apply remove_live|].
  rewrite (open_hit malloc_ok (inode.sector i) a (inode.set_removed true i)).
  - simpl inode.open_cnt. rewrite int32_in_range by lia.
    rewrite bind_Ok, put_put. reflexivity.
  - by apply (registry_ok_put a i).
  - exact Ha.
  - apply heap_put.
  - reflexivity.
Qed.

(** X12: [inode_dir_init] leaves the directory lock of an inode free
    whatever it was, a held lock included; [inode_dir_lock] then takes it
    and [inode_dir_unlock] gives the state after the initialisation back;
    the three change nothing but that lock.  On an inode whose directory
    lock is as [malloc] left it, [inode_dir_lock] uses an uninitialised
    lock.  On a null pointer the three do nothing. *)
Theorem dir_lock_cycle a i w :
  heap w !! a = Some i ->
  let w1 := put a (inode.set_dir_lock LockFree i) w in
  let w2 := put a (inode.set_dir_lock LockHeld i) w in
  inode_dir_init (Some a) w = Ok w1
  /\ inode_dir_lock (Some a) w1 = Ok w2
  /\ inode_dir_unlock (Some a) w2 = Ok w1
  /\ inode_dir_init (Some a) w2 = Ok w1
  /\ (inode.dir_lock i = LockUninit -> inode_dir_lock (Some a) w = Undef)
  /\ inode_dir_init NULL w = Ok w
  /\ inode_dir_lock NULL w = Ok w
  /\ inode_dir_unlock NULL w = Ok w.
Proof.
  intros Hi w1 w2. subst w1 w2.
  unfold inode_dir_init, inode_dir_lock, inode_dir_unlock.
  split; [by apply (update_live a i)|].
  split.
  { erewrite update_live; [|apply heap_put|reflexivity].
    by rewrite put_put. }
  split.
  { erewrite update_live; [|apply heap_put|reflexivity].
    by rewrite put_put. }
  split.
  { erewrite update_live; [|apply heap_put|reflexivity].
    by rewrite put_put. }
  split; [|done].
  intros Hu. rewrite (update_live_bind a i _ w Hi), Hu. reflexivity.
Qed.

Lemma run_op_cases o w w' :
  registry_ok w -> run_op o w = Ok w' ->
  w' = w
  \/ (exists a i i', heap w !! a = Some i /\ w' = put a i' w)
  \/ (exists sector, w' = open_new sector w)
  \/ (exists a i, heap w !! a = Some i /\ w' = closed_last a i w).
Proof.
  intros Hreg Hrun.
  destruct o as [malloc_ok sector|[a|]|[a|]]; unfold run_op in Hrun.
  - destruct (open_or_not sector w Hreg) as [(a & i & Ha & Hi & Hs)|Hno].
    + rewrite (open_hit malloc_ok sector a i w Hreg Ha Hi Hs) in Hrun.
      destruct (int32 (inode.open_cnt i + 1)) as [c| | |] eqn:Hc;
        try discriminate.
      simpl in Hrun. injection Hrun as <-.
      right; left. by eexists a, i, _.
    + destruct malloc_ok.
      * rewrite (open_miss sector w Hreg Hno) in Hrun. simpl in Hrun.
        injection Hrun as <-. right; right; left. by exists sector.
      * rewrite (open_no_memory sector w Hreg Hno) in Hrun. simpl in Hrun.
        injection Hrun as <-. by left.
  - destruct (heap w !! a) as [i|] eqn:Hi.
    2:{ by rewrite (reopen_dead a w Hi) in Hrun. }
    destruct (decide (inode.inode_lock i = LockFree)) as [Hlk|Hlk].
    2:{ by rewrite (reopen_locked a i w Hi Hlk) in Hrun. }
    rewrite (reopen_live a i w Hi Hlk) in Hrun.
    destruct (int32 (inode.open_cnt i + 1)) as [c| | |] eqn:Hc;
      try discriminate.
    simpl in Hrun. injection Hrun as <-.
    right; left. by eexists a, i, _.
  - simpl in Hrun. injection Hrun as <-. by left.
  - destruct (heap w !! a) as [i|] eqn:Hi.
    2:{ by rewrite (close_dead a w Hi) in Hrun. }
    destruct (decide (inode.inode_lock i = LockFree)) as [Hlk|Hlk].
    2:{ by rewrite (close_locked a i w Hi Hlk) in Hrun. }
    rewrite (close_live a i w Hi Hlk (reg_list_lock w Hreg)) in Hrun.
    destruct (int32 (inode.open_cnt i - 1)) as [c| | |] eqn:Hc;
      try discriminate.
    simpl in Hrun. injection Hrun as <-.
    destruct (c =? 0).
    + right; right; right. by exists a, i.
    + right; left. by eexists a, i, _.
  - injection Hrun as <-. by left.
Qed.

Lemma run_op_no_leak o w w' :
  registry_ok w -> run_op o w = Ok w' ->
  (forall a, is_Some (heap w !! a) <-> a ∈ open_inodes w) ->
  forall a, is_Some (heap w' !! a) <-> a ∈ open_inodes w'.
Proof.
  intros Hreg Hrun Hinv b.
  destruct (run_op_cases o w w' Hreg Hrun)
    as [->|[(a & i & i' & Hi & ->)|[(sector & ->)|(a & i & Hi & ->)]]].
  - apply Hinv.
  - simpl. rewrite <- Hinv. destruct (decide (a = b)) as [<-|Hne].
    + rewrite lookup_insert_eq, Hi. split; eauto.
    + by rewrite lookup_insert_ne.
  - simpl. set (a := fresh (dom (heap w))).
    rewrite elem_of_cons, <- Hinv. destruct (decide (a = b)) as [<-|Hne].
    + rewrite lookup_insert_eq. split; eauto.
    + rewrite lookup_insert_ne by done. split; [by right|].
      intros [->|?]; [done|assumption].
  - destruct (closed_last_fields a i w) as (Hl & Hh & _ & _).
    rewrite Hl, Hh, list_elem_of_filter, <- Hinv.
    destruct (decide (a = b)) as [<-|Hne].
    + rewrite lookup_delete_eq. split; [by intros [? ?]|by intros [? _]].
    + rewrite lookup_delete_ne by done. split; [|by intros [_ ?]].
      intros Hs. split; [congruence|exact Hs].
Qed.

(** X13: after any sequence of [inode_open], [inode_reopen] and
    [inode_close] from [inode_init] that runs without undefined behaviour,
    the inodes that are allocated are exactly the inodes of the list of
    open inodes: no inode is leaked, and none of the list is freed. *)
Theorem open_list_holds_all_inodes (w0 : world FM) (ops : list op) w :
  heap w0 = ∅ ->
  run ops (inode_init w0) = Ok w ->
  forall a, is_Some (heap w !! a) <-> a ∈ open_inodes w.
Proof.
  intros Hempty Hrun.
  assert (Hgen : forall ops w1 w2,
    registry_ok w1 -> run ops w1 = Ok w2 ->
    (forall a, is_Some (heap w1 !! a) <-> a ∈ open_inodes w1) ->
    forall a, is_Some (heap w2 !! a) <-> a ∈ open_inodes w2).
  { clear. induction ops as [|o ops IH]; intros w1 w2 Hreg Hrun Hinv.
    - by injection Hrun as <-.
    - simpl in Hrun. apply bind_Ok_inv in Hrun as (w' & H1 & Hrest).
      apply (IH w' w2); [|exact Hrest|].
      + by apply (run_op_registry_ok o w1).
      + by apply (run_op_no_leak o w1). }
  apply (Hgen ops (inode_init w0) w); [apply registry_ok_init|exact Hrun|].
  intros a. simpl. rewrite Hempty, lookup_empty.
  split; [by intros [? ?]|by intros ?%elem_of_nil].
Qed.

Lemma run_op_disk o w w' :
  registry_ok w -> run_op o w = Ok w' ->
  filesys_disk w' = filesys_disk w
  /\ exists evs, io_log w' = io_log w ++ evs
                 /\ forallb is_read_or_release evs = true.
Proof.
  intros Hreg Hrun.
  destruct (run_op_cases o w w' Hreg Hrun)
    as [->|[(a & i & i' & Hi & ->)|[(sector & ->)|(a & i & Hi & ->)]]].
  - split; [reflexivity|]. exists []. by rewrite app_nil_r.
  - split; [reflexivity|]. exists []. by rewrite app_nil_r.
  - split; [reflexivity|]. by exists [EvDiskRead sector].
  - unfold closed_last. destruct (inode.removed i).
    + split; [reflexivity|]. simpl. eexists [_; _].
      by rewrite <- app_assoc.
    + split; [reflexivity|]. exists []. by rewrite app_nil_r.
Qed.

(** X14: [inode_open], [inode_reopen] and [inode_close] never write to the
    disk: after any sequence of them the disk is as before, and the calls
    they have made are calls of [disk_read] and [free_map_release] only.
    In particular [inode_close] does not write the inode back. *)
Theorem handles_never_write w (ops : list op) w' :
  registry_ok w ->
  run ops w = Ok w' ->
  filesys_disk w' = filesys_disk w
  /\ exists evs, io_log w' = io_log w ++ evs
                 /\ forallb is_read_or_release evs = true.
Proof.
  revert w. induction ops as [|o ops IH]; intros w Hreg Hrun.
  - injection Hrun as <-. split; [reflexivity|].
    exists []. by rewrite app_nil_r.
  - simpl in Hrun. apply bind_Ok_inv in Hrun as (w1 & H1 & Hrest).
    destruct (run_op_disk o w w1 Hreg H1) as (Hd1 & evs1 & Hl1 & He1).
    destruct (IH w1 (run_op_registry_ok o w w1 Hreg H1) Hrest)
      as (Hd & evs & Hl & He).
    split; [congruence|]. exists (evs1 ++ evs).
    rewrite Hl, Hl1, app_assoc. split; [reflexivity|].
    rewrite forallb_app, He1, He. reflexivity.
Qed.

End MoreRegistry.

(** * The inode on the disk *)

Lemma byte_at_app_r (pre l : list byte) (k : nat) :
  byte_at (pre ++ l) (length pre + k) = byte_at l k.
Proof.
  unfold byte_at. f_equal. rewrite app_nth2 by lia. f_equal. lia.
Qed.

Lemma le32_at_skip (pre l : list byte) (k : nat) :
  le32_at (pre ++ l) (length pre + k) = le32_at l k.
Proof.
  unfold le32_at.
  rewrite <- !Nat.add_assoc, !byte_at_app_r. reflexivity.
Qed.

Lemma le32_at_words (us : list Z) (i : nat) (rest : list byte) :
  Forall (fun x => 0 <= x < 2 ^ 32) us -> (i < length us)%nat ->
  le32_at (concat (map le32 us) ++ rest) (4 * i) = nth i us 0.
Proof.
  revert i. induction us as [|u us IH]; intros i Hall Hi; [simpl in Hi; lia|].
  apply Forall_cons in Hall as [Hu Hall].
  destruct i as [|i].
  - cbn [map concat nth]. rewrite <- app_assoc.
    by apply le32_at_le32.
  - cbn [map concat nth]. rewrite <- app_assoc.
    replace (4 * S i)%nat with (length (le32 u) + 4 * i)%nat
      by (rewrite le32_length; lia).
    rewrite le32_at_skip. apply IH; [exact Hall|]. simpl in Hi. lia.
Qed.

Lemma Z_of_byte_range b : 0 <= Z_of_byte b < 256.
Proof.
  unfold Z_of_byte. pose proof (Byte.to_N_bounded b). lia.
Qed.

Lemma byte_of_Z_of_byte b : byte_of_Z (Z_of_byte b) = b.
Proof.
  unfold byte_of_Z. pose proof (Z_of_byte_range b) as Hb.
  rewrite Z.mod_small by lia. unfold Z_of_byte.
  rewrite N2Z.id, Byte.of_to_N. reflexivity.
Qed.

Lemma le32_at_range l k : 0 <= le32_at l k < 2 ^ 32.
Proof.
  unfold le32_at, byte_at.
  pose proof (Z_of_byte_range (nth k l x00)).
  pose proof (Z_of_byte_range (nth (k + 1) l x00)).
  pose proof (Z_of_byte_range (nth (k + 2) l x00)).
  pose proof (Z_of_byte_range (nth (k + 3) l x00)).
  lia.
Qed.

Lemma le32_mod z : le32 (z mod 2 ^ 32) = le32 z.
Proof.
  unfold le32, byte_of_Z.
  assert (H0 : (z mod 2 ^ 32) mod 256 = z mod 256)
    by (Z.div_mod_to_equations; lia).
  assert (H1 : (z mod 2 ^ 32 / 2 ^ 8) mod 256 = (z / 2 ^ 8) mod 256)
    by (Z.div_mod_to_equations; lia).
  assert (H2 : (z mod 2 ^ 32 / 2 ^ 16) mod 256 = (z / 2 ^ 16) mod 256)
    by (Z.div_mod_to_equations; lia).
  assert (H3 : (z mod 2 ^ 32 / 2 ^ 24) mod 256 = (z / 2 ^ 24) mod 256)
    by (Z.div_mod_to_equations; lia).
  by rewrite H0, H1, H2, H3.
Qed.

Lemma byte_of_Z_eq z b : z mod 256 = Z_of_byte b -> byte_of_Z z = b.
Proof.
  intros Hz. unfold byte_of_Z. rewrite Hz. unfold Z_of_byte.
  rewrite N2Z.id, Byte.of_to_N. reflexivity.
Qed.

Lemma le32_le32_at b0 b1 b2 b3 (l : list byte) :
  le32 (le32_at (b0 :: b1 :: b2 :: b3 :: l) 0) = [b0; b1; b2; b3].
Proof.
  unfold le32_at, byte_at. cbn [nth Nat.add].
  pose proof (Z_of_byte_range b0). pose proof (Z_of_byte_range b1).
  pose proof (Z_of_byte_range b2). pose proof (Z_of_byte_range b3).
  unfold le32.
  repeat f_equal; apply byte_of_Z_eq; Z.div_mod_to_equations; lia.
Qed.

Lemma le32_to_signed z : 0 <= z < 2 ^ 32 -> le32 (to_signed z) = le32 z.
Proof.
  intros Hz. unfold to_signed. destruct (z <? 2 ^ 31); [reflexivity|].
  rewrite <- (le32_mod (z - 2 ^ 32)). f_equal.
  Z.div_mod_to_equations. lia.
Qed.

Lemma to_signed_range z :
  0 <= z < 2 ^ 32 -> - 2 ^ 31 <= to_signed z < 2 ^ 31.
Proof.
  intros Hz. unfold to_signed.
  destruct (Z.ltb_spec z (2 ^ 31)); lia.
Qed.

Lemma words_of_bytes (n : nat) : forall (l : list byte),
  length l = (4 * n)%nat ->
  concat (map le32 (map (fun i : nat => le32_at l (4 * i)) (seq 0 n))) = l.
Proof.
  induction n as [|n IH]; intros l Hl.
  - by destruct l.
  - destruct l as [|b0 [|b1 [|b2 [|b3 l]]]]; simpl in Hl; try lia.
    cbn [seq map concat]. change (4 * 0)%nat with 0%nat.
    rewrite le32_le32_at. cbn [app]. do 4 f_equal.
    rewrite <- seq_shift, map_map.
    transitivity
      (concat (map le32 (map (fun i : nat => le32_at l (4 * i)) (seq 0 n))));
      [|apply IH; lia].
    rewrite !map_map. f_equal. apply map_ext. intros i. f_equal.
    replace (4 * S i)%nat with (length [b0; b1; b2; b3] + 4 * i)%nat
      by (simpl; lia).
    apply (le32_at_skip [b0; b1; b2; b3] l).
Qed.

Lemma inode_disk_decode_encode d :
  inode_disk_ok d -> inode_disk.decode (inode_disk.encode d) = d.
Proof.
  intros (Hs & Hl & Hm & Hu & Hall).
  destruct d as [st len mg us]. simpl in *.
  unfold inode_disk.decode, inode_disk.encode. cbn [inode_disk.start
    inode_disk.length inode_disk.magic inode_disk.unused].
  f_equal.
  - by apply le32_at_le32.
  - apply (decode_encode_length (inode_disk.mk st len mg us)). exact Hl.
  - change 8%nat with (length (le32 st ++ le32 len) + 0)%nat.
    rewrite (app_assoc (le32 st)), le32_at_skip. by apply le32_at_le32.
  - apply (nth_ext _ _ 0 0).
    + by rewrite length_map, length_seq.
    + intros k Hk. rewrite length_map, length_seq in Hk.
      match goal with
      | |- nth k (map ?g _) 0 = _ => set (f := g)
      end.
      rewrite (nth_indep (map f (seq 0 125)) 0 (f 0%nat))
        by (by rewrite length_map, length_seq).
      rewrite map_nth, seq_nth by exact Hk. unfold f. cbn [Nat.add].
      etransitivity;
        [exact (le32_at_skip (le32 st ++ le32 len ++ le32 mg)
                  (concat (map le32 us)) (4 * k))|].
      rewrite <- (app_nil_r (concat _)).
      apply le32_at_words; [exact Hall | lia].
Qed.

Lemma inode_disk_decode_ok (s : sector_data) :
  inode_disk_ok (inode_disk.decode s).
Proof.
  unfold inode_disk_ok, inode_disk.decode. cbn [inode_disk.start
    inode_disk.length inode_disk.magic inode_disk.unused].
  split; [apply le32_at_range|].
  split; [apply to_signed_range, le32_at_range|].
  split; [apply le32_at_range|].
  split; [by rewrite length_map, length_seq|].
  apply Forall_map, Forall_forall. intros i _. apply le32_at_range.
Qed.

Lemma inode_disk_encode_decode (s : sector_data) :
  Z.of_nat (length s) = DISK_SECTOR_SIZE ->
  inode_disk.encode (inode_disk.decode s) = s.
Proof.
  intros Hs.
  rewrite <- (words_of_bytes 128 s) at 2
    by (unfold DISK_SECTOR_SIZE in Hs; lia).
  unfold inode_disk.encode, inode_disk.decode. cbn [inode_disk.start
    inode_disk.length inode_disk.magic inode_disk.unused].
  rewrite le32_to_signed by apply le32_at_range.
  change (seq 0 128) with (0 :: 1 :: 2 :: seq 3 125)%nat.
  cbn [map concat].
  reflexivity.
Qed.

(** X15: the sector that [inode_create] writes and the structure that
    [inode_open] reads.  A [struct inode_disk] whose fields hold values of
    their C types fills one sector exactly and is read back from it
    unchanged, the 125 unused words included; and every sector is the
    image of the structure that is read from it, so that nothing of a
    sector is lost in the inode in memory. *)
Theorem inode_disk_roundtrip :
  (forall d, inode_disk_ok d ->
     Z.of_nat (length (inode_disk.encode d)) = DISK_SECTOR_SIZE
     /\ inode_disk.decode (inode_disk.encode d) = d)
  /\ (forall s : sector_data, Z.of_nat (length s) = DISK_SECTOR_SIZE ->
       inode_disk_ok (inode_disk.decode s)
       /\ inode_disk.encode (inode_disk.decode s) = s).
Proof.
  split.
  - intros d Hd. split; [|by apply inode_disk_decode_encode].
    destruct Hd as (_ & _ & _ & Hu & _). by apply length_encode.
  - intros s Hs.
    split; [apply inode_disk_decode_ok | by apply inode_disk_encode_decode].
Qed.

Section CreateOpen.
Context {FM : Type} `{!Allocator FM}.
Implicit Types (w : world FM) (i : inode.t).

Lemma create_done_frame sector len first fm w :
  heap (create_done sector len first fm w) = heap w
  /\ open_inodes (create_done sector len first fm w) = open_inodes w
  /\ inode_list_lock (create_done sector len first fm w) = inode_list_lock w.
Proof.
  unfold create_done.
  destruct (clear_sectors_frame (uint32 first)
              (seqZ 0 (bytes_to_sectors len))
              (disk_write sector (inode_disk.encode (created first len))
                 (log (EvAllocate (bytes_to_sectors len))
                    (set_free_map fm w))))
    as (_ & -> & -> & ->).
  done.
Qed.

Lemma registry_ok_create_done sector len first fm w :
  registry_ok w -> registry_ok (create_done sector len first fm w).
Proof.
  intros [H1 H2 H3 H4].
  destruct (create_done_frame sector len first fm w) as (Hh & Hl & Hk).
  split; rewrite ?Hh, ?Hl, ?Hk; assumption.
Qed.

Lemma not_open_create_done sector len first fm w :
  not_open sector w -> not_open sector (create_done sector len first fm w).
Proof.
  intros Hno. unfold not_open.
  destruct (create_done_frame sector len first fm w) as (-> & -> & _).
  exact Hno.
Qed.

Lemma created_ok first len :
  0 <= len < 2 ^ 31 -> inode_disk_ok (created first len).
Proof.
  intros Hl. unfold inode_disk_ok, created.
  cbn [inode_disk.start inode_disk.length inode_disk.magic
       inode_disk.unused].
  split; [apply uint32_range|]. split; [lia|].
  split; [unfold INODE_MAGIC; lia|]. split; [reflexivity|].
  apply Forall_replicate. lia.
Qed.

(** X16: [inode_create] followed by [inode_open] of the same sector.  The
    inode that is opened has SECTOR as its number.  When SECTOR is not one
    of the sectors that the allocator has answered, the inode holds the
    descriptor that was created, [inode_length] is the length that was
    asked for, and a read of the whole file returns that many zeros.
    [inode_create] does not check this: when SECTOR is one of the data
    sectors, the descriptor has been overwritten with zeros and the inode
    that is opened has the length 0. *)
Theorem create_then_open sector len first fm w (buffer : list byte) :
  0 <= len < 2 ^ 31 ->
  disk_wf (filesys_disk w) ->
  free_map_allocate (bytes_to_sectors len) (free_map w) = Some (first, fm) ->
  registry_ok w -> not_open sector w ->
  len <= Z.of_nat (length buffer) ->
  let secs := map (fun k => uint32 (uint32 first + k))
                (seqZ 0 (bytes_to_sectors len)) in
  exists w1 a w2 i,
    inode_create true sector len w = Ok (true, w1)
    /\ inode_open true sector w1 = Ok (Some a, w2)
    /\ heap w2 !! a = Some i
    /\ inode_get_inumber (Some a) w2 = Ok sector
    /\ (sector ∈ secs ->
        inode.data i = inode_disk.decode zeros
        /\ inode_length (Some a) w2 = Ok 0)
    /\ (sector ∉ secs ->
        inode.data i = created first len
        /\ inode_length (Some a) w2 = Ok len
        /\ exists w3,
             inode_read_at true (Some a) buffer len 0 w2
             = Ok (len,
                   replicate (Z.to_nat len) x00
                   ++ drop (Z.to_nat len) buffer, w3)).
Proof.
  intros Hlen Hwf Halloc Hreg Hno Hbuf secs.
  set (w1 := create_done sector len first fm w).
  set (a := fresh (dom (heap w1))).
  assert (Hi : heap (open_new sector w1) !! a = Some (opened sector w1))
    by (simpl; apply lookup_insert_eq).
  exists w1, a, (open_new sector w1), (opened sector w1).
  split; [apply create_ok; [lia | exact Halloc]|].
  split.
  { apply open_miss; [by apply registry_ok_create_done
                     | by apply not_open_create_done]. }
  split; [exact Hi|].
  split.
  { unfold inode_get_inumber. by rewrite (load_live a _ _ Hi). }
  assert (Hdata : inode.data (opened sector w1)
                  = inode_disk.decode
                      (if decide (sector ∈ secs) then zeros
                       else inode_disk.encode (created first len))).
  { unfold opened. cbn [inode.data]. unfold w1.
    rewrite create_done_disk. fold secs.
    destruct (decide (sector ∈ secs)); [reflexivity|].
    by rewrite fn_lookup_insert. }
  split.
  - intros Hin. rewrite decide_True in Hdata by exact Hin.
    split; [exact Hdata|].
    unfold inode_length. by rewrite (load_live a _ _ Hi), bind_Ok, Hdata.
  - intros Hnin. rewrite decide_False in Hdata by exact Hnin.
    rewrite (inode_disk_decode_encode _ (created_ok first len Hlen)) in Hdata.
    split; [exact Hdata|].
    split.
    { unfold inode_length. by rewrite (load_live a _ _ Hi), bind_Ok, Hdata. }
    assert (Hp : points_to (open_new sector w1) (Some a) (opened sector w1))
      by (by exists a).
    destruct (read_after_create sector len first fm w (open_new sector w1)
                (Some a) (opened sector w1) true buffer len 0)
      as (cnt & w3 & Hr & Hcnt); try (assumption || lia || reflexivity).
    destruct (read_at_spec true (open_new sector w1) (Some a)
                (opened sector w1) buffer len 0)
      as (cnt' & evs & Hr' & _ & Hc & _); try (assumption || lia).
    { unfold length_ok. rewrite Hdata. simpl. lia. }
    { simpl filesys_disk. by apply create_done_disk_wf. }
    rewrite Hr in Hr'. injection Hr' as Hcc _ _.
    specialize (Hc eq_refl). rewrite Hdata in Hc. simpl in Hc.
    unfold transferred in Hc.
    assert (cnt = len) as -> by lia.
    exists w3. exact Hr.
Qed.

End CreateOpen.

(** * The system call handler *)

Section SyscallProofs.
Context `{!Numbers}.
Implicit Types (st : machine) (m : gmap Z byte).

Lemma load8_insert_ne m a b p :
  a <> p -> load8 (<[a := b]> m) p = load8 m p.
Proof. intros Hne. unfold load8. by rewrite lookup_insert_ne. Qed.

Lemma load32_insert_ne m a b p :
  ~ p <= a < p + 4 -> load32 (<[a := b]> m) p = load32 m p.
Proof.
  intros Hne. unfold load32.
  rewrite !load8_insert_ne by lia. reflexivity.
Qed.

Lemma load32_range m a v : load32 m a = Ok v -> - 2 ^ 31 <= v < 2 ^ 31.
Proof.
  unfold load32. intros Hv.
  destruct (load8 m a) as [b0| | |]; try discriminate.
  destruct (load8 m (a + 1)) as [b1| | |]; try discriminate.
  destruct (load8 m (a + 2)) as [b2| | |]; try discriminate.
  destruct (load8 m (a + 3)) as [b3| | |]; try discriminate.
  rewrite !bind_Ok in Hv. injection Hv as <-.
  pose proof (Z_of_byte_range b0). pose proof (Z_of_byte_range b1).
  pose proof (Z_of_byte_range b2). pose proof (Z_of_byte_range b3).
  unfold to_signed. destruct (Z.ltb_spec
    (Z_of_byte b0 + 2 ^ 8 * Z_of_byte b1 + 2 ^ 16 * Z_of_byte b2
     + 2 ^ 24 * Z_of_byte b3) (2 ^ 31)); lia.
Qed.

Lemma sys_read_loop_eq esp buff ks counter st :
  sys_read_loop esp buff ks counter st
  = (size ← esp_at esp 3 st;
     if counter <? size then
       match ks with
       | [] => Ok (WaitsForKey, st)
       | c :: ks =>
           m ← store8 (user_mem st) (buff + counter) (newline c);
           counter' ← int32 (counter + 1);
           sys_read_loop esp buff ks counter'
             (putbuf [newline c] (set_user_mem m (set_keyboard ks st)))
       end
     else Ok (Returns, set_frame_eax (uint32 counter) st)).
Proof. destruct ks; reflexivity. Qed.

(** The keys [typed] go into the buffer one after the other. *)
Lemma sys_read_loop_typed esp buff n (typed : list byte) :
  forall rest counter st,
  esp_at esp 3 st = Ok n ->
  keyboard st = typed ++ rest ->
  0 <= counter -> counter + Z.of_nat (length typed) <= n ->
  (forall k, counter <= k < counter + Z.of_nat (length typed) ->
     is_Some (user_mem st !! (buff + k))) ->
  (forall k, counter <= k < counter + Z.of_nat (length typed) ->
     ~ esp + 12 <= buff + k < esp + 16) ->
  exists m',
    sys_read_loop esp buff (typed ++ rest) counter st
    = sys_read_loop esp buff rest (counter + Z.of_nat (length typed))
        (mkMachine m' (frame_eax st)
           (console st ++ map (fun c => Putbuf [newline c]) typed) rest)
    /\ load32 m' (esp + 4 * 3) = Ok n
    /\ forall a,
         m' !! a
         = if decide (buff + counter <= a
                      < buff + counter + Z.of_nat (length typed))
           then Some (newline (nth (Z.to_nat (a - buff - counter)) typed x00))
           else user_mem st !! a.
Proof.
  induction typed as [|c typed IH];
    intros rest counter st Hn Hk Hc Hle Hmap Hdis.
  - exists (user_mem st). simpl. rewrite Z.add_0_r, app_nil_r.
    split; [|split; [exact Hn|]].
    + f_equal. destruct st; simpl in *. by subst.
    + intros a. rewrite decide_False by lia. reflexivity.
  - pose proof (load32_range _ _ _ Hn) as Hrange.
    cbn [length] in *. rewrite Nat2Z.inj_succ in *.
    cbn [app]. rewrite sys_read_loop_eq. rewrite Hn, bind_Ok.
    destruct (Z.ltb_spec counter n) as [_|]; [|lia].
    destruct (Hmap counter) as [b Hb]; [lia|].
    unfold store8 at 1. simpl user_mem at 1. rewrite Hb, bind_Ok.
    rewrite int32_in_range, bind_Ok by lia.
    set (st1 := putbuf _ _).
    destruct (IH rest (counter + 1) st1) as (m' & Heq & Hn' & Hm');
      try lia.
    + unfold esp_at, st1. simpl.
      rewrite load32_insert_ne; [exact Hn|].
      specialize (Hdis counter). lia.
    + reflexivity.
    + intros k Hkr. unfold st1. simpl.
      destruct (decide (buff + counter = buff + k)) as [->|Hne].
      * rewrite lookup_insert_eq. eauto.
      * rewrite lookup_insert_ne by done. apply Hmap. lia.
    + intros k Hkr. apply Hdis. lia.
    + exists m'. split; [|split; [exact Hn'|]].
      * rewrite Heq. unfold st1. simpl.
        rewrite <- app_assoc. simpl.
        replace (counter + 1 + Z.of_nat (length typed))
          with (counter + Z.succ (Z.of_nat (length typed))) by lia.
        reflexivity.
      * intros a. rewrite Hm'. unfold st1. simpl.
        destruct (decide (buff + counter = a)) as [<-|Hne].
        -- rewrite decide_False by lia. rewrite decide_True by lia.
           rewrite lookup_insert_eq.
           replace (Z.to_nat (buff + counter - buff - counter)) with 0%nat
             by lia.
           reflexivity.
        -- rewrite lookup_insert_ne by done.
           destruct (decide (buff + (counter + 1) <= a
                             < buff + (counter + 1) + Z.of_nat (length typed)))
             as [Hin|Hout].
           ++ rewrite decide_True by lia.
              replace (Z.to_nat (a - buff - counter))
                with (S (Z.to_nat (a - buff - (counter + 1)))) by lia.
              reflexivity.
           ++ rewrite decide_False by lia. reflexivity.
Qed.


Lemma esp_at_putbuf esp k bytes st :
  esp_at esp k (putbuf bytes st) = esp_at esp k st.
Proof. reflexivity. Qed.

Lemma NoDup_four (a b c d : Z) :
  NoDup [a; b; c; d] ->
  a <> b /\ a <> c /\ a <> d /\ b <> c /\ b <> d /\ c <> d.
Proof.
  intros Hnd.
  apply NoDup_cons in Hnd as [Ha Hnd]. apply NoDup_cons in Hnd as [Hb Hnd].
  apply NoDup_cons in Hnd as [Hc _].
  rewrite !not_elem_of_cons in Ha. rewrite !not_elem_of_cons in Hb.
  rewrite !not_elem_of_cons in Hc. tauto.
Qed.

Lemma handler_read_eq esp st buf fd :
  SYS_READ <> SYS_HALT -> SYS_READ <> SYS_EXIT ->
  0 <= SYS_READ < 21 ->
  esp_at esp 0 st = Ok SYS_READ ->
  esp_at esp 1 st = Ok fd ->
  esp_at esp 2 st = Ok buf ->
  syscall_handler esp st
  = if negb (fd =? STDIN_FILENO)
    then Ok (Returns, set_frame_eax (uint32 (-1)) st)
    else sys_read_loop esp (uint32 buf) (keyboard st) 0 st.
Proof.
  intros Hh He Hr H0 H1 H2. unfold syscall_handler.
  rewrite H0, !bind_Ok. unfold argc_at.
  destruct (Z.leb_spec 0 SYS_READ); [|lia].
  destruct (Z.ltb_spec SYS_READ (Z.of_nat (length argc)));
    [|simpl in *; lia].
  cbn [andb]. rewrite bind_Ok.
  destruct (Z.eqb_spec SYS_READ SYS_HALT); [done|].
  destruct (Z.eqb_spec SYS_READ SYS_EXIT); [done|].
  rewrite Z.eqb_refl, H2, bind_Ok, H1, bind_Ok. reflexivity.
Qed.

(** X17: SYS_READ from the keyboard.  When the descriptor is STDIN_FILENO,
    [n] keys or more have been typed, and the [n] bytes of the buffer are
    mapped and are not bytes of the word [esp[3]], the handler returns
    with [n] in [eax]: it has taken the first [n] keys, stored them in the
    buffer in their order with every carriage return turned into a
    newline, and echoed each of them with a [putbuf] of one byte; the rest
    of the memory and the other keys are as before. *)
Theorem sys_read_stores_the_keys esp st buf n (typed rest : list byte) :
  SYS_READ <> SYS_HALT -> SYS_READ <> SYS_EXIT ->
  0 <= SYS_READ < 21 ->
  esp_at esp 0 st = Ok SYS_READ ->
  esp_at esp 1 st = Ok STDIN_FILENO ->
  esp_at esp 2 st = Ok buf ->
  esp_at esp 3 st = Ok n ->
  keyboard st = typed ++ rest ->
  Z.of_nat (length typed) = n ->
  (forall k, 0 <= k < n -> is_Some (user_mem st !! (uint32 buf + k))) ->
  (forall k, 0 <= k < n -> ~ esp + 12 <= uint32 buf + k < esp + 16) ->
  exists st',
    syscall_handler esp st = Ok (Returns, st')
    /\ frame_eax st' = n
    /\ keyboard st' = rest
    /\ console st' = console st ++ map (fun c => Putbuf [newline c]) typed
    /\ forall a,
         user_mem st' !! a
         = if decide (uint32 buf <= a < uint32 buf + n)
           then Some (newline (nth (Z.to_nat (a - uint32 buf)) typed x00))
           else user_mem st !! a.
Proof.
  intros Hh He Hr H0 H1 H2 H3 Hk Hlen Hmap Hdis.
  pose proof (load32_range _ _ _ H3) as Hrange.
  rewrite (handler_read_eq esp st buf STDIN_FILENO) by assumption.
  rewrite Z.eqb_refl. cbn [negb]. rewrite Hk.
  destruct (sys_read_loop_typed esp (uint32 buf) n typed rest 0 st)
    as (m' & Heq & Hn' & Hm'); try (assumption || lia).
  { intros k Hkr. apply Hmap. lia. }
  { intros k Hkr. apply Hdis. lia. }
  rewrite Heq, sys_read_loop_eq. unfold esp_at at 1. cbn [user_mem].
  rewrite Hn', bind_Ok.
  destruct (Z.ltb_spec (0 + Z.of_nat (length typed)) n); [lia|].
  eexists. split; [reflexivity|]. cbn.
  split; [rewrite uint32_small; lia|].
  split; [reflexivity|]. split; [reflexivity|].
  intros a. rewrite Hm'.
  destruct (decide (uint32 buf <= a < uint32 buf + n)).
  - rewrite decide_True by lia. do 3 f_equal. lia.
  - rewrite decide_False by lia. reflexivity.
Qed.

(** X18: SYS_READ with fewer keys typed than asked for does not return:
    the handler takes and echoes all the keys there are and then sits in
    [input_getc]; [eax] has not been set. *)
Theorem sys_read_waits_for_keys esp st buf n :
  SYS_READ <> SYS_HALT -> SYS_READ <> SYS_EXIT ->
  0 <= SYS_READ < 21 ->
  esp_at esp 0 st = Ok SYS_READ ->
  esp_at esp 1 st = Ok STDIN_FILENO ->
  esp_at esp 2 st = Ok buf ->
  esp_at esp 3 st = Ok n ->
  Z.of_nat (length (keyboard st)) < n ->
  (forall k, 0 <= k < n -> is_Some (user_mem st !! (uint32 buf + k))) ->
  (forall k, 0 <= k < n -> ~ esp + 12 <= uint32 buf + k < esp + 16) ->
  exists st',
    syscall_handler esp st = Ok (WaitsForKey, st')
    /\ frame_eax st' = frame_eax st
    /\ keyboard st' = []
    /\ console st'
       = console st ++ map (fun c => Putbuf [newline c]) (keyboard st).
Proof.
  intros Hh He Hr H0 H1 H2 H3 Hlen Hmap Hdis.
  rewrite (handler_read_eq esp st buf STDIN_FILENO) by assumption.
  rewrite Z.eqb_refl. cbn [negb].
  replace (sys_read_loop esp (uint32 buf) (keyboard st) 0 st)
    with (sys_read_loop esp (uint32 buf) (keyboard st ++ []) 0 st)
    by (by rewrite app_nil_r).
  destruct (sys_read_loop_typed esp (uint32 buf) n (keyboard st) [] 0 st)
    as (m' & Heq & Hn' & Hm'); try (assumption || lia).
  { by rewrite app_nil_r. }
  { intros k Hkr. apply Hmap. lia. }
  { intros k Hkr. apply Hdis. lia. }
  rewrite Heq, sys_read_loop_eq. unfold esp_at at 1. cbn [user_mem].
  rewrite Hn', bind_Ok.
  destruct (Z.ltb_spec (0 + Z.of_nat (length (keyboard st))) n); [|lia].
  eexists. split; [reflexivity|]. done.
Qed.

(** X19: SYS_READ with a descriptor other than STDIN_FILENO and SYS_WRITE
    with a descriptor other than STDOUT_FILENO return with -1 in [eax],
    which is 2^32 - 1 in the unsigned register, and do nothing else.
    SYS_READ from the keyboard with a size of 0 or less returns 0 and takes
    no key; SYS_WRITE of 0 bytes calls [putbuf] with no byte and
    returns 0. *)
Theorem wrong_descriptor_or_no_size esp st fd buf n :
  NoDup [SYS_HALT; SYS_EXIT; SYS_READ; SYS_WRITE] ->
  esp_at esp 1 st = Ok fd ->
  esp_at esp 2 st = Ok buf ->
  esp_at esp 3 st = Ok n ->
  (esp_at esp 0 st = Ok SYS_READ -> 0 <= SYS_READ < 21 ->
   (fd <> STDIN_FILENO ->
    syscall_handler esp st = Ok (Returns, set_frame_eax (2 ^ 32 - 1) st))
   /\ (fd = STDIN_FILENO -> n <= 0 ->
       syscall_handler esp st = Ok (Returns, set_frame_eax 0 st)))
  /\ (esp_at esp 0 st = Ok SYS_WRITE -> 0 <= SYS_WRITE < 21 ->
      (fd <> STDOUT_FILENO ->
       syscall_handler esp st = Ok (Returns, set_frame_eax (2 ^ 32 - 1) st))
      /\ (fd = STDOUT_FILENO -> n = 0 ->
          syscall_handler esp st
          = Ok (Returns, set_frame_eax 0 (putbuf [] st)))).
Proof.
  intros Hnd H1 H2 H3.
  apply NoDup_four in Hnd as (Hhe & Hhr & Hhw & Her & Hew & Hrw).
  split.
  - intros H0 Hrange.
    rewrite (handler_read_eq esp st buf fd) by (assumption || lia).
    split.
    + intros Hfd. destruct (Z.eqb_spec fd STDIN_FILENO); [done|].
      reflexivity.
    + intros -> Hn. rewrite Z.eqb_refl. cbn [negb].
      rewrite sys_read_loop_eq, H3, bind_Ok.
      destruct (Z.ltb_spec 0 n); [lia|]. reflexivity.
  - intros H0 Hrange. unfold syscall_handler.
    rewrite H0, !bind_Ok. unfold argc_at.
    destruct (Z.leb_spec 0 SYS_WRITE); [|lia].
    destruct (Z.ltb_spec SYS_WRITE (Z.of_nat (length argc)));
      [|simpl in *; lia].
    cbn [andb]. rewrite bind_Ok.
    destruct (Z.eqb_spec SYS_WRITE SYS_HALT); [lia|].
    destruct (Z.eqb_spec SYS_WRITE SYS_EXIT); [lia|].
    destruct (Z.eqb_spec SYS_WRITE SYS_READ); [lia|].
    rewrite Z.eqb_refl, H1, bind_Ok.
    split.
    + intros Hfd. destruct (Z.eqb_spec fd STDOUT_FILENO); [done|].
      reflexivity.
    + intros -> ->. rewrite Z.eqb_refl. cbn [negb].
      rewrite H2, bind_Ok, H3, bind_Ok.
      change (Z.to_nat (uint32 0)) with 0%nat. cbn [load_bytes].
      rewrite bind_Ok, esp_at_putbuf, H3. reflexivity.
Qed.

(** X20: SYS_WRITE to STDOUT_FILENO of [n >= 0] bytes that are mapped makes
    one call of [putbuf] with exactly the [n] bytes of the buffer and
    returns with [n] in [eax]; memory and keyboard are unchanged. *)
Theorem sys_write_puts_the_bytes esp st buf n (bytes : list byte) :
  NoDup [SYS_HALT; SYS_EXIT; SYS_READ; SYS_WRITE] ->
  0 <= SYS_WRITE < 21 ->
  esp_at esp 0 st = Ok SYS_WRITE ->
  esp_at esp 1 st = Ok STDOUT_FILENO ->
  esp_at esp 2 st = Ok buf ->
  esp_at esp 3 st = Ok n ->
  0 <= n ->
  (forall k, 0 <= k < n -> is_Some (user_mem st !! (uint32 buf + k))) ->
  exists bytes,
    syscall_handler esp st
    = Ok (Returns, set_frame_eax n (putbuf bytes st))
    /\ Z.of_nat (length bytes) = n
    /\ forall k, 0 <= k < n ->
         user_mem st !! (uint32 buf + k) = Some (nth (Z.to_nat k) bytes x00).
Proof.
  intros Hnd Hrange H0 H1 H2 H3 Hn Hmap.
  apply NoDup_four in Hnd as (Hhe & Hhr & Hhw & Her & Hew & Hrw).
  pose proof (load32_range _ _ _ H3) as Hnr.
  assert (Hload : forall (k : nat) a,
    (forall j, 0 <= j < Z.of_nat k -> is_Some (user_mem st !! (a + j))) ->
    exists l, load_bytes (user_mem st) a k = Ok l
              /\ length l = k
              /\ forall j, 0 <= j < Z.of_nat k ->
                   user_mem st !! (a + j) = Some (nth (Z.to_nat j) l x00)).
  { clear. induction k as [|k IH]; intros a Hm.
    - exists []. split; [reflexivity|]. split; [reflexivity|]. lia.
    - destruct (Hm 0) as [b Hb]; [lia|]. rewrite Z.add_0_r in Hb.
      destruct (IH (a + 1)) as (l & Hl & Hlen & Hnth).
      { intros j Hj. rewrite <- Z.add_assoc. apply Hm. lia. }
      exists (b :: l). cbn [load_bytes]. unfold load8 at 1.
      rewrite Hb, bind_Ok, Hl, bind_Ok.
      split; [reflexivity|]. split; [simpl; lia|].
      intros j Hj. destruct (decide (j = 0)) as [->|Hne].
      + by rewrite Z.add_0_r.
      + replace (Z.to_nat j) with (S (Z.to_nat (j - 1))) by lia.
        cbn [nth]. rewrite <- Hnth by lia. f_equal. lia. }
  destruct (Hload (Z.to_nat n) (uint32 buf)) as (l & Hl & Hlen & Hnth).
  { intros j Hj. apply Hmap. lia. }
  exists l. split; [|split; [lia|]].
  - unfold syscall_handler.
    rewrite H0, !bind_Ok. unfold argc_at.
    destruct (Z.leb_spec 0 SYS_WRITE); [|lia].
    destruct (Z.ltb_spec SYS_WRITE (Z.of_nat (length argc)));
      [|simpl in *; lia].
    cbn [andb]. rewrite bind_Ok.
    destruct (Z.eqb_spec SYS_WRITE SYS_HALT); [lia|].
    destruct (Z.eqb_spec SYS_WRITE SYS_EXIT); [lia|].
    destruct (Z.eqb_spec SYS_WRITE SYS_READ); [lia|].
    rewrite Z.eqb_refl, H1, bind_Ok, Z.eqb_refl. cbn [negb].
    rewrite H2, bind_Ok, H3, bind_Ok.
    rewrite (uint32_small n) by lia. rewrite Hl, bind_Ok.
    rewrite esp_at_putbuf, H3, bind_Ok.
    rewrite (uint32_small n) by lia. reflexivity.
  - intros k Hk. apply Hnth. lia.
Qed.

(** X21: the handler uses the system call number as an index into [argc]
    before it looks at the number in any other way.  For a number that is
    not one of 0 .. 20, a negative one included, that index is outside of
    the 21 entries of the table, which is undefined behaviour, whatever
    the rest of the state is. *)
Theorem number_outside_argc esp st nr :
  esp_at esp 0 st = Ok nr ->
  ~ 0 <= nr <= 20 ->
  syscall_handler esp st = Undef.
Proof.
  intros H0 Hout. unfold syscall_handler. rewrite H0, bind_Ok.
  unfold argc_at.
  destruct (Z.leb_spec 0 nr); [|reflexivity].
  destruct (Z.ltb_spec nr (Z.of_nat (length argc))); [|reflexivity].
  simpl in *. lia.
Qed.


End SyscallProofs.

(** * From creation to deletion *)

Section LifeOfAFile.
Context {FM : Type} `{!Allocator FM}.
Implicit Types (w : world FM) (i : inode.t) (a : addr).

Lemma registry_ok_with_disk d evs w :
  registry_ok w -> registry_ok (with_disk d evs w).
Proof. intros [H1 H2 H3 H4]. by split. Qed.

(** X23: what is written is on the disk.  Bytes written through an inode
    whose descriptor is the one on the disk, and whose own sector is not
    one of its data sectors, are still there after the last opener has
    closed the inode: an [inode_open] of the same sector and a read of the
    same range return them. *)
Theorem write_survives_close_and_open w a i (b buf : list byte) o :
  registry_ok w -> a ∈ open_inodes w -> heap w !! a = Some i ->
  inode.open_cnt i = 1 ->
  length_ok (inode.data i) ->
  disk_wf (filesys_disk w) ->
  inode.data i = inode_disk.decode (filesys_disk w (inode.sector i)) ->
  ~ in_file (inode.data i) (inode.sector i) ->
  0 <= o ->
  o + Z.of_nat (length b) <= inode_disk.length (inode.data i) ->
  (length b <= length buf)%nat ->
  exists w1 w2 a' w3 w4,
    inode_write_at true (Some a) b (Z.of_nat (length b)) o w
    = Ok (Z.of_nat (length b), w1)
    /\ inode_close (Some a) w1 = Ok w2
    /\ heap w2 !! a = None
    /\ inode_open true (inode.sector i) w2 = Ok (Some a', w3)
    /\ inode_read_at true (Some a') buf (Z.of_nat (length b)) o w3
       = Ok (Z.of_nat (length b), b ++ drop (length b) buf, w4).
Proof.
  intros Hreg Ha Hi Hc Hlen Hwf Hdata Hsec Ho Hend Hbuf.
  pose proof Hlen as Hlen'. unfold length_ok in Hlen'.
  set (n := Z.of_nat (length b)) in *.
  destruct (reg_live w Hreg a Ha) as (i' & Hi' & _ & Hlk).
  assert (i' = i) as -> by congruence.
  assert (Ht : transferred (inode_disk.length (inode.data i)) n o = n)
    by (unfold transferred; lia).
  destruct (write_at_spec true w (Some a) i b n o)
    as (cnt & evs & d' & Hw & _ & Hcnt & Hwf' & Hfb & Hfr & _);
    try (assumption || lia).
  { by exists a. }
  rewrite Ht in Hcnt. specialize (Hcnt eq_refl). subst cnt.
  set (w1 := with_disk d' evs w) in *.
  assert (Hreg1 : registry_ok w1) by (by apply registry_ok_with_disk).
  destruct (closed_last_fields a i w1) as (Hl2 & Hh2 & Hk2 & Hd2).
  remember (closed_last a i w1) as w2 eqn:Hw2.
  set (a' := fresh (dom (heap w2))).
  set (j := opened (inode.sector i) w2).
  assert (Hj : inode.data j = inode.data i).
  { unfold j, opened. cbn [inode.data].
    rewrite Hd2. unfold w1. cbn [filesys_disk with_disk].
    rewrite (Hfr _ Hsec). by rewrite Hdata. }
  assert (Hp3 : points_to (open_new (inode.sector i) w2) (Some a') j).
  { exists a'. split; [reflexivity|]. simpl. apply lookup_insert_eq. }
  destruct (read_at_spec true (open_new (inode.sector i) w2) (Some a') j
              buf n o)
    as (cnt & evs' & Hr & _ & Hcnt & _); try (assumption || lia).
  { by rewrite Hj. }
  { simpl filesys_disk. by rewrite Hd2. }
  rewrite Hj, Ht in Hcnt. specialize (Hcnt eq_refl). subst cnt.
  exists w1, w2, a', (open_new (inode.sector i) w2),
    (logs evs' (open_new (inode.sector i) w2)).
  split; [exact Hw|].
  split.
  { rewrite (close_live a i w1 Hi Hlk (reg_list_lock w1 Hreg1)), Hc, Hw2.
    reflexivity. }
  split; [rewrite Hh2; apply lookup_delete_eq|].
  split.
  { apply open_miss.
    - rewrite Hw2. by apply registry_ok_closed_last.
    - intros c k Hc' Hk. rewrite Hl2 in Hc'.
      rewrite Hh2 in Hk.
      apply list_elem_of_filter in Hc' as [Hne Hc'].
      rewrite lookup_delete_ne in Hk by done.
      intros Hs. apply Hne. symmetry.
      by apply (reg_unique w1 Hreg1 a c i k). }
  rewrite Hr. simpl filesys_disk. rewrite Hd2, Hj.
  unfold w1. cbn [filesys_disk with_disk]. unfold n.
  rewrite (file_range_written d' (inode.data i) b o).
  - unfold splice. simpl. reflexivity.
  - intros p Hpr. rewrite Hfb by lia.
    destruct (decide _); [reflexivity | lia].
Qed.

(** X24: a read of [s1] bytes followed by a read of [s2] bytes from where
    the first one ended transfers what one read of [s1 + s2] bytes
    transfers: the counts add up and the bytes are the same.  When the
    first read comes back short, the second one returns 0. *)
Theorem reads_compose w inode i (buf1 buf2 buf : list byte) s1 s2 o :
  points_to w inode i ->
  length_ok (inode.data i) ->
  disk_wf (filesys_disk w) ->
  0 <= o < 2 ^ 31 -> 0 <= s1 -> 0 <= s2 -> s1 + s2 < 2 ^ 31 ->
  s1 <= Z.of_nat (length buf1) -> s2 <= Z.of_nat (length buf2) ->
  s1 + s2 <= Z.of_nat (length buf) ->
  exists n1 n2 r1 r2 r w1 w2 w',
    inode_read_at true inode buf1 s1 o w = Ok (n1, r1, w1)
    /\ inode_read_at true inode buf2 s2 (o + n1) w1 = Ok (n2, r2, w2)
    /\ inode_read_at true inode buf (s1 + s2) o w = Ok (n1 + n2, r, w')
    /\ take (Z.to_nat (n1 + n2)) r
       = take (Z.to_nat n1) r1 ++ take (Z.to_nat n2) r2
    /\ (n1 < s1 -> n2 = 0).
Proof.
  intros Hp Hlen Hwf Ho Hs1 Hs2 Hs Hb1 Hb2 Hb.
  pose proof Hlen as Hlen'. unfold length_ok in Hlen'.
  set (len := inode_disk.length (inode.data i)) in *.
  destruct (read_at_spec true w inode i buf1 s1 o)
    as (n1 & evs1 & Hr1 & _ & Hn1 & _); try (assumption || lia).
  specialize (Hn1 eq_refl). fold len in Hn1.
  assert (Hn1r : 0 <= n1 <= s1) by (unfold transferred in *; lia).
  assert (Hin : o + n1 < 2 ^ 31) by (unfold transferred in *; lia).
  destruct (read_at_spec true (logs evs1 w) inode i buf2 s2 (o + n1))
    as (n2 & evs2 & Hr2 & _ & Hn2 & _); try (assumption || lia).
  specialize (Hn2 eq_refl). fold len in Hn2.
  destruct (read_at_spec true w inode i buf (s1 + s2) o)
    as (n & evs & Hr & _ & Hn & _); try (assumption || lia).
  specialize (Hn eq_refl). fold len in Hn.
  assert (Hsum : n = n1 + n2) by (unfold transferred in *; lia).
  assert (Hn2r : 0 <= n2 <= s2) by (unfold transferred in *; lia).
  clear Hn. subst n.
  eexists n1, n2, _, _, _, _, _, _.
  split; [exact Hr1|]. split; [exact Hr2|]. split; [exact Hr|].
  split; [|unfold transferred in *; lia].
  simpl filesys_disk.
  assert (Htake : forall (l : list byte) src,
            Z.of_nat (length src) <= Z.of_nat (length l) ->
            take (length src) (splice l 0 src) = src).
  { intros l src Hl. unfold splice. simpl.
    by rewrite take_app_length. }
  assert (Hlen1 : Z.to_nat n1
                  = length (file_range (filesys_disk w) (inode.data i) o n1))
    by (rewrite length_file_range; lia).
  assert (Hlen2 : Z.to_nat n2
                  = length (file_range (filesys_disk w) (inode.data i)
                              (o + n1) n2))
    by (rewrite length_file_range; lia).
  assert (Hlen12 : Z.to_nat (n1 + n2)
                   = length (file_range (filesys_disk w) (inode.data i) o
                               (n1 + n2)))
    by (rewrite length_file_range; lia).
  rewrite Hlen1 at 1. rewrite Hlen2 at 1. rewrite Hlen12 at 1.
  rewrite !Htake by (rewrite <- ?Hlen1, <- ?Hlen2, <- ?Hlen12; lia).
  by rewrite (file_range_app _ _ o n1 n2) by lia.
Qed.

(** X25: the life of a file.  [inode_create], [inode_open],
    [inode_remove] and [inode_close] by the only opener, with SECTOR not
    one of the data sectors: the close gives back to the allocator SECTOR
    itself and exactly the range that the creation was given, first sector
    and count, in two calls of [free_map_release]; the inode is freed and
    off the list, and the disk is as the creation left it, the descriptor
    still in SECTOR. *)
Theorem create_remove_close_releases sector len first fm w :
  0 <= len < 2 ^ 31 ->
  free_map_allocate (bytes_to_sectors len) (free_map w) = Some (first, fm) ->
  registry_ok w -> not_open sector w ->
  sector ∉ map (fun k => uint32 (uint32 first + k))
             (seqZ 0 (bytes_to_sectors len)) ->
  exists w1 a w2 w3 w4,
    inode_create true sector len w = Ok (true, w1)
    /\ inode_open true sector w1 = Ok (Some a, w2)
    /\ inode_remove (Some a) w2 = Ok w3
    /\ inode_close (Some a) w3 = Ok w4
    /\ io_log w4
       = io_log w2 ++ [EvRelease sector 1;
                       EvRelease (uint32 first) (bytes_to_sectors len)]
    /\ free_map w4
       = free_map_release (uint32 first) (bytes_to_sectors len)
           (free_map_release sector 1 fm)
    /\ heap w4 = heap w
    /\ open_inodes w4 = open_inodes w
    /\ filesys_disk w4 = filesys_disk w1.
Proof.
  intros Hlen Halloc Hreg Hno Hnin.
  set (w1 := create_done sector len first fm w).
  destruct (create_done_frame sector len first fm w) as (Hh1 & Hl1 & Hk1).
  fold w1 in Hh1, Hl1, Hk1.
  assert (Hreg1 : registry_ok w1) by (by apply registry_ok_create_done).
  pose proof (fresh_not_open w1 Hreg1) as Hfresh.
  set (a := fresh (dom (heap w1))) in *.
  set (j := opened sector w1).
  assert (Hdata : inode.data j = created first len).
  { unfold j, opened. cbn [inode.data]. unfold w1.
    rewrite create_done_disk, decide_False by exact Hnin.
    rewrite fn_lookup_insert. apply inode_disk_decode_encode. by apply created_ok. }
  set (w2 := open_new sector w1).
  assert (Hj : heap w2 !! a = Some j) by (simpl; apply lookup_insert_eq).
  set (w3 := put a (inode.set_removed true j) w2).
  exists w1, a, w2, w3, (closed_last a (inode.set_removed true j) w3).
  split; [apply create_ok; [lia | exact Halloc]|].
  split; [apply open_miss; [exact Hreg1 | by apply not_open_create_done]|].
  split; [by apply remove_live|].
  split.
  { rewrite (close_live a (inode.set_removed true j) w3);
      [| apply heap_put | reflexivity | apply (reg_list_lock w1 Hreg1)].
    reflexivity. }
  assert (Hfm : free_map w1 = fm).
  { unfold w1, create_done.
    destruct (clear_sectors_frame (uint32 first)
                (seqZ 0 (bytes_to_sectors len))
                (disk_write sector (inode_disk.encode (created first len))
                   (log (EvAllocate (bytes_to_sectors len))
                      (set_free_map fm w)))) as (-> & _).
    reflexivity. }
  unfold closed_last. cbn [inode.removed inode.set_removed].
  cbn [inode.data inode.sector inode.set_removed]. rewrite Hdata.
  cbn [inode_disk.start inode_disk.length created].
  split; [simpl; by rewrite <- app_assoc|].
  split; [simpl; by rewrite Hfm|].
  split.
  { simpl. fold a. rewrite insert_insert_eq, delete_insert_eq, Hh1.
    apply delete_id. rewrite <- Hh1. apply not_elem_of_dom, is_fresh. }
  split; [|reflexivity].
  simpl. fold a. rewrite filter_cons_False by (intros Hne; by apply Hne).
  rewrite filter_ne_fresh by exact Hfresh. exact Hl1.
Qed.

End LifeOfAFile.

(** * Creation: what is on the disk afterwards *)

Section CreateClaim.
Context {FM : Type} `{!Allocator FM}.
Implicit Types (w : world FM) (i : inode.t).

Lemma create_done_free_map sector len first fm w :
  free_map (create_done sector len first fm w) = fm.
Proof.
  unfold create_done.
  destruct (clear_sectors_frame (uint32 first)
              (seqZ 0 (bytes_to_sectors len))
              (disk_write sector (inode_disk.encode (created first len))
                 (log (EvAllocate (bytes_to_sectors len))
                    (set_free_map fm w)))) as (-> & _).
  reflexivity.
Qed.

(** C2: for a length [L >= 0], a successful [inode_create] asks the
    allocator for exactly the number of sectors that [L] bytes need, the
    least [n] with [L <= n * DISK_SECTOR_SIZE]; it then writes the descriptor
    with length [L], the magic number and a zeroed unused region to SECTOR,
    and then DISK_SECTOR_SIZE zeros to each of the [n] sectors from the one
    the allocator answered; these are all the calls it makes.  The disk
    afterwards is the disk before with zeros in the [n] data sectors and
    with the descriptor in SECTOR, and nothing else of the state has
    changed but the allocator.  The descriptor fills the sector and is
    read back from it as it was written.  Opening the inode afterwards
    succeeds and finds the length [L], and every read through an inode
    whose descriptor was read from SECTOR transfers zeros only: as many as
    were asked for, up to the end of the [L] bytes.  (When the allocator
    answers a range that holds SECTOR itself, the zeros go over the
    descriptor; the reads then still find zeros only.) *)
Theorem create_writes_descriptor_then_zeros sector len first fm w :
  0 <= len < 2 ^ 31 ->
  disk_wf (filesys_disk w) ->
  free_map_allocate (bytes_to_sectors len) (free_map w)
    = Some (first, fm) ->
  let n := bytes_to_sectors len in
  let d := inode_disk.mk (uint32 first) len INODE_MAGIC
             (replicate 125%nat 0) in
  let secs := map (fun k => uint32 (uint32 first + k)) (seqZ 0 n) in
  exists w',
    inode_create true sector len w = Ok (true, w')
    /\ DISK_SECTOR_SIZE * (n - 1) < len <= DISK_SECTOR_SIZE * n
    /\ io_log w'
       = io_log w
         ++ [EvAllocate n; EvDiskWrite sector (inode_disk.encode d)]
         ++ map (fun k => EvDiskWrite (uint32 (uint32 first + k)) zeros)
              (seqZ 0 n)
    /\ (forall s,
          filesys_disk w' s
          = if decide (s ∈ secs) then zeros
            else if decide (s = sector) then inode_disk.encode d
            else filesys_disk w s)
    /\ free_map w' = fm /\ heap w' = heap w
    /\ open_inodes w' = open_inodes w
    /\ inode_list_lock w' = inode_list_lock w
    /\ Z.of_nat (length (inode_disk.encode d)) = DISK_SECTOR_SIZE
    /\ inode_disk.decode (inode_disk.encode d) = d
    /\ (sector ∉ secs -> inode_disk.decode (filesys_disk w' sector) = d)
    /\ (registry_ok w -> not_open sector w ->
        exists a w2,
          inode_open true sector w' = Ok (Some a, w2)
          /\ points_to w2 (Some a) (opened sector w')
          /\ filesys_disk w2 = filesys_disk w'
          /\ (sector ∉ secs ->
              opened sector w' = inode.mk sector 1 false d LockFree LockUninit
              /\ inode_length (Some a) w2 = Ok len))
    /\ (forall w2 inode i malloc_ok (buffer : list byte) size offset,
          filesys_disk w2 = filesys_disk w' ->
          points_to w2 inode i ->
          inode.data i = inode_disk.decode (filesys_disk w2 sector) ->
          0 <= size < 2 ^ 31 -> 0 <= offset < 2 ^ 31 ->
          size <= Z.of_nat (length buffer) ->
          exists cnt w3,
            inode_read_at malloc_ok inode buffer size offset w2
            = Ok (cnt,
                  replicate (Z.to_nat cnt) x00 ++ drop (Z.to_nat cnt) buffer,
                  w3)
            /\ 0 <= cnt <= size
            /\ (malloc_ok = true -> sector ∉ secs ->
                cnt = Z.min size (Z.max 0 (len - offset)))).
Proof.
  intros Hlen Hwf Halloc n d secs.
  set (w' := create_done sector len first fm w).
  destruct (create_done_frame sector len first fm w) as (Hh & Hl & Hk).
  fold w' in Hh, Hl, Hk.
  assert (Hd : inode_disk.decode (inode_disk.encode d) = d)
    by (apply (inode_disk_decode_encode (created first len));
        by apply created_ok).
  assert (Hdisk : forall s,
            filesys_disk w' s
            = if decide (s ∈ secs) then zeros
              else if decide (s = sector) then inode_disk.encode d
              else filesys_disk w s).
  { intros s. unfold w'. rewrite create_done_disk. fold n. fold secs.
    destruct (decide (s ∈ secs)); [reflexivity|].
    destruct (decide (s = sector)) as [->|Hne].
    - by rewrite fn_lookup_insert.
    - by rewrite fn_lookup_insert_ne. }
  assert (Hsec : sector ∉ secs ->
                 inode_disk.decode (filesys_disk w' sector) = d).
  { intros Hnin. rewrite Hdisk, decide_False by exact Hnin.
    rewrite decide_True by reflexivity. exact Hd. }
  exists w'.
  split; [apply create_ok; [lia | exact Halloc]|].
  split; [by apply bytes_to_sectors_ceil|].
  split.
  { unfold w', create_done. rewrite clear_sectors_log. simpl.
    by rewrite <- !app_assoc. }
  split; [exact Hdisk|].
  split; [apply create_done_free_map|].
  split; [exact Hh|]. split; [exact Hl|]. split; [exact Hk|].
  split; [apply (length_encode d); reflexivity|].
  split; [exact Hd|].
  split; [exact Hsec|].
  split.
  - intros Hreg Hno.
    set (a := fresh (dom (heap w'))).
    assert (Hi : heap (open_new sector w') !! a = Some (opened sector w'))
      by (simpl; apply lookup_insert_eq).
    exists a, (open_new sector w').
    split.
    { apply open_miss; [by apply registry_ok_create_done
                       | by apply not_open_create_done]. }
    split; [by exists a|]. split; [reflexivity|].
    intros Hnin.
    assert (Ho : opened sector w'
                 = inode.mk sector 1 false d LockFree LockUninit)
      by (unfold opened; by rewrite (Hsec Hnin)).
    split; [exact Ho|].
    unfold inode_length. rewrite (load_live a _ _ Hi), bind_Ok, Ho.
    reflexivity.
  - intros w2 inode i malloc_ok buffer size offset Hdisk2 Hp Hdata Hs Ho
      Hbuf.
    destruct (read_after_create sector len first fm w w2 inode i malloc_ok
                buffer size offset)
      as (cnt & w3 & Hr & Hcnt); try assumption.
    exists cnt, w3. split; [exact Hr|]. split; [exact Hcnt|].
    intros -> Hnin.
    assert (Hdi : inode.data i = d).
    { rewrite Hdata, Hdisk2. by apply Hsec. }
    destruct (read_at_spec true w2 inode i buffer size offset)
      as (cnt' & evs & Hr' & _ & Hc & _); try assumption.
    { unfold length_ok. rewrite Hdi. simpl. lia. }
    { rewrite Hdisk2. by apply create_done_disk_wf. }
    rewrite Hr in Hr'. injection Hr' as Hcc _ _.
    specialize (Hc eq_refl). rewrite Hdi in Hc. simpl in Hc.
    unfold transferred in Hc. lia.
Qed.

End CreateClaim.

(** * The further properties on concrete inputs *)

Lemma example_world_registry_ok : registry_ok example_world.
Proof.
  split.
  - reflexivity.
  - apply NoDup_singleton.
  - intros a ->%list_elem_of_singleton. exists example_inode.
    split; [reflexivity|]. split; [simpl; lia | reflexivity].
  - intros a b i j ->%list_elem_of_singleton ->%list_elem_of_singleton.
    reflexivity.
Qed.

Lemma example_world_not_open sector :
  sector <> 7 -> not_open sector example_world.
Proof.
  intros Hne a i ->%list_elem_of_singleton Hi.
  assert (Hsome : Some example_inode = Some i) by exact Hi.
  injection Hsome as <-. simpl. congruence.
Qed.

Lemma example_world_open : (1%positive ∈ open_inodes example_world).
Proof. apply list_elem_of_singleton. reflexivity. Qed.

(** X1: a read of 600 bytes across the boundary of the sectors 10 and 11. *)
Lemma read_600_bytes_only_reads :
  exists n buf' w',
    inode_read_at true (Some 1%positive) (replicate 600 x01) 600 500
      example_world = Ok (n, buf', w')
    /\ filesys_disk w' = filesys_disk example_world
    /\ heap w' = heap example_world.
Proof.
  destruct (read_changes_only_the_buffer true example_world
              (Some 1%positive) example_inode (replicate 600 x01) 600 500)
    as (n & buf' & w' & evs & Hr & _ & Hd & Hh & _).
  - apply example_world_points_to.
  - apply example_inode_length_ok.
  - apply example_world_disk_wf.
  - lia.
  - lia.
  - rewrite length_replicate. lia.
  - exists n, buf', w'. split; [exact Hr|]. split; [exact Hd | exact Hh].
Defined.

(** X2: a write of 600 bytes at the offset 500, of which 500 fit. *)
Lemma write_600_bytes_keeps_length :
  exists n w',
    inode_write_at true (Some 1%positive) (replicate 600 x01) 600 500
      example_world = Ok (n, w')
    /\ inode_length (Some 1%positive) w'
       = inode_length (Some 1%positive) example_world
    /\ filesys_disk w' 9 = filesys_disk example_world 9.
Proof.
  destruct (write_changes_only_the_range true example_world
              (Some 1%positive) example_inode (replicate 600 x01) 600 500)
    as (n & w' & Hw & _ & _ & Hl & _ & _ & _ & _ & _ & Hout).
  - apply example_world_points_to.
  - apply example_inode_length_ok.
  - apply example_world_disk_wf.
  - lia.
  - lia.
  - rewrite length_replicate. lia.
  - exists n, w'. split; [exact Hw|]. split; [exact Hl|].
    apply Hout. apply not_in_file_9.
Defined.

(** X3: a read and a write at the very end of the file of 1000 bytes. *)
Lemma read_and_write_at_1000 :
  inode_read_at true (Some 1%positive) [x01; x02] 2 1000 example_world
  = Ok (0, [x01; x02], example_world)
  /\ inode_write_at true (Some 1%positive) [x01; x02] 2 1000 example_world
     = Ok (0, example_world).
Proof.
  apply (nothing_beyond_end_of_file true example_world (Some 1%positive)
           example_inode [x01; x02] 2 1000).
  - apply example_world_points_to.
  - apply example_inode_length_ok.
  - simpl. lia.
Defined.

(** X4: a size of 0 with a null pointer, and a size of 1 with a null
    pointer. *)
Lemma null_inode_with_and_without_size :
  inode_read_at true NULL [x01] 0 0 example_world
  = Ok (0, [x01], example_world)
  /\ inode_write_at true NULL [x01] 1 0 example_world = Panic.
Proof.
  destruct (no_size_or_no_inode true example_world [x01] 0 0) as [H0 _].
  destruct (no_size_or_no_inode true example_world [x01] 1 0) as [_ H1].
  split.
  - apply (H0 ltac:(lia) NULL).
  - apply (H1 ltac:(lia)).
Defined.

(** X5: 600 bytes from the start of the file without a bounce buffer: the
    first sector is transferred, the 88 bytes after it are not. *)
Lemma first_sector_without_bounce_buffer :
  exists bufr wr ww,
    inode_read_at false (Some 1%positive) (replicate 600 x01) 600 0
      example_world = Ok (512, bufr, wr)
    /\ inode_write_at false (Some 1%positive) (replicate 600 x01) 600 0
         example_world = Ok (512, ww).
Proof.
  apply (whole_sectors_without_bounce_buffer example_world (Some 1%positive)
           example_inode (replicate 600 x01) 600 0).
  - apply example_world_points_to.
  - apply example_inode_length_ok.
  - apply example_world_disk_wf.
  - lia.
  - lia.
  - rewrite length_replicate. lia.
Defined.

(** X6: a write of the bytes 510 and 511 and a read of the bytes 506 to
    509 of the same sector. *)
Lemma write_beside_a_read :
  exists found w0 w1 w2,
    inode_read_at true (Some 1%positive) (replicate 4 x00) 4 506
      example_world = Ok (4, found, w0)
    /\ inode_write_at true (Some 1%positive) [x01; x02] 2 510 example_world
       = Ok (2, w1)
    /\ inode_read_at true (Some 1%positive) (replicate 4 x00) 4 506 w1
       = Ok (4, found, w2).
Proof.
  apply (write_leaves_other_ranges example_world (Some 1%positive)
           example_inode [x01; x02] (replicate 4 x00) 510 506 4).
  - apply example_world_points_to.
  - apply example_inode_length_ok.
  - apply example_world_disk_wf.
  - lia.
  - simpl. lia.
  - lia.
  - lia.
  - simpl. lia.
  - left. lia.
  - simpl. lia.
Defined.

(** X7: three reopens and three closes of the inode of sector 7. *)
Lemma three_reopens_three_closes :
  run [OpReopen (Some 1%positive); OpReopen (Some 1%positive);
       OpReopen (Some 1%positive); OpClose (Some 1%positive);
       OpClose (Some 1%positive); OpClose (Some 1%positive)] example_world
  = Ok example_world.
Proof.
  apply (reopens_and_closes_cancel 3 1%positive example_inode example_world).
  - reflexivity.
  - reflexivity.
  - reflexivity.
  - simpl. lia.
  - simpl. lia.
Defined.

(** X8: sector 9 opened and closed while sector 7 is open. *)
Lemma open_and_close_sector_9 :
  exists a w1,
    inode_open true 9 example_world = Ok (Some a, w1)
    /\ heap example_world !! a = None
    /\ inode_close (Some a) w1 = Ok (log (EvDiskRead 9) example_world).
Proof.
  apply (open_then_close_restores 9 example_world).
  - apply example_world_registry_ok.
  - apply example_world_not_open. lia.
Defined.

(** X9: no memory for sector 9, which is not open, and for sector 7, which
    is. *)
Lemma open_7_and_9_without_memory :
  inode_open false 9 example_world = Ok (NULL, example_world)
  /\ inode_open false 7 example_world
     = Ok (Some 1%positive,
           put 1%positive (inode.set_open_cnt 2 example_inode)
             example_world).
Proof.
  destruct (open_without_memory 9 example_world example_world_registry_ok)
    as [Hmiss _].
  destruct (open_without_memory 7 example_world example_world_registry_ok)
    as [_ Hhit].
  split.
  - apply Hmiss. apply example_world_not_open. lia.
  - apply (Hhit 1%positive example_inode).
    + apply example_world_open.
    + reflexivity.
    + reflexivity.
    + simpl. lia.
Defined.

(** X10: the only opener of sector 7 closes it, and sector 7 is opened
    again. *)
Lemma close_then_open_sector_7 :
  exists w1 b w2 j,
    inode_close (Some 1%positive) example_world = Ok w1
    /\ inode_open true 7 w1 = Ok (Some b, w2)
    /\ heap w2 !! b = Some j
    /\ inode.data j = inode_disk.decode zeros.
Proof.
  destruct (last_close_then_open 1%positive example_inode example_world)
    as (w1 & b & w2 & j & Hc & _ & _ & Ho & Hj & _ & _ & _ & Hd).
  - apply example_world_registry_ok.
  - apply example_world_open.
  - reflexivity.
  - reflexivity.
  - exists w1, b, w2, j. split; [exact Hc|]. split; [exact Ho|].
    split; [exact Hj | exact Hd].
Defined.

(** X11: sector 7 removed and opened once more. *)
Lemma remove_then_open_sector_7 :
  exists w1,
    inode_remove (Some 1%positive) example_world = Ok w1
    /\ inode_open false 7 w1
       = Ok (Some 1%positive,
             put 1%positive
               (inode.set_open_cnt 2 (inode.set_removed true example_inode))
               example_world).
Proof.
  apply (removed_inode_is_still_opened false 1%positive example_inode
           example_world).
  - apply example_world_registry_ok.
  - apply example_world_open.
  - reflexivity.
  - simpl. lia.
Defined.

(** X12: the directory lock of the inode of sector 7, which is as [malloc]
    left it. *)
Lemma dir_lock_of_sector_7 :
  inode_dir_lock (Some 1%positive) example_world = Undef
  /\ inode_dir_init (Some 1%positive) example_world
     = Ok (put 1%positive (inode.set_dir_lock LockFree example_inode)
             example_world).
Proof.
  destruct (dir_lock_cycle 1%positive example_inode example_world)
    as (Hi & _ & _ & _ & Hu & _).
  - reflexivity.
  - split; [apply Hu; reflexivity | exact Hi].
Defined.

(** X13: two sectors opened and one of them closed again. *)
Lemma no_leak_after_three_calls :
  exists w,
    run [OpOpen true 7; OpOpen true 9; OpClose (Some 1%positive)]
      (inode_init initial_world) = Ok w
    /\ forall a, is_Some (heap w !! a) <-> a ∈ open_inodes w.
Proof.
  eexists. split; [vm_compute; reflexivity|].
  apply (open_list_holds_all_inodes initial_world
           [OpOpen true 7; OpOpen true 9; OpClose (Some 1%positive)]).
  - reflexivity.
  - vm_compute. reflexivity.
Defined.

(** X14: sector 9 opened and sector 7 closed by its only opener. *)
Lemma disk_after_open_and_close :
  exists w,
    run [OpOpen true 9; OpClose (Some 1%positive)] example_world = Ok w
    /\ filesys_disk w = filesys_disk example_world.
Proof.
  eexists. split; [vm_compute; reflexivity|].
  match goal with
  | |- filesys_disk ?w = _ =>
      destruct (handles_never_write example_world
                  [OpOpen true 9; OpClose (Some 1%positive)] w)
        as [Hd _]
  end.
  - apply example_world_registry_ok.
  - vm_compute. reflexivity.
  - exact Hd.
Defined.

(** X15: the descriptor of a file of 1000 bytes from sector 10, and the
    sector of zeros. *)
Lemma descriptor_of_1000_bytes_roundtrip :
  inode_disk.decode (inode_disk.encode (created 10 1000)) = created 10 1000
  /\ inode_disk.encode (inode_disk.decode zeros) = zeros.
Proof.
  destruct inode_disk_roundtrip as [Hde Hed].
  split.
  - apply (Hde (created 10 1000)).
    unfold inode_disk_ok, created.
    cbn [inode_disk.start inode_disk.length inode_disk.magic
         inode_disk.unused].
    split; [apply uint32_range|]. split; [lia|].
    split; [unfold INODE_MAGIC; lia|]. split; [reflexivity|].
    apply Forall_replicate. lia.
  - apply (Hed zeros). reflexivity.
Defined.

(** X16: a file of 1000 bytes created at sector 7, for which the allocator
    answers the sectors 8 and 9, and opened. *)
Lemma create_1000_bytes_then_open :
  exists w1 a w2,
    inode_create true 7 1000 initial_world = Ok (true, w1)
    /\ inode_open true 7 w1 = Ok (Some a, w2)
    /\ inode_get_inumber (Some a) w2 = Ok 7
    /\ inode_length (Some a) w2 = Ok 1000.
Proof.
  destruct (create_then_open 7 1000 8 10 initial_world (replicate 1000 x01))
    as (w1 & a & w2 & i & Hc & Ho & _ & Hn & _ & Hout).
  - lia.
  - intros s. reflexivity.
  - reflexivity.
  - apply (registry_ok_init initial_world).
  - intros a i Ha. by apply elem_of_nil in Ha.
  - rewrite length_replicate. lia.
  - exists w1, a, w2. split; [exact Hc|]. split; [exact Ho|].
    split; [exact Hn|].
    destruct Hout as (_ & Hl & _); [|exact Hl].
    vm_compute. intros Hin.
    repeat (apply elem_of_cons in Hin as [Hin|Hin]; [discriminate|]).
    by apply elem_of_nil in Hin.
Defined.

(** X17: three keys asked for and four typed, the second one a carriage
    return. *)
Lemma read_three_keys :
  exists st',
    syscall_handler (H := pintos_numbers) 1000
      (example_machine [8; 0; 2000; 3] [x61; x0d; x62; x63])
    = Ok (Returns, st')
    /\ frame_eax st' = 3
    /\ keyboard st' = [x63]
    /\ user_mem st' !! 2001 = Some x0a.
Proof.
  destruct (sys_read_stores_the_keys (H := pintos_numbers) 1000
              (example_machine [8; 0; 2000; 3] [x61; x0d; x62; x63])
              2000 3 [x61; x0d; x62] [x63])
    as (st' & Hrun & Hax & Hk & _ & Hm).
  - discriminate.
  - discriminate.
  - simpl. lia.
  - vm_compute. reflexivity.
  - vm_compute. reflexivity.
  - vm_compute. reflexivity.
  - vm_compute. reflexivity.
  - reflexivity.
  - reflexivity.
  - intros k Hk.
    assert (Hc : k = 0 \/ k = 1 \/ k = 2) by lia.
    destruct Hc as [->|[->| ->]]; vm_compute; eauto.
  - intros k Hk. rewrite uint32_small by lia. lia.
  - exists st'. split; [exact Hrun|]. split; [exact Hax|].
    split; [exact Hk|]. rewrite (Hm 2001). reflexivity.
Defined.

(** X18: three keys asked for and one typed. *)
Lemma read_three_keys_of_one :
  exists st',
    syscall_handler (H := pintos_numbers) 1000
      (example_machine [8; 0; 2000; 3] [x61])
    = Ok (WaitsForKey, st')
    /\ keyboard st' = [].
Proof.
  destruct (sys_read_waits_for_keys (H := pintos_numbers) 1000
              (example_machine [8; 0; 2000; 3] [x61]) 2000 3)
    as (st' & Hrun & _ & Hk & _).
  - discriminate.
  - discriminate.
  - simpl. lia.
  - vm_compute. reflexivity.
  - vm_compute. reflexivity.
  - vm_compute. reflexivity.
  - vm_compute. reflexivity.
  - simpl. lia.
  - intros k Hk.
    assert (Hc : k = 0 \/ k = 1 \/ k = 2) by lia.
    destruct Hc as [->|[->| ->]]; vm_compute; eauto.
  - intros k Hk. rewrite uint32_small by lia. lia.
  - exists st'. split; [exact Hrun | exact Hk].
Defined.

Lemma pintos_numbers_distinct :
  NoDup [@SYS_HALT pintos_numbers; @SYS_EXIT pintos_numbers;
         @SYS_READ pintos_numbers; @SYS_WRITE pintos_numbers].
Proof.
  change (NoDup [0; 1; 8; 9]).
  repeat constructor; rewrite ?not_elem_of_cons; repeat split;
    try discriminate; apply not_elem_of_nil.
Qed.

(** X19: a read from the descriptor 1 and a write to the descriptor 0. *)
Lemma read_from_1_and_write_to_0 :
  syscall_handler (H := pintos_numbers) 1000
    (example_machine [8; 1; 2000; 3] [x61])
  = Ok (Returns,
        set_frame_eax 4294967295 (example_machine [8; 1; 2000; 3] [x61]))
  /\ syscall_handler (H := pintos_numbers) 1000
       (example_machine [9; 0; 2000; 3] [])
     = Ok (Returns,
           set_frame_eax 4294967295 (example_machine [9; 0; 2000; 3] [])).
Proof.
  destruct (wrong_descriptor_or_no_size (H := pintos_numbers) 1000
              (example_machine [8; 1; 2000; 3] [x61]) 1 2000 3)
    as [Hread _];
    [apply pintos_numbers_distinct | vm_compute; reflexivity ..|].
  destruct (wrong_descriptor_or_no_size (H := pintos_numbers) 1000
              (example_machine [9; 0; 2000; 3] []) 0 2000 3)
    as [_ Hwrite];
    [apply pintos_numbers_distinct | vm_compute; reflexivity ..|].
  split.
  - apply Hread; [vm_compute; reflexivity | simpl; lia | discriminate].
  - apply Hwrite; [vm_compute; reflexivity | simpl; lia | discriminate].
Defined.

(** X20: the three bytes "hi\n" written to the console. *)
Lemma write_three_bytes :
  exists bytes,
    syscall_handler (H := pintos_numbers) 1000
      (example_machine [9; 1; 2000; 3] [])
    = Ok (Returns,
          set_frame_eax 3 (putbuf bytes (example_machine [9; 1; 2000; 3] [])))
    /\ Z.of_nat (length bytes) = 3.
Proof.
  destruct (sys_write_puts_the_bytes (H := pintos_numbers) 1000
              (example_machine [9; 1; 2000; 3] []) 2000 3 [])
    as (bytes & Hrun & Hlen & _).
  - apply pintos_numbers_distinct.
  - simpl. lia.
  - vm_compute. reflexivity.
  - vm_compute. reflexivity.
  - vm_compute. reflexivity.
  - vm_compute. reflexivity.
  - lia.
  - intros k Hk.
    assert (Hc : k = 0 \/ k = 1 \/ k = 2) by lia.
    destruct Hc as [->|[->| ->]]; vm_compute; eauto.
  - exists bytes. split; [exact Hrun | exact Hlen].
Defined.

(** X21: the numbers 21 and -1. *)
Lemma numbers_21_and_minus_1 :
  syscall_handler (H := pintos_numbers) 1000
    (example_machine [21; 0; 0; 0] []) = Undef
  /\ syscall_handler (H := pintos_numbers) 1000
       (example_machine [-1; 0; 0; 0] []) = Undef.
Proof.
  split.
  - apply (number_outside_argc (H := pintos_numbers) 1000 _ 21);
      [vm_compute; reflexivity | lia].
  - apply (number_outside_argc (H := pintos_numbers) 1000 _ (-1));
      [vm_compute; reflexivity | lia].
Defined.


Lemma stored_world_registry_ok : registry_ok stored_world.
Proof.
  split.
  - reflexivity.
  - apply NoDup_singleton.
  - intros a ->%list_elem_of_singleton. exists example_inode.
    split; [reflexivity|]. split; [simpl; lia | reflexivity].
  - intros a b i j ->%list_elem_of_singleton ->%list_elem_of_singleton.
    reflexivity.
Qed.

Lemma not_in_file_7 : ~ in_file (inode.data example_inode) 7.
Proof.
  intros (k & Hk & Heq). simpl in Hk, Heq.
  change (bytes_to_sectors 1000) with 2 in Hk.
  rewrite uint32_small in Heq by lia. lia.
Qed.

(** X23: the bytes 510 and 511 of the file of 1000 bytes written, the inode
    closed and opened again, and the bytes read. *)
Lemma two_bytes_survive_close_and_open :
  exists w1 w2 a' w3 w4,
    inode_write_at true (Some 1%positive) [x01; x02] 2 510 stored_world
    = Ok (2, w1)
    /\ inode_close (Some 1%positive) w1 = Ok w2
    /\ inode_open true 7 w2 = Ok (Some a', w3)
    /\ inode_read_at true (Some a') [x00; x00; x00] 2 510 w3
       = Ok (2, [x01; x02; x00], w4).
Proof.
  destruct (write_survives_close_and_open stored_world 1%positive
              example_inode [x01; x02] [x00; x00; x00] 510)
    as (w1 & w2 & a' & w3 & w4 & Hw & Hc & _ & Ho & Hr).
  - apply stored_world_registry_ok.
  - apply list_elem_of_singleton. reflexivity.
  - reflexivity.
  - reflexivity.
  - apply example_inode_length_ok.
  - intros s. simpl. destruct (decide (7 = s)) as [<-|Hne].
    + rewrite fn_lookup_insert. reflexivity.
    + rewrite fn_lookup_insert_ne by exact Hne. reflexivity.
  - vm_compute. reflexivity.
  - apply not_in_file_7.
  - lia.
  - simpl. lia.
  - simpl. lia.
  - exists w1, w2, a', w3, w4. split; [exact Hw|]. split; [exact Hc|].
    split; [exact Ho | exact Hr].
Defined.

(** X24: 100 bytes and then 200 bytes from the offset 450, and 300 bytes at
    once. *)
Lemma read_100_then_200 :
  exists n1 n2 r1 r2 r w1 w2 w',
    inode_read_at true (Some 1%positive) (replicate 100 x01) 100 450
      example_world = Ok (n1, r1, w1)
    /\ inode_read_at true (Some 1%positive) (replicate 200 x02) 200
         (450 + n1) w1 = Ok (n2, r2, w2)
    /\ inode_read_at true (Some 1%positive) (replicate 300 x03) (100 + 200)
         450 example_world = Ok (n1 + n2, r, w')
    /\ take (Z.to_nat (n1 + n2)) r
       = take (Z.to_nat n1) r1 ++ take (Z.to_nat n2) r2
    /\ (n1 < 100 -> n2 = 0).
Proof.
  apply (reads_compose example_world (Some 1%positive) example_inode
           (replicate 100 x01) (replicate 200 x02) (replicate 300 x03)
           100 200 450).
  - apply example_world_points_to.
  - apply example_inode_length_ok.
  - apply example_world_disk_wf.
  - lia.
  - lia.
  - lia.
  - lia.
  - rewrite length_replicate. lia.
  - rewrite length_replicate. lia.
  - rewrite length_replicate. lia.
Defined.

(** X25: a file of 1000 bytes created at sector 7, opened, removed and
    closed. *)
Lemma life_of_1000_bytes :
  exists w1 a w2 w3 w4,
    inode_create true 7 1000 initial_world = Ok (true, w1)
    /\ inode_open true 7 w1 = Ok (Some a, w2)
    /\ inode_remove (Some a) w2 = Ok w3
    /\ inode_close (Some a) w3 = Ok w4
    /\ io_log w4 = io_log w2 ++ [EvRelease 7 1; EvRelease 8 2]
    /\ heap w4 = heap initial_world.
Proof.
  destruct (create_remove_close_releases 7 1000 8 10 initial_world)
    as (w1 & a & w2 & w3 & w4 & Hc & Ho & Hr & Hcl & Hlog & _ & Hh & _).
  - lia.
  - reflexivity.
  - apply (registry_ok_init initial_world).
  - intros a i Ha. by apply elem_of_nil in Ha.
  - vm_compute. intros Hin.
    repeat (apply elem_of_cons in Hin as [Hin|Hin]; [discriminate|]).
    by apply elem_of_nil in Hin.
  - exists w1, a, w2, w3, w4. split; [exact Hc|]. split; [exact Ho|].
    split; [exact Hr|]. split; [exact Hcl|]. split; [exact Hlog | exact Hh].
Defined.

(** C2: an inode of 1000 bytes at sector 7, the sectors 8 and 9 being the
    next that are free. *)
Lemma create_1000_bytes :
  exists w',
    inode_create true 7 1000 initial_world = Ok (true, w')
    /\ map (fun e => match e with
                     | EvAllocate n => (0, n)
                     | EvDiskWrite s _ => (1, s)
                     | EvDiskRead s => (2, s)
                     | EvRelease s _ => (3, s)
                     end) (io_log w')
       = [(0, 2); (1, 7); (1, 8); (1, 9)]
    /\ filesys_disk w' 7 = inode_disk.encode (created 8 1000)
    /\ filesys_disk w' 8 = zeros
    /\ inode_disk.length (inode_disk.decode (filesys_disk w' 7)) = 1000
    /\ exists a w2 w3,
         inode_open true 7 w' = Ok (Some a, w2)
         /\ inode_length (Some a) w2 = Ok 1000
         /\ inode_read_at true (Some a) (replicate 700%nat "a"%byte) 700 400 w2
            = Ok (600,
                  replicate 600%nat x00
                  ++ drop 600%nat (replicate 700%nat "a"%byte),
                  w3).
Proof.
  assert (Hnin : 7 ∉ map (fun k => uint32 (uint32 8 + k))
                       (seqZ 0 (bytes_to_sectors 1000))).
  { vm_compute. intros Hin.
    repeat (apply elem_of_cons in Hin as [Hin|Hin]; [discriminate|]).
    by apply elem_of_nil in Hin. }
  destruct (create_writes_descriptor_then_zeros 7 1000 8 10 initial_world)
    as (w' & Hc & _ & Hlog & Hdisk & _ & _ & _ & _ & _ & _ & Hsec & Hopen
        & Hread).
  - lia.
  - intros s. reflexivity.
  - reflexivity.
  - exists w'. split; [exact Hc|].
    split; [rewrite Hlog; reflexivity|].
    split; [rewrite (Hdisk 7); reflexivity|].
    split; [rewrite (Hdisk 8); reflexivity|].
    split; [rewrite (Hsec Hnin); reflexivity|].
    destruct Hopen as (a & w2 & Ho & Hp & Hd & Hfound).
    { apply (registry_ok_init initial_world). }
    { intros b i Hb. by apply elem_of_nil in Hb. }
    destruct (Hfound Hnin) as [_ Hlen].
    destruct (Hread w2 (Some a) (opened 7 w') true
                (replicate 700%nat "a"%byte) 700 400)
      as (cnt & w3 & Hr & _ & Hcnt); try (exact Hd || exact Hp || lia).
    + rewrite Hd. reflexivity.
    + simpl. lia.
    + rewrite (Hcnt eq_refl Hnin) in Hr.
      exists a, w2, w3. split; [exact Ho|]. split; [exact Hlen | exact Hr].
Defined.
